(** * All-Colors: the growth engine of [src/main.cpp]

    A shallow embedding of the palette builder, the canvas and frontier
    primitives, the scorer and the greedy placement loop, followed by the
    properties of the specification that concern them.

    Conventions of the embedding:
    - [int] and [PosComponent] are [Z]; every value the program computes
      stays far inside the 32-bit range, so no wrap-around is written out
      except for the narrowing [int -> unsigned char] of a [Color]
      constructor ([to_Channel]).
    - [double] is the kernel's binary64 [float]; arithmetic, comparison and
      square root are the IEEE 754 operations, in the order of the source.
    - [std::set<Pos>] is a red-black tree set over the lexicographic order of
      [std::pair]; iteration is [PS.elements], in increasing order.
    - [cv::Mat] is its dimensions together with a total cell function; the
      accesses of the source that would leave the matrix are undefined
      behaviour there and are reported as a [Fault] by the loop.
    - [std::mt19937], [std::shuffle] and [std::sort] are library code: they
      are Section variables constrained by their contracts.  Where a
      statement is about what the library may do, the calls are relations
      and the engine is the relation they induce ([main_may]). *)

From Stdlib Require Import ZArith List Lia Bool Floats Permutation Sorted.
From Stdlib Require Import Orders MSetRBT SetoidList.
From Stdlib Require String.
Import String.StringSyntax.
Delimit Scope string_scope with string.
Import ListNotations.
Set Warnings "-inexact-float".
Open Scope Z_scope.

(** ** Integer ranges: the counting [for] loops of the source *)

(** [Zrange lo hi] enumerates [lo <= i < hi] in increasing order. *)
Definition Zrange (lo hi : Z) : list Z :=
  map (fun i => lo + Z.of_nat i) (seq 0 (Z.to_nat (hi - lo))).

(** ** Data model *)

Abbreviation Channel := Z (only parsing).        (* unsigned char: 0 .. 255 *)
Abbreviation PosComponent := Z (only parsing).   (* int *)

(** Narrowing conversion [int -> unsigned char]. *)
Definition to_Channel (z : Z) : Channel := z mod 256.

(** [cv::Vec<T, 3>]; component [i] of the source is [vi]. *)
Record Vec3 (T : Type) : Type := vec3 { v0 : T; v1 : T; v2 : T }.
Arguments vec3 {T} _ _ _.
Arguments v0 {T} _.
Arguments v1 {T} _.
Arguments v2 {T} _.

Definition ColorDouble := Vec3 float.
Definition Color := Vec3 Channel.
Definition Pos := (PosComponent * PosComponent)%type.

(** The constructor [Color(int, int, int)]: each argument is narrowed. *)
Definition mkColor (b g r : Z) : Color :=
  vec3 (to_Channel b) (to_Channel g) (to_Channel r).

Definition invalidColor : Channel := 0.

(** The value every cell of a fresh canvas holds:
    [Scalar_<Channel>(invalidColor)] is [(invalidColor, 0, 0, 0)]. *)
Definition sentinel : Color := vec3 invalidColor 0 0.

(** A colour as the program can store it: three bytes. *)
Definition valid_channel (c : Channel) : Prop := 0 <= c < 256.
Definition valid_color (c : Color) : Prop :=
  valid_channel (v0 c) /\ valid_channel (v1 c) /\ valid_channel (v2 c).

(** [cv::Mat] with element type [T]: [at y x] is [image.at<T>(y, x)]. *)
Record Mat (T : Type) : Type := mkMat { rows : Z; cols : Z; at_ : Z -> Z -> T }.
Arguments mkMat {T} _ _ _.
Arguments rows {T} _.
Arguments cols {T} _.
Arguments at_ {T} _ _ _.

Definition SetPixel (image : Mat Color) (x y : PosComponent) (color : Color)
  : Mat Color :=
  mkMat (rows image) (cols image)
        (fun y' x' => if (y' =? y) && (x' =? x) then color else at_ image y' x').

Definition GetPixel (image : Mat Color) (x y : PosComponent) : Color :=
  at_ image y x.

Definition GetPixelAt (image : Mat Color) (pos : Pos) : Color :=
  let '(x, y) := pos in GetPixel image x y.

Definition spread : PosComponent := 1.

(** The bounds test written out in [GetFreeNeighbours] and [ColorPosDiff]. *)
Definition out_of_image {T} (image : Mat T) (x y : PosComponent) : bool :=
  (x <? 0) || (x >=? cols image) || (y <? 0) || (y >=? rows image).

Definition in_bounds {T} (image : Mat T) (pos : Pos) : Prop :=
  0 <= fst pos < cols image /\ 0 <= snd pos < rows image.

(** ** [std::set<Pos>]: ordered by the lexicographic order of [std::pair] *)

Module PosOT <: OrderedType.
Definition t := Pos.
Definition eq : t -> t -> Prop := @Logic.eq Pos.
Definition eq_equiv : Equivalence eq := eq_equivalence.
Definition lt (p q : t) : Prop :=
    fst p < fst q \/ (fst p = fst q /\ snd p < snd q).
Lemma lt_strorder : StrictOrder lt.
  Proof.
    split.
    - intros [x y] H. unfold lt in H; simpl in H. lia.
    - intros [x y] [x' y'] [x'' y'']. unfold lt; simpl. lia.
  Qed.
Lemma lt_compat : Proper (eq ==> eq ==> iff) lt.
  Proof. intros p p' -> q q' ->. reflexivity. Qed.
Definition compare (p q : t) : comparison :=
    match fst p ?= fst q with
    | Eq => snd p ?= snd q
    | c => c
    end.
Lemma compare_spec (p q : t) : CompareSpec (eq p q) (lt p q) (lt q p) (compare p q).
  Proof.
    destruct p as [x y], q as [x' y']. unfold compare, lt, eq; simpl.
    destruct (Z.compare_spec x x'); [destruct (Z.compare_spec y y')|..];
      constructor; try lia. congruence.
  Qed.
Lemma eq_dec (p q : t) : {eq p q} + {~ eq p q}.
  Proof.
    destruct p as [x y], q as [x' y']. unfold eq.
    destruct (Z.eq_dec x x'), (Z.eq_dec y y'); [left|right..]; congruence.
  Defined.
End PosOT.

Module PS := MSetRBT.Make PosOT.

(** ** Palette Builder: the three nested loops of [main] *)

Definition colValues : Z := 64.
Definition colMult : Z := 4.

Definition build_colors : list Color :=
  flat_map (fun b =>
    flat_map (fun g =>
      map (fun r => mkColor (colMult * b) (colMult * g ÷ 2) (colMult * r ÷ 2))
          (Zrange 1 (2 * colValues)))
      (Zrange 1 (2 * colValues)))
    (Zrange 1 colValues).

(** ** [double]: conversions the source leaves implicit *)

(** [int -> double]; exact for every integer the program converts. *)
Definition of_int (z : Z) : float :=
  if z <? 0 then (- of_uint63 (Uint63.of_Z (- z)))%float
  else of_uint63 (Uint63.of_Z z).

(** [double -> int]: truncation toward zero (finite values only). *)
Definition double_to_int (f : float) : Z :=
  match Prim2SF f with
  | S754_finite s m e => cond_Zopp s (Z.shiftl (Zpos m) e)
  | _ => 0
  end.

(** [std::min], [std::max] and the templates [min3], [max3] over them;
    [lt] is [operator<] of the element type. *)
Definition std_min {T} (lt : T -> T -> bool) (a b : T) : T := if lt b a then b else a.
Definition std_max {T} (lt : T -> T -> bool) (a b : T) : T := if lt a b then b else a.
Definition min3 {T} (lt : T -> T -> bool) (a b c : T) : T := std_min lt (std_min lt a b) c.
Definition max3 {T} (lt : T -> T -> bool) (a b c : T) : T := std_max lt (std_max lt a b) c.

(** ** Frontier primitive *)

(** The [(2*spread+1)^2] block around [pos], [nx] outer and [ny] inner. *)
Definition neighbours (pos : Pos) : list Pos :=
  let '(x, y) := pos in
  flat_map (fun nx => map (fun ny => (nx, ny)) (Zrange (y - spread) (y + spread + 1)))
           (Zrange (x - spread) (x + spread + 1)).

(** The predicate handed to [copy_if]. *)
Definition is_free (image : Mat Color) (pos : Pos) : bool :=
  let '(x, y) := pos in
  if out_of_image image x y then false
  else v0 (GetPixel image x y) =? invalidColor.

Definition GetFreeNeighbours (image : Mat Color) (pos : Pos) : PS.t :=
  fold_left (fun result p => PS.add p result)
            (filter (is_free image) (neighbours pos)) PS.empty.

(** ** Hue *)

Definition bgr2hsv (bgr : Color) : ColorDouble :=
  let bc := v0 bgr in
  let gc := v1 bgr in
  let rc := v2 bgr in
  let b := (of_int bc / 255)%float in
  let g := (of_int gc / 255)%float in
  let r := (of_int rc / 255)%float in
  let maxc := max3 Z.ltb rc gc bc in
  let v := max3 PrimFloat.ltb r g b in
  let s := (if v =? 0 then 0 else (v - min3 PrimFloat.ltb r g b) / v)%float in
  let divisor := (v - min3 PrimFloat.ltb r g b)%float in
  if (divisor =? 0)%float then vec3 0%float 0%float 0%float
  else
    let h :=
      (if (maxc =? rc)%Z then 60 * (g - b) / divisor
       else if (maxc =? gc)%Z then 120 + 60 * (b - r) / divisor
       else if (maxc =? bc)%Z then 240 + 60 * (r - g) / divisor
       else 0 (* assert(false) *))%float in
    let h := (if h <? 0 then h + 360 else h)%float in
    vec3 h s v.

(** The comparator handed to [std::sort]. *)
Definition hue_less (bgr1 bgr2 : Color) : bool :=
  (v0 (bgr2hsv bgr1) <? v0 (bgr2hsv bgr2))%float.

(** ** Scorer *)

Definition ColorDiff (bgr1 bgr2 : Color) : float :=
  let db := of_int (v0 bgr2 - v0 bgr1) in
  let dg := of_int (v1 bgr2 - v1 bgr1) in
  let dr := of_int (v2 bgr2 - v2 bgr1) in
  sqrt (db * db + dg * dg + dr * dr)%float.

(** One pass of the inner loop body: [(diff, colorCount)] before and after
    cell [(nx, ny)]. *)
Definition score_cell (image : Mat Color) (color : Color)
           (acc : float * Z) (cell : Pos) : float * Z :=
  let '(diff, colorCount) := acc in
  let '(nx, ny) := cell in
  if out_of_image image nx ny then (diff, colorCount)
  else
    let pixelColor := GetPixel image nx ny in
    if v0 pixelColor =? invalidColor then (diff, colorCount)
    else ((diff + ColorDiff color pixelColor)%float, colorCount + 1).

Definition ColorPosDiff (image : Mat Color) (pos : Pos) (color : Color) : float :=
  let '(x, y) := pos in
  let '(diff, colorCount) :=
    fold_left (fun acc nx =>
                 fold_left (fun acc ny => score_cell image color acc (nx, ny))
                           (Zrange (y - spread) (y + spread + 1)) acc)
              (Zrange (x - spread) (x + spread + 1)) (0%float, 0) in
  let divisor := of_int (Z.max colorCount 1) in
  (diff / (divisor * divisor))%float.

(** [std::min_element]: the first element no later element is less than. *)
Definition min_element {T} (comp : T -> T -> bool) (l : list T) : option T :=
  match l with
  | [] => None
  | first :: rest =>
      Some (fold_left (fun smallest x => if comp x smallest then x else smallest)
                      rest first)
  end.

Definition rate (image : Mat Color) (color : Color) (pos : Pos) : float * Pos :=
  (ColorPosDiff image pos color, pos).

Definition rated_less (rp1 rp2 : float * Pos) : bool := (fst rp1 <? fst rp2)%float.

(** ** Seeds: [NonBlackPositions] and [Init] *)

Definition NonBlackPositions (img : Mat Channel) : PS.t :=
  fold_left (fun result y =>
               fold_left (fun result x =>
                            if at_ img y x >? 0 then PS.add (x, y) result else result)
                         (Zrange 0 (cols img)) result)
            (Zrange 0 (rows img)) PS.empty.

(** A matrix filled with [Scalar_<Channel>(invalidColor)]. *)
Definition blank (rows cols : Z) : Mat Color := mkMat rows cols (fun _ _ => sentinel).

(** [Pos(fx * image.cols, fy * image.rows)]: both products are truncated. *)
Definition scaled_pos (image : Mat Color) (fx fy : float) : Pos :=
  (double_to_int (fx * of_int (cols image)), double_to_int (fy * of_int (rows image))).

(** The local [initPositions] of [Init] for [num] in 2, 3, 4. *)
Definition initPositions (image : Mat Color) (num : Z) : PS.t :=
  if num =? 2 then
    PS.add (scaled_pos image 0.67 0.5) (PS.add (scaled_pos image 0.33 0.5) PS.empty)
  else if num =? 3 then
    PS.add (scaled_pos image 0.50 0.69)
      (PS.add (scaled_pos image 0.67 0.4) (PS.add (scaled_pos image 0.33 0.4) PS.empty))
  else if num =? 4 then
    PS.add (scaled_pos image 0.64 0.64)
      (PS.add (scaled_pos image 0.36 0.64)
         (PS.add (scaled_pos image 0.67 0.36) (PS.add (scaled_pos image 0.33 0.36) PS.empty)))
  else PS.empty.

Definition plusLength : PosComponent := 5.

(** The body of the [for_each] of [Init]: the two arms through [pos]. *)
Definition add_plus (nextPositions : PS.t) (pos : Pos) : PS.t :=
  let '(x, y) := pos in
  let nextPositions :=
    fold_left (fun s nx => PS.add (nx, y) s)
              (Zrange (x - plusLength) (x + plusLength + 1)) nextPositions in
  fold_left (fun s ny => PS.add (x, ny) s)
            (Zrange (y - plusLength) (y + plusLength + 1)) nextPositions.

(** [Init]: [argv1] is [argv[1]] when [argc >= 2]; [imread] stands for the
    file system ([cv::imread] in grayscale mode, an empty matrix on failure). *)
Definition Init (imread : String.string -> Mat Channel) (argv1 : option String.string)
  : Mat Color * PS.t :=
  match argv1 with
  | None => (blank 0 0, PS.empty)
  | Some arg =>
      let num := 0 in
      let num := if String.eqb arg "2"%string then 2 else num in
      let num := if String.eqb arg "3"%string then 3 else num in
      let num := if String.eqb arg "4"%string then 4 else num in
      if num =? 0 then
        let src := imread arg in
        (blank (rows src) (cols src), NonBlackPositions src)
      else
        let image := blank 1080 1920 in
        (image, fold_left add_plus (PS.elements (initPositions image num)) PS.empty)
  end.

(** ** Contracts of the library code *)

(** What [std::sort] and [std::min_element] require of a comparator, on the
    elements it is applied to: a strict weak ordering. *)
Definition strict_weak_order_on {T} (comp : T -> T -> bool) (l : list T) : Prop :=
  (forall a, In a l -> comp a a = false) /\
  (forall a b c, In a l -> In b l -> In c l ->
                 comp a b = true -> comp b c = true -> comp a c = true) /\
  (forall a b c, In a l -> In b l -> In c l ->
                 comp a b = false -> comp b c = false -> comp a c = false).

(** The postcondition of [std::sort]: no element is less than an earlier one. *)
Definition sorted_by {T} (comp : T -> T -> bool) (l : list T) : Prop :=
  StronglySorted (fun a b => comp b a = false) l.

(** [a] stands before [b] in [l]. *)
Definition before {T} (a b : T) (l : list T) : Prop :=
  exists l1 l2 l3, l = l1 ++ a :: l2 ++ b :: l3.

(** The [std::random_device] that [main] constructs: an entropy stream. *)
Definition random_device := nat -> Z.

(** ** Growth engine *)

Inductive Fault : Type :=
| AssertionFailed      (* assert(nextPositionsIt != nextPositions.end()) *)
| EmptyRange           (* min_element over an empty range, dereferenced *)
| OutOfBounds.         (* image.at outside the matrix *)

Inductive Status : Type :=
| Finished
| Faulted (f : Fault)
| OutOfFuel.

Section Engine.

(** [std::mt19937]: its state and its seeding constructor. *)
Variable Gen : Type.
Variable mt19937 : Z -> Gen.

(** [std::shuffle(first, last, g)]: the reordered range and the advanced
    generator. *)
Variable shuffle : forall T : Type, list T -> Gen -> list T * Gen.
Arguments shuffle {T} _ _.

(** [std::sort(first, last, comp)]. *)
Variable sort : forall T : Type, (T -> T -> bool) -> list T -> list T.
Arguments sort {T} _ _.

Definition FindBestPos (image : Mat Color) (nextPositions : PS.t) (color : Color)
           (g : Gen) : option Pos * Gen :=
  let ratedPositions := map (rate image color) (PS.elements nextPositions) in
  let '(ratedPositions, g) := shuffle ratedPositions g in
  (option_map snd (min_element rated_less ratedPositions), g).

(** The variables of [main] that the loop reads and writes. *)
Record State : Type := mkState {
  colors : list Color;
  image : Mat Color;
  nextPositions : PS.t;
  gen : Gen
}.

Inductive Outcome : Type :=
| Done
| Continue (placed : Pos * Color) (s' : State)
| Fail (f : Fault).

(** [nextPositions.insert(newFreePos.begin(), newFreePos.end())]. *)
Definition insert_range (nextPositions newFreePos : PS.t) : PS.t :=
  fold_left (fun s p => PS.add p s) (PS.elements newFreePos) nextPositions.

(** The loop test and one pass of the body of the [while] of [main].  The
    snapshot block ([Embellish], [imwrite]) only reads [image] and is left
    out. *)
Definition iteration (s : State) : Outcome :=
  match colors s with
  | [] => Done
  | _ :: _ =>
      if PS.is_empty (nextPositions s) then Done
      else
        let color := last (colors s) sentinel in
        let colors' := removelast (colors s) in
        let '(found, g') := FindBestPos (image s) (nextPositions s) color (gen s) in
        match found with
        | None => Fail EmptyRange
        | Some pos =>
            if negb (PS.mem pos (nextPositions s)) then Fail AssertionFailed
            else
              let next' := PS.remove pos (nextPositions s) in
              if out_of_image (image s) (fst pos) (snd pos) then Fail OutOfBounds
              else
                let image' := SetPixel (image s) (fst pos) (snd pos) color in
                let newFreePos := GetFreeNeighbours image' pos in
                Continue (pos, color)
                         (mkState colors' image' (insert_range next' newFreePos) g')
        end
  end.

(** What a run leaves behind: the placements in order, the last state and
    how the loop stopped. *)
Record Run : Type := mkRun {
  placements : list (Pos * Color);
  final : State;
  status : Status
}.

Fixpoint loop (fuel : nat) (s : State) : Run :=
  match fuel with
  | O => mkRun [] s OutOfFuel
  | S fuel' =>
      match iteration s with
      | Done => mkRun [] s Finished
      | Fail f => mkRun [] s (Faulted f)
      | Continue placed s' =>
          let r := loop fuel' s' in
          mkRun (placed :: placements r) (final r) (status r)
      end
  end.

(** The [while] loop: one pass per colour at most. *)
Definition grow (s : State) : Run := loop (S (length (colors s))) s.

(** The palette as the loop receives it: shuffled, then sorted by hue. *)
Definition ordered_colors : list Color * Gen :=
  let g := mt19937 1 in
  let '(colors, g) := shuffle build_colors g in
  (sort hue_less colors, g).

(** The state in which [main] enters the loop; [None] when it returns 1. *)
Definition initial_state (imread : String.string -> Mat Channel)
           (argv1 : option String.string) : option State :=
  let '(image, nextPositions) := Init imread argv1 in
  if rows image =? 0 then None
  else
    let '(colors, g) := ordered_colors in
    Some (mkState colors image nextPositions g).

(** [main]; [rd] is the [random_device] it declares. *)
Definition main (rd : random_device) (imread : String.string -> Mat Channel)
           (argv1 : option String.string) : option Run :=
  option_map grow (initial_state imread argv1).

(** [steps s tr s']: the loop goes from [s] to [s'] placing [tr]. *)
Inductive steps : State -> list (Pos * Color) -> State -> Prop :=
| steps_refl (s : State) : steps s [] s
| steps_cons (s s' s'' : State) (placed : Pos * Color) (tr : list (Pos * Color)) :
    iteration s = Continue placed s' -> steps s' tr s'' ->
    steps s (placed :: tr) s''.

End Engine.

Arguments colors {Gen} _.
Arguments image {Gen} _.
Arguments nextPositions {Gen} _.
Arguments gen {Gen} _.
Arguments mkState {Gen} _ _ _ _.
Arguments Done {Gen}.
Arguments Continue {Gen} _ _.
Arguments Fail {Gen} _.
Arguments placements {Gen} _.
Arguments final {Gen} _.
Arguments status {Gen} _.
Arguments mkRun {Gen} _ _ _.
Arguments FindBestPos {Gen} shuffle _ _ _ _.
Arguments iteration {Gen} shuffle _.
Arguments loop {Gen} shuffle _ _.
Arguments grow {Gen} shuffle _.
Arguments steps {Gen} shuffle _ _ _.
Arguments ordered_colors {Gen} mt19937 shuffle sort.
Arguments initial_state {Gen} mt19937 shuffle sort _ _.
Arguments main {Gen} mt19937 shuffle sort _ _ _.

(** ** A reference instance of the library interfaces

    A Lehmer generator with a selection shuffle, and an insertion sort that
    places an element after the elements it is equivalent to.  They meet
    the contracts above and make the engine executable on small canvases. *)

Definition lehmer_seed (seed : Z) : Z := seed mod 2147483647.
Definition lehmer_next (g : Z) : Z := (g * 48271) mod 2147483647.

(** Take element [n] out of [l]. *)
Fixpoint extract {T} (n : nat) (l : list T) : option (T * list T) :=
  match l with
  | [] => None
  | x :: t =>
      match n with
      | O => Some (x, t)
      | S n' =>
          match extract n' t with
          | Some (y, t') => Some (y, x :: t')
          | None => None
          end
      end
  end.

Fixpoint draw {T} (fuel : nat) (l : list T) (g : Z) : list T * Z :=
  match fuel with
  | O => (l, g)
  | S fuel' =>
      let g' := lehmer_next g in
      match extract (Z.to_nat (g' mod Z.of_nat (length l))) l with
      | Some (x, rest) => let '(out, g'') := draw fuel' rest g' in (x :: out, g'')
      | None => (l, g')
      end
  end.

Definition lehmer_shuffle (T : Type) (l : list T) (g : Z) : list T * Z :=
  draw (length l) l g.

Fixpoint insert_after {T} (comp : T -> T -> bool) (x : T) (l : list T) : list T :=
  match l with
  | [] => [x]
  | y :: t => if comp x y then x :: y :: t else y :: insert_after comp x t
  end.

Definition insertion_sort (T : Type) (comp : T -> T -> bool) (l : list T) : list T :=
  fold_right (insert_after comp) [] l.

(** A 3x3 canvas with one seed in the middle and a palette of three colours. *)
Definition demo_state : State Z :=
  mkState [mkColor 4 2 2; mkColor 8 6 2; mkColor 12 2 6]
          (blank 3 3) (PS.add (1, 1) PS.empty) (lehmer_seed 1).

(** ** Notions the statements are written with *)

(** Summation in the order of the loop, starting from [0.0]. *)
Definition fsum (l : list float) : float := fold_left PrimFloat.add l 0%float.

(** Equality of colours, channel by channel. *)
Definition Color_eqb (c c' : Color) : bool :=
  (v0 c =? v0 c') && (v1 c =? v1 c') && (v2 c =? v2 c').

(** The cells the specification sums over: in bounds, not the sentinel,
    within Chebyshev distance [spread], in scan order. *)
Definition placed_neighbours (img : Mat Color) (p : Pos) : list Pos :=
  filter (fun q => negb (out_of_image img (fst q) (snd q)) &&
                   negb (Color_eqb (GetPixelAt img q) sentinel))
         (neighbours p).

(** The cells the code sums over: in bounds with a non-zero first channel. *)
Definition counted (img : Mat Color) (q : Pos) : bool :=
  negb (out_of_image img (fst q) (snd q)) &&
  negb (v0 (GetPixelAt img q) =? invalidColor).

(** Every cell is the sentinel or has a non-zero first channel. *)
Definition canvas_ok (img : Mat Color) : Prop :=
  forall x y, v0 (GetPixel img x y) = invalidColor -> GetPixel img x y = sentinel.

(** [q] lies on one of the two arms of half-length [plusLength] through [p]. *)
Definition on_plus (p q : Pos) : Prop :=
  (snd q = snd p /\ fst p - plusLength <= fst q <= fst p + plusLength) \/
  (fst q = fst p /\ snd p - plusLength <= snd q <= snd p + plusLength).

(** The frontier [Init] builds around the seeds of mode [num]. *)
Definition plus_frontier (num : Z) : PS.t :=
  fold_left add_plus (PS.elements (initPositions (blank 1080 1920) num)) PS.empty.

(** The frontier the specification expects before the first iteration: the
    free neighbours of the seed positions. *)
Definition neighbor_expansion (img : Mat Color) (seeds : PS.t) (q : Pos) : Prop :=
  exists s, PS.In s seeds /\ PS.In q (GetFreeNeighbours img s).

(** A file system without images: every [imread] yields the empty matrix. *)
Definition no_file : String.string -> Mat Channel := fun _ => mkMat 0 0 (fun _ _ => 0).

(** The value of the local [num] of [Init]. *)
Definition arg_num (arg : String.string) : Z :=
  if String.eqb arg "4"%string then 4
  else if String.eqb arg "3"%string then 3
  else if String.eqb arg "2"%string then 2
  else 0.

(** Case analysis on the exponent and mantissa comparisons that
    [SFcompare] performs on finite values. *)
Ltac sf_cmp :=
  repeat match goal with
  | |- context [Pos.compare_cont Eq ?a ?b] => change (Pos.compare_cont Eq a b) with (Pos.compare a b)
  | H : context [Pos.compare_cont Eq ?a ?b] |- _ => change (Pos.compare_cont Eq a b) with (Pos.compare a b) in H
  end;
  repeat match goal with
  | |- context [Z.compare ?a ?b] => destruct (Z.compare_spec a b)
  | H : context [Z.compare ?a ?b] |- _ => destruct (Z.compare_spec a b)
  | |- context [Pos.compare ?a ?b] => destruct (Pos.compare_spec a b)
  | H : context [Pos.compare ?a ?b] |- _ => destruct (Pos.compare_spec a b)
  end;
  cbn in *; try reflexivity; try discriminate; try lia.

(** A specification float that is not NaN and has sign [s]. *)
Definition signed (s : bool) (x : spec_float) : Prop :=
  match x with
  | S754_zero s' | S754_infinity s' | S754_finite s' _ _ => s' = s
  | S754_nan => False
  end.

(** Not NaN and not negative: a zero of either sign, a positive finite
    value or plus infinity. *)
Definition nonneg (x : spec_float) : Prop :=
  match x with
  | S754_zero _ => True
  | S754_infinity s | S754_finite s _ _ => s = false
  | S754_nan => False
  end.

(** Neither NaN nor an infinity. *)
Definition finite_or_zero (x : spec_float) : Prop :=
  match x with
  | S754_zero _ | S754_finite _ _ _ => True
  | _ => False
  end.

(** The same notions on [double] values. *)
Definition not_nan (x : float) : Prop := Prim2SF x <> S754_nan.
Definition nn (x : float) : Prop := nonneg (Prim2SF x).

(** A channel as [bgr2hsv] scales it: [c / 255.0]. *)
Definition chan (z : Z) : float := (of_int z / 255)%float.

(** The parts of the loop invariant. *)
Definition frontier_in_bounds {Gen} (s : State Gen) : Prop :=
  forall q, PS.In q (nextPositions s) -> in_bounds (image s) q.

Definition frontier_unset {Gen} (s : State Gen) : Prop :=
  forall q, PS.In q (nextPositions s) -> GetPixelAt (image s) q = sentinel.

Definition palette_ok {Gen} (s : State Gen) : Prop :=
  forall c, In c (colors s) -> v0 c <> invalidColor.

(** A state the loop can be in: what [main] establishes before the loop and
    every iteration preserves. *)
Definition well_formed {Gen} (s : State Gen) : Prop :=
  frontier_in_bounds s /\ frontier_unset s /\ canvas_ok (image s) /\ palette_ok s.

(** A canvas with one painted cell in the middle. *)
Definition demo_image : Mat Color := SetPixel (blank 3 3) 1 1 (vec3 12 2 6).


(** ** Notions of the scorer and of exact arithmetic *)

(** The square of the Euclidean distance between two colours. *)
Definition squared_distance (a b : Color) : Z :=
  (v0 b - v0 a) * (v0 b - v0 a) + (v1 b - v1 a) * (v1 b - v1 a) +
  (v2 b - v2 a) * (v2 b - v2 a).

(** The Euclidean distance over the channels, rounded once: the binary64
    square root of the exact sum of the squared channel differences. *)
Definition euclidean_distance (a b : Color) : float :=
  PrimFloat.sqrt (of_int (squared_distance a b)).

(** Every cell of the canvas holds three bytes, as an [unsigned char]
    matrix does. *)
Definition canvas_bytes (img : Mat Color) : Prop :=
  forall x y, valid_color (GetPixel img x y).

(** [z] shifted left by [n] bits. *)
Definition shifted (n : nat) (z : positive) : positive := Nat.iter n xO z.

(** The binary64 datum of a positive integer of at most 53 bits: its
    mantissa is the integer shifted to 53 bits. *)
Definition canonical (z : positive) : spec_float :=
  S754_finite false (shifted (Z.to_nat (53 - Zpos (digits2_pos z))) z)
              (Zpos (digits2_pos z) - 53).

(** A canvas with two painted cells, at distances 5 and 10 from the colour
    (10, 10, 10). *)
Definition pythagoras_image : Mat Color :=
  SetPixel (SetPixel (blank 3 3) 0 0 (vec3 13 14 10)) 1 0 (vec3 16 18 10).

(** A canvas of one row with two painted cells, and a frontier of four
    cells: two next to the first painted cell, two next to the second. *)
Definition tie_image : Mat Color :=
  SetPixel (SetPixel (blank 1 6) 1 0 (vec3 12 2 6)) 4 0 (vec3 40 2 6).

Definition tie_frontier : PS.t :=
  fold_left (fun s p => PS.add p s) [(0, 0); (2, 0); (3, 0); (5, 0)] PS.empty.

(** ** A second reference sort

    An insertion sort that places an element before the elements it is
    equivalent to: a stable sort. *)
Fixpoint insert_before {T} (comp : T -> T -> bool) (x : T) (l : list T) : list T :=
  match l with
  | [] => [x]
  | y :: t => if comp y x then y :: insert_before comp x t else x :: y :: t
  end.

Definition stable_sort (T : Type) (comp : T -> T -> bool) (l : list T) : list T :=
  fold_right (insert_before comp) [] l.

(** ** The engine over a library that may answer in more than one way

    The same program, with [std::shuffle] and [std::sort] as relations
    between the arguments of a call and what the call may leave behind. *)

Section MayEngine.

Variable Gen : Type.
Variable mt19937 : Z -> Gen.
Variable shuffle_may : forall T : Type, list T -> Gen -> list T * Gen -> Prop.
Variable sort_may : forall T : Type, (T -> T -> bool) -> list T -> list T -> Prop.

(** [FindBestPos]: the rated positions are shuffled by the library, and the
    first pair of least cost is taken from what the shuffle left. *)
Inductive FindBestPos_may (image : Mat Color) (nextPositions : PS.t) (color : Color)
          (g : Gen) : option Pos * Gen -> Prop :=
| FindBestPos_may_intro (ratedPositions : list (float * Pos)) (g' : Gen) :
    shuffle_may _ (map (rate image color) (PS.elements nextPositions)) g
                (ratedPositions, g') ->
    FindBestPos_may image nextPositions color g
                    (option_map snd (min_element rated_less ratedPositions), g').

(** The body of the loop after [FindBestPos] has returned [found] and left
    the generator in [g']. *)
Definition place (s : State Gen) (found : option Pos) (g' : Gen) : Outcome Gen :=
  let color := last (colors s) sentinel in
  let colors' := removelast (colors s) in
  match found with
  | None => Fail EmptyRange
  | Some pos =>
      if negb (PS.mem pos (nextPositions s)) then Fail AssertionFailed
      else
        let next' := PS.remove pos (nextPositions s) in
        if out_of_image (image s) (fst pos) (snd pos) then Fail OutOfBounds
        else
          let image' := SetPixel (image s) (fst pos) (snd pos) color in
          let newFreePos := GetFreeNeighbours image' pos in
          Continue (pos, color)
                   (mkState colors' image' (insert_range next' newFreePos) g')
  end.

(** The loop test and one pass of the body of the [while] of [main]. *)
Inductive iteration_may (s : State Gen) : Outcome Gen -> Prop :=
| iteration_may_done :
    colors s = [] \/ PS.is_empty (nextPositions s) = true -> iteration_may s Done
| iteration_may_pass (found : option Pos) (g' : Gen) :
    colors s <> [] -> PS.is_empty (nextPositions s) = false ->
    FindBestPos_may (image s) (nextPositions s) (last (colors s) sentinel) (gen s)
                    (found, g') ->
    iteration_may s (place s found g').

(** The [while] loop: what a run from [s] may leave behind. *)
Inductive loop_may : State Gen -> Run Gen -> Prop :=
| loop_may_done (s : State Gen) :
    iteration_may s Done -> loop_may s (mkRun [] s Finished)
| loop_may_fail (s : State Gen) (f : Fault) :
    iteration_may s (Fail f) -> loop_may s (mkRun [] s (Faulted f))
| loop_may_pass (s s' : State Gen) (placed : Pos * Color) (r : Run Gen) :
    iteration_may s (Continue placed s') -> loop_may s' r ->
    loop_may s (mkRun (placed :: placements r) (final r) (status r)).

(** The palette as the loop receives it: [mt19937 g(1)], the shuffle, then
    the sort by hue. *)
Inductive ordered_colors_may : list Color * Gen -> Prop :=
| ordered_colors_may_intro (shuffled sorted : list Color) (g : Gen) :
    shuffle_may _ build_colors (mt19937 1) (shuffled, g) ->
    sort_may _ hue_less shuffled sorted ->
    ordered_colors_may (sorted, g).

(** [main]: it returns 1 when the image has no rows, before the palette is
    built; otherwise it builds, shuffles and sorts the palette and runs
    the loop.  The [random_device] it constructs is not read. *)
Inductive main_may (rd : random_device) (imread : String.string -> Mat Channel)
          (argv1 : option String.string) : option (Run Gen) -> Prop :=
| main_may_return_1 :
    rows (fst (Init imread argv1)) = 0 -> main_may rd imread argv1 None
| main_may_run (colors : list Color) (g : Gen) (r : Run Gen) :
    rows (fst (Init imread argv1)) <> 0 ->
    ordered_colors_may (colors, g) ->
    loop_may (mkState colors (fst (Init imread argv1)) (snd (Init imread argv1)) g) r ->
    main_may rd imread argv1 (Some r).

End MayEngine.

Arguments FindBestPos_may {Gen} shuffle_may _ _ _ _ _.
Arguments place {Gen} _ _ _.
Arguments iteration_may {Gen} shuffle_may _ _.
Arguments loop_may {Gen} shuffle_may _ _.
Arguments ordered_colors_may {Gen} mt19937 shuffle_may sort_may _.
Arguments main_may {Gen} mt19937 shuffle_may sort_may _ _ _ _.

(** A library given by functions, as a library that may answer in one way. *)
Definition shuffle_graph {Gen : Type}
           (shuffle : forall T : Type, list T -> Gen -> list T * Gen)
  : forall T : Type, list T -> Gen -> list T * Gen -> Prop :=
  fun T l g r => r = shuffle T l g.

Definition sort_graph (sort : forall T : Type, (T -> T -> bool) -> list T -> list T)
  : forall T : Type, (T -> T -> bool) -> list T -> list T -> Prop :=
  fun T comp l r => r = sort T comp l.

(** A [std::shuffle] of which only the contract is known: it may leave any
    permutation, and the generator in any state. *)
Definition any_shuffle : forall T : Type, list T -> Z -> list T * Z -> Prop :=
  fun T l g r => Permutation l (fst r).

(** Two free cells, both without painted neighbours, and one colour. *)
Definition fork_state : State Z :=
  mkState [vec3 4 2 2] (blank 1 2) (PS.add (0, 0) (PS.add (1, 0) PS.empty)) (lehmer_seed 1).

(** ** Cells and channels *)

(** Every cell of a matrix, row by row. *)
Definition all_cells {T} (img : Mat T) : list Pos :=
  flat_map (fun y => map (fun x => (x, y)) (Zrange 0 (cols img))) (Zrange 0 (rows img)).

(** The largest and the smallest channel of a colour. *)
Definition max_channel (c : Color) : Z := Z.max (Z.max (v2 c) (v1 c)) (v0 c).
Definition min_channel (c : Color) : Z := Z.min (Z.min (v2 c) (v1 c)) (v0 c).

(** The hue [bgr2hsv] computes for a colour that is not grey, before the
    wrap into [0, 360): the sector is chosen by the largest channel. *)
Definition sector_hue (c : Color) : float :=
  let d := (chan (max_channel c) - chan (min_channel c))%float in
  (if (max_channel c =? v2 c)%Z then 60 * (chan (v1 c) - chan (v0 c)) / d
   else if (max_channel c =? v1 c)%Z then 120 + 60 * (chan (v0 c) - chan (v2 c)) / d
   else 240 + 60 * (chan (v2 c) - chan (v1 c)) / d)%float.

(** The state in which the loop starts on canvas [img] with frontier [F]. *)
Definition start_state {Gen : Type} (mt19937 : Z -> Gen)
           (shuffle : forall T : Type, list T -> Gen -> list T * Gen)
           (sort : forall T : Type, (T -> T -> bool) -> list T -> list T)
           (img : Mat Color) (F : PS.t) : State Gen :=
  mkState (fst (ordered_colors mt19937 shuffle sort)) img F
          (snd (ordered_colors mt19937 shuffle sort)).

(** A canvas of one cell, its cell in the frontier, and two colours. *)
Definition boxed_state : State Z :=
  mkState [vec3 4 2 2; vec3 8 6 2] (blank 1 1) (PS.add (0, 0) PS.empty) (lehmer_seed 1).

(** A file system whose every image is one black pixel. *)
Definition black_pixel_file : String.string -> Mat Channel :=
  fun _ => mkMat 1 1 (fun _ _ => 0).

(** ** The snapshot block: [Embellish] and the progress counter

    The array operations of OpenCV that work cell by cell are written out
    from their documented formulas on [CV_8U] data.  The neighbourhood
    filters and the rounding of [saturate_cast] are library code, gathered
    in the interface [OpenCV]. *)

(** [saturate_cast<uchar>] of an integer. *)
Definition saturate_cast_uchar (z : Z) : Channel := Z.max 0 (Z.min 255 z).

Definition per_element {A B : Type} (f : A -> B) (m : Mat A) : Mat B :=
  mkMat (rows m) (cols m) (fun y x => f (at_ m y x)).

Definition per_channel (f : Channel -> Channel -> Channel) (a b : Color) : Color :=
  vec3 (f (v0 a) (v0 b)) (f (v1 a) (v1 b)) (f (v2 a) (v2 b)).

(** A two-operand array operation throws unless its operands have the
    same size. *)
Definition same_size {A B : Type} (a : Mat A) (b : Mat B) : bool :=
  (rows a =? rows b) && (cols a =? cols b).

Definition per_element2 (f : Channel -> Channel -> Channel) (a b : Mat Color)
  : option (Mat Color) :=
  if same_size a b
  then Some (mkMat (rows a) (cols a) (fun y x => per_channel f (at_ a y x) (at_ b y x)))
  else None.

(** [split(image, imageChans)], plane 0. *)
Definition split0 (image : Mat Color) : Mat Channel := per_element v0 image.

(** [threshold(src, dst, thresh, maxval, THRESH_BINARY_INV)]. *)
Definition threshold_binary_inv (src : Mat Channel) (thresh maxval : Z) : Mat Channel :=
  per_element (fun v => if v >? thresh then 0 else maxval) src.

(** [cvtColor(src, dst, CV_GRAY2BGR)]. *)
Definition cvtColor_gray2bgr (src : Mat Channel) : Mat Color :=
  per_element (fun v => vec3 v v v) src.

(** [multiply(src1, src2, dst)] with the default scale 1. *)
Definition multiply (src1 src2 : Mat Color) : option (Mat Color) :=
  per_element2 (fun a b => saturate_cast_uchar (a * b)) src1 src2.

(** [dilate(src, dst, kernel)], [medianBlur(src, dst, ksize)], and the
    integer that [saturate_cast<uchar>] rounds [n / 2] to. *)
Record OpenCV : Type := mkOpenCV {
  dilate : Mat Color -> Mat Channel -> Mat Color;
  medianBlur : Mat Color -> Z -> Mat Color;
  cvRound_half : Z -> Z
}.

(** [addWeighted(src1, 1.0, src2, 0.5, 0.0, dst)]: the weighted sum
    [a + b / 2] is a multiple of one half. *)
Definition addWeighted_1_half (cv : OpenCV) (src1 src2 : Mat Color) : option (Mat Color) :=
  per_element2 (fun a b => saturate_cast_uchar (cvRound_half cv (2 * a + b))) src1 src2.

(** [None] when one of the array operations throws.  Both [convertTo]
    calls keep the depth [CV_8U] the matrix already has. *)
Definition Embellish (cv : OpenCV) (image : Mat Color) : option (Mat Color) :=
  let ucharImg := image in
  let filtered := dilate cv ucharImg (mkMat 3 3 (fun _ _ => 1)) in
  let filtered := medianBlur cv filtered 3 in
  let ts := threshold_binary_inv (split0 image) invalidColor 1 in
  let tu := ts in
  let tuchar := cvtColor_gray2bgr tu in
  match multiply filtered tuchar with
  | None => None
  | Some m => addWeighted_1_half cv ucharImg m
  end.

Definition saveEveryNFrames : Z := 512.

(** What one pass through the snapshot block produces: the numbers written
    to [cout] and the image handed to [imwrite]. *)
Record Snapshot : Type := mkSnapshot {
  imgNum : Z;
  shown_maxSaves : Z;
  colors_size : Z;
  nextPositions_size : Z;
  outImage : option (Mat Color)
}.

Section Reports.

Variable Gen : Type.
Variable shuffle : forall T : Type, list T -> Gen -> list T * Gen.
Variable cv : OpenCV.

(** The snapshots of the loop run from [s] with the counter at [imgNum]: the
    recursion of [loop], with the conditional that ends the body of the
    [while].  [imgNum] is an [unsigned long long]. *)
Fixpoint snapshots (fuel : nat) (maxSaves imgNum : Z) (s : State Gen) : list Snapshot :=
  match fuel with
  | O => []
  | S fuel' =>
      match iteration shuffle s with
      | Continue _ s' =>
          if Z.of_nat (length (colors s')) mod saveEveryNFrames =? 0 then
            let imgNum' := (imgNum + 1) mod 2 ^ 64 in
            mkSnapshot imgNum' maxSaves (Z.of_nat (length (colors s')))
                       (Z.of_nat (PS.cardinal (nextPositions s')))
                       (Embellish cv (image s'))
            :: snapshots fuel' maxSaves imgNum' s'
          else snapshots fuel' maxSaves imgNum s'
      | _ => []
      end
  end.

(** The snapshots of the loop of [main] entered in state [s]. *)
Definition run_snapshots (s : State Gen) : list Snapshot :=
  let maxFrames := Z.of_nat (length (colors s)) in
  let maxSaves := maxFrames ÷ saveEveryNFrames in
  snapshots (S (length (colors s))) maxSaves 0 s.

(** [r] is the snapshot taken in a state that the loop reaches from [s]
    after at least one placement. *)
Definition snapshot_of (s : State Gen) (r : Snapshot) : Prop :=
  exists tr s',
    tr <> [] /\ steps shuffle s tr s' /\
    colors_size r = Z.of_nat (length (colors s')) /\
    nextPositions_size r = Z.of_nat (PS.cardinal (nextPositions s')) /\
    outImage r = Embellish cv (image s').

End Reports.

Arguments snapshots {Gen} shuffle cv _ _ _ _.
Arguments run_snapshots {Gen} shuffle cv _.
Arguments snapshot_of {Gen} shuffle cv _ _.

(** The snapshots of a run of the program; [None] when it returns 1. *)
Definition main_snapshots {Gen : Type} (mt19937 : Z -> Gen)
           (shuffle : forall T : Type, list T -> Gen -> list T * Gen)
           (sort : forall T : Type, (T -> T -> bool) -> list T -> list T)
           (cv : OpenCV) (rd : random_device) (imread : String.string -> Mat Channel)
           (argv1 : option String.string) : option (list Snapshot) :=
  option_map (run_snapshots shuffle cv) (initial_state mt19937 shuffle sort imread argv1).

(** A reference instance of [OpenCV]: the largest value of each channel over
    the cells of the 3x3 block that lie in the image, the median of each
    channel over the block with the border cells repeated, and rounding
    to nearest with ties to even. *)
Definition dilate_box (src : Mat Color) (kernel : Mat Channel) : Mat Color :=
  mkMat (rows src) (cols src)
        (fun y x =>
           fold_left (fun acc q =>
                        if out_of_image src (fst q) (snd q) then acc
                        else per_channel Z.max acc (GetPixelAt src q))
                     (neighbours (x, y)) (vec3 0 0 0)).

Definition median9 (l : list Z) : Z := nth 4 (insertion_sort Z Z.ltb l) 0.

Definition replicate_border (size i : Z) : Z := Z.max 0 (Z.min (size - 1) i).

Definition median_box (src : Mat Color) (ksize : Z) : Mat Color :=
  mkMat (rows src) (cols src)
        (fun y x =>
           let cells := map (fun q => at_ src (replicate_border (rows src) (snd q))
                                          (replicate_border (cols src) (fst q)))
                            (neighbours (x, y)) in
           vec3 (median9 (map v0 cells)) (median9 (map v1 cells)) (median9 (map v2 cells))).

Definition round_half_even (n : Z) : Z :=
  let k := n / 2 in
  if Z.even n then k else if Z.even k then k else k + 1.

Definition opencv_box : OpenCV := mkOpenCV dilate_box median_box round_half_even.

(** * Properties *)

(** ** Ranges and bounds *)

Lemma In_Zrange (lo hi z : Z) : In z (Zrange lo hi) <-> lo <= z < hi.
Proof.
  unfold Zrange. rewrite in_map_iff. split.
  - intros (i & <- & Hi). apply in_seq in Hi. lia.
  - intros H. exists (Z.to_nat (z - lo)). split; [lia|].
    apply in_seq. lia.
Qed.

Lemma NoDup_Zrange (lo hi : Z) : NoDup (Zrange lo hi).
Proof.
  unfold Zrange. apply NoDup_map_NoDup_ForallPairs.
  - intros i j _ _ H. lia.
  - apply seq_NoDup.
Qed.

Lemma length_Zrange (lo hi : Z) : length (Zrange lo hi) = Z.to_nat (hi - lo).
Proof. unfold Zrange. now rewrite length_map, length_seq. Qed.

Lemma NoDup_flat_map {A B : Type} (f : A -> list B) (l : list A) :
  NoDup l ->
  (forall a, In a l -> NoDup (f a)) ->
  (forall a a' b, In a l -> In a' l -> In b (f a) -> In b (f a') -> a = a') ->
  NoDup (flat_map f l).
Proof.
  induction l as [|a l IH]; intros Hl Hf Hd; simpl.
  - constructor.
  - inversion Hl as [|? ? Hna Hl']; subst.
    assert (Hrest : NoDup (flat_map f l)).
    { apply IH; auto.
      - intros x Hx. apply Hf. now right.
      - intros x x' b Hx Hx'. apply Hd; now right. }
    assert (Ha : NoDup (f a)) by (apply Hf; now left).
    revert Ha. generalize (Hd a). intros Hda.
    induction (f a) as [|b fa IHfa]; intros Ha; simpl; auto.
    inversion Ha as [|? ? Hnb Ha']; subst. constructor.
    + rewrite in_app_iff. intros [Hb|Hb]; [contradiction|].
      apply in_flat_map in Hb as (x & Hx & Hbx).
      assert (a = x) by (apply (Hda x b); simpl; auto).
      subst x. contradiction.
    + apply IHfa; auto.
      intros a' b' H1 H2 H3 H4. apply (Hda a' b'); simpl; auto.
Qed.

Lemma out_of_image_false {T} (image : Mat T) (x y : Z) :
  out_of_image image x y = false <-> in_bounds image (x, y).
Proof. unfold out_of_image, in_bounds; simpl. lia. Qed.

(** ** Palette Builder *)

Lemma In_build_colors (c : Color) :
  In c build_colors <->
  exists b g r, 1 <= b < 64 /\ 1 <= g < 128 /\ 1 <= r < 128 /\
                c = vec3 (4 * b) (2 * g) (2 * r).
Proof.
  assert (Hq : forall n, colMult * n ÷ 2 = 2 * n).
  { intros n. unfold colMult. replace (4 * n) with (2 * n * 2) by lia.
    apply Z.quot_mul. lia. }
  unfold build_colors. rewrite in_flat_map. split.
  - intros (b & Hb & Hc). apply in_flat_map in Hc as (g & Hg & Hc).
    apply in_map_iff in Hc as (r & <- & Hr).
    apply In_Zrange in Hb, Hg, Hr. unfold colValues in *.
    exists b, g, r. repeat split; try lia.
    unfold mkColor, to_Channel. rewrite !Hq. unfold colMult.
    rewrite !Z.mod_small by lia. reflexivity.
  - intros (b & g & r & Hb & Hg & Hr & ->).
    exists b. split; [apply In_Zrange; unfold colValues; lia|].
    apply in_flat_map. exists g. split; [apply In_Zrange; unfold colValues; lia|].
    apply in_map_iff. exists r. split; [|apply In_Zrange; unfold colValues; lia].
    unfold mkColor, to_Channel. rewrite !Hq. unfold colMult.
    rewrite !Z.mod_small by lia. reflexivity.
Qed.

Lemma mkColor_inj_on_grid (b g r b' g' r' : Z) :
  1 <= b < colValues -> 1 <= g < 2 * colValues -> 1 <= r < 2 * colValues ->
  1 <= b' < colValues -> 1 <= g' < 2 * colValues -> 1 <= r' < 2 * colValues ->
  mkColor (colMult * b) (colMult * g ÷ 2) (colMult * r ÷ 2) =
  mkColor (colMult * b') (colMult * g' ÷ 2) (colMult * r' ÷ 2) ->
  b = b' /\ g = g' /\ r = r'.
Proof.
  assert (Hq : forall n, colMult * n ÷ 2 = 2 * n).
  { intros n. unfold colMult. replace (4 * n) with (2 * n * 2) by lia.
    apply Z.quot_mul. lia. }
  unfold colValues, mkColor, to_Channel. intros Hb Hg Hr Hb' Hg' Hr'.
  rewrite !Hq. unfold colMult. rewrite !Z.mod_small by lia.
  intros H.
  pose proof (f_equal v0 H) as H0. pose proof (f_equal v1 H) as H1.
  pose proof (f_equal v2 H) as H2. cbn [v0 v1 v2] in H0, H1, H2. lia.
Qed.

Lemma build_colors_NoDup : NoDup build_colors.
Proof.
  unfold build_colors.
  apply NoDup_flat_map; [apply NoDup_Zrange|..].
  - intros b Hb. apply NoDup_flat_map; [apply NoDup_Zrange|..].
    + intros g Hg. apply NoDup_map_NoDup_ForallPairs; [|apply NoDup_Zrange].
      intros r r' Hr Hr' H. apply In_Zrange in Hb, Hg, Hr, Hr'.
      now apply mkColor_inj_on_grid in H.
    + intros g g' c Hg Hg' Hc Hc'.
      apply in_map_iff in Hc as (r & <- & Hr), Hc' as (r' & H & Hr').
      apply In_Zrange in Hb, Hg, Hg', Hr, Hr'.
      now apply mkColor_inj_on_grid in H.
  - intros b b' c Hb Hb' Hc Hc'.
    apply in_flat_map in Hc as (g & Hg & Hc), Hc' as (g' & Hg' & Hc').
    apply in_map_iff in Hc as (r & <- & Hr), Hc' as (r' & H & Hr').
    apply In_Zrange in Hb, Hb', Hg, Hg', Hr, Hr'.
    now apply mkColor_inj_on_grid in H.
Qed.

Lemma build_colors_valid (c : Color) : In c build_colors -> valid_color c.
Proof.
  intros H. apply In_build_colors in H as (b & g & r & Hb & Hg & Hr & ->).
  unfold valid_color, valid_channel; cbn [v0 v1 v2]. lia.
Qed.

Lemma build_colors_blue (c : Color) : In c build_colors -> v0 c <> invalidColor.
Proof.
  intros H. apply In_build_colors in H as (b & g & r & Hb & Hg & Hr & ->).
  unfold invalidColor; cbn [v0 v1 v2]. lia.
Qed.

(** C9: the generated palette has no repeated colour, never contains the
    sentinel, and every generated colour has its three channels non-zero. *)
Theorem palette_distinct_nonzero :
  NoDup build_colors /\
  (forall c, In c build_colors ->
             c <> sentinel /\ v0 c <> 0 /\ v1 c <> 0 /\ v2 c <> 0).
Proof.
  split; [exact build_colors_NoDup|].
  intros c H. apply In_build_colors in H as (b & g & r & Hb & Hg & Hr & ->).
  cbn [v0 v1 v2]. repeat split; try lia.
  unfold sentinel, invalidColor. intros E.
  pose proof (f_equal v0 E) as E0. cbn [v0] in E0. lia.
Qed.

(** ** Canvas and frontier primitives *)

Lemma Zrange_block (a : Z) : Zrange (a - spread) (a + spread + 1) = [a - 1; a; a + 1].
Proof.
  unfold Zrange, spread. replace (a + 1 + 1 - (a - 1)) with 3 by lia.
  change (Z.to_nat 3) with 3%nat. cbn [seq map].
  f_equal; [lia|]. f_equal; [lia|]. f_equal. lia.
Qed.

Lemma neighbours_block (x y : Z) :
  neighbours (x, y) =
  [(x - 1, y - 1); (x - 1, y); (x - 1, y + 1);
   (x, y - 1); (x, y); (x, y + 1);
   (x + 1, y - 1); (x + 1, y); (x + 1, y + 1)].
Proof. unfold neighbours. rewrite !Zrange_block. reflexivity. Qed.

(** Membership in the block is Chebyshev distance at most [spread]. *)
Lemma In_neighbours (p q : Pos) :
  In q (neighbours p) <->
  Z.max (Z.abs (fst q - fst p)) (Z.abs (snd q - snd p)) <= spread.
Proof.
  destruct p as [x y], q as [x' y']. rewrite neighbours_block.
  unfold spread; cbn [In fst snd]. split.
  - intros H. repeat (destruct H as [H|H]; [injection H as <- <-; lia|]). contradiction.
  - intros H.
    assert (Hx : x' = x - 1 \/ x' = x \/ x' = x + 1) by lia.
    assert (Hy : y' = y - 1 \/ y' = y \/ y' = y + 1) by lia.
    destruct Hx as [->|[->| ->]], Hy as [->|[->| ->]]; tauto.
Qed.

Lemma length_neighbours (p : Pos) : length (neighbours p) = 9%nat.
Proof. destruct p. now rewrite neighbours_block. Qed.

Lemma is_free_spec (img : Mat Color) (q : Pos) :
  is_free img q = true <-> in_bounds img q /\ v0 (GetPixelAt img q) = invalidColor.
Proof.
  destruct q as [x y]. unfold is_free, GetPixelAt.
  destruct (out_of_image img x y) eqn:E.
  - split; [discriminate|]. intros [H _]. apply out_of_image_false in H. congruence.
  - apply out_of_image_false in E. rewrite Z.eqb_eq. tauto.
Qed.

Lemma In_fold_add (l : list Pos) (s : PS.t) (q : Pos) :
  PS.In q (fold_left (fun result p => PS.add p result) l s) <-> In q l \/ PS.In q s.
Proof.
  revert s. induction l as [|p l IH]; intros s; simpl.
  - tauto.
  - rewrite IH, PS.add_spec. unfold PosOT.eq. intuition congruence.
Qed.

Lemma GetFreeNeighbours_spec (img : Mat Color) (p q : Pos) :
  PS.In q (GetFreeNeighbours img p) <-> In q (neighbours p) /\ is_free img q = true.
Proof.
  unfold GetFreeNeighbours. rewrite In_fold_add, filter_In.
  assert (~ PS.In q PS.empty) by apply PS.empty_spec. tauto.
Qed.

Lemma GetPixel_SetPixel (img : Mat Color) (x y x' y' : Z) (c : Color) :
  GetPixel (SetPixel img x y c) x' y' =
  if (y' =? y) && (x' =? x) then c else GetPixel img x' y'.
Proof. reflexivity. Qed.

(** ** Scorer *)

Lemma Color_eqb_eq (c c' : Color) : Color_eqb c c' = true <-> c = c'.
Proof.
  destruct c, c'. unfold Color_eqb; cbn [v0 v1 v2].
  rewrite !andb_true_iff, !Z.eqb_eq. split; [intros [[-> ->] ->]; reflexivity|].
  intros H. injection H. auto.
Qed.

Lemma score_cell_counted (img : Mat Color) (c : Color) (diff : float) (n : Z) (q : Pos) :
  score_cell img c (diff, n) q =
  if counted img q then ((diff + ColorDiff c (GetPixelAt img q))%float, n + 1)
  else (diff, n).
Proof.
  destruct q as [x y]. unfold score_cell, counted, GetPixelAt; cbn [fst snd].
  destruct (out_of_image img x y); [reflexivity|].
  destruct (v0 (GetPixel img x y) =? invalidColor); reflexivity.
Qed.

Lemma fold_score_cell (img : Mat Color) (c : Color) (cells : list Pos) (diff : float) (n : Z) :
  fold_left (score_cell img c) cells (diff, n) =
  (fold_left PrimFloat.add
             (map (fun q => ColorDiff c (GetPixelAt img q)) (filter (counted img) cells))
             diff,
   n + Z.of_nat (length (filter (counted img) cells))).
Proof.
  revert diff n. induction cells as [|q cells IH]; intros diff n.
  - cbn. f_equal. lia.
  - cbn [fold_left filter]. rewrite score_cell_counted.
    destruct (counted img q); rewrite IH; cbn [map fold_left length]; f_equal; lia.
Qed.

Lemma ColorPosDiff_fold (img : Mat Color) (p : Pos) (c : Color) :
  ColorPosDiff img p c =
  let '(diff, colorCount) := fold_left (score_cell img c) (neighbours p) (0%float, 0) in
  let divisor := of_int (Z.max colorCount 1) in
  (diff / (divisor * divisor))%float.
Proof.
  destruct p as [x y]. unfold ColorPosDiff. rewrite neighbours_block, !Zrange_block.
  reflexivity.
Qed.

Lemma counted_placed (img : Mat Color) (p : Pos) :
  canvas_ok img -> filter (counted img) (neighbours p) = placed_neighbours img p.
Proof.
  intros Hok. unfold placed_neighbours. apply filter_ext. intros [x y].
  unfold counted; cbn [fst snd]. f_equal. f_equal. unfold GetPixelAt.
  destruct (v0 (GetPixel img x y) =? invalidColor) eqn:E.
  - apply Z.eqb_eq, Hok in E. rewrite E. symmetry. now apply Color_eqb_eq.
  - destruct (Color_eqb (GetPixel img x y) sentinel) eqn:E'; [|reflexivity].
    apply Color_eqb_eq in E'. rewrite E' in E. discriminate.
Qed.

Lemma length_placed_neighbours (img : Mat Color) (p : Pos) :
  (length (placed_neighbours img p) <= 9)%nat.
Proof.
  unfold placed_neighbours. rewrite <- (length_neighbours p). apply filter_length_le.
Qed.

Lemma square_divisor_nonzero (n : Z) :
  0 <= n <= 9 ->
  let divisor := of_int (Z.max n 1) in ((divisor * divisor =? 0)%float = false).
Proof.
  intros H. cbv zeta.
  assert (Hall : forallb (fun k => negb (of_int (Z.max k 1) * of_int (Z.max k 1) =? 0)%float)
                         (Zrange 0 10) = true) by (vm_compute; reflexivity).
  rewrite forallb_forall in Hall. apply negb_true_iff, Hall, In_Zrange. lia.
Qed.

(** *** Integers in binary64: where the arithmetic of the scorer is exact *)

Lemma iter_pos_nat {A} (f : A -> A) (p : positive) (x : A) :
  iter_pos f p x = Nat.iter (Pos.to_nat p) f x.
Proof.
  revert x. induction p as [p IH|p IH|]; intros x; cbn [iter_pos].
  - rewrite !IH, Pos2Nat.inj_xI, <- Nat.iter_succ_r, <- Nat.iter_add. f_equal. lia.
  - rewrite !IH, Pos2Nat.inj_xO, <- Nat.iter_add. f_equal. lia.
  - reflexivity.
Qed.

Lemma Pos_iter_shifted (z d : positive) : Pos.iter xO z d = shifted (Pos.to_nat d) z.
Proof. unfold shifted. now rewrite Pos2Nat.inj_iter. Qed.

Lemma digits2_shifted (n : nat) (z : positive) :
  Zpos (digits2_pos (shifted n z)) = Zpos (digits2_pos z) + Z.of_nat n.
Proof.
  induction n as [|n IH]; [unfold shifted, Nat.iter; cbn [nat_rect Z.of_nat]; lia|].
  unfold shifted, Nat.iter in *. rewrite Nat2Z.inj_succ. cbn [nat_rect digits2_pos].
  rewrite Pos2Z.inj_succ. lia.
Qed.

Lemma shifted_add (n : nat) (a b : positive) :
  (shifted n a + shifted n b = shifted n (a + b))%positive.
Proof.
  induction n as [|n IH]; [reflexivity|].
  unfold shifted, Nat.iter in *. cbn [nat_rect Pos.add]. now rewrite IH.
Qed.

Lemma shifted_shifted (m n : nat) (z : positive) :
  shifted m (shifted n z) = shifted (m + n) z.
Proof. unfold shifted. now rewrite Nat.iter_add. Qed.

Lemma shr_shifted (m j : nat) (z : positive) :
  Nat.iter m shr_1 (Build_shr_record (Zpos (shifted (m + j) z)) false false) =
  Build_shr_record (Zpos (shifted j z)) false false.
Proof.
  induction m as [|m IH]; [reflexivity|].
  rewrite Nat.iter_succ_r. unfold shifted at 1, Nat.iter at 2. cbn [Nat.add nat_rect shr_1 orb].
  exact IH.
Qed.

Lemma digits2_bounds (z : positive) :
  2 ^ (Zpos (digits2_pos z) - 1) <= Zpos z < 2 ^ Zpos (digits2_pos z).
Proof.
  assert (Hstep : forall D, 0 < D -> 2 ^ (Z.succ D - 1) = 2 * 2 ^ (D - 1) /\
                                     2 ^ Z.succ D = 2 * 2 ^ D).
  { intros D HD. split; [|apply Z.pow_succ_r; lia].
    replace (Z.succ D - 1) with (Z.succ (D - 1)) by lia. apply Z.pow_succ_r. lia. }
  induction z as [z IH|z IH|]; cbn [digits2_pos];
    [| |vm_compute; split; [discriminate|reflexivity]].
  - rewrite Pos2Z.inj_succ.
    destruct (Hstep (Zpos (digits2_pos z)) (Pos2Z.is_pos _)) as [-> ->].
    change (Z.pos z~1) with (2 * Z.pos z + 1). lia.
  - rewrite Pos2Z.inj_succ.
    destruct (Hstep (Zpos (digits2_pos z)) (Pos2Z.is_pos _)) as [-> ->].
    change (Z.pos z~0) with (2 * Z.pos z). lia.
Qed.

Lemma digits2_le (z : positive) (n : Z) :
  0 <= n -> Zpos z < 2 ^ n -> Zpos (digits2_pos z) <= n.
Proof.
  intros Hn Hz. destruct (Z.le_gt_cases (Zpos (digits2_pos z)) n) as [H|H]; [exact H|].
  pose proof (proj1 (digits2_bounds z)) as Hlo.
  assert (2 ^ n <= 2 ^ (Zpos (digits2_pos z) - 1)) by (apply Z.pow_le_mono_r; lia).
  lia.
Qed.

Lemma digits2_mono (a b : positive) :
  (a <= b)%positive -> Zpos (digits2_pos a) <= Zpos (digits2_pos b).
Proof.
  intros H. apply digits2_le; [lia|].
  pose proof (proj2 (digits2_bounds b)). lia.
Qed.

(** Rounding a 53-bit integer followed by zeros is exact. *)
Lemma binary_round_aux_shifted (z : positive) (k : nat) :
  Zpos (digits2_pos z) <= 53 -> 53 <= Zpos (digits2_pos z) + Z.of_nat k -> Z.of_nat k <= 1000 ->
  binary_round_aux prec emax false (Zpos (shifted k z)) (- Z.of_nat k) loc_Exact = canonical z.
Proof.
  intros HD Hk Hk'. set (D := Zpos (digits2_pos z)) in *.
  set (j := Z.to_nat (53 - D)).
  assert (Hj : Z.of_nat j = 53 - D) by (unfold j; lia).
  unfold binary_round_aux, shr_fexp, canonical. fold D. fold j.
  cbn [Zdigits2 shr_record_of_loc]. rewrite digits2_shifted. fold D.
  assert (Hf : fexp prec emax (D + Z.of_nat k + - Z.of_nat k) - - Z.of_nat k
               = D + Z.of_nat k - 53).
  { unfold fexp, emin, prec, emax. lia. }
  rewrite Hf.
  assert (Hshr : shr (Build_shr_record (Zpos (shifted k z)) false false) (- Z.of_nat k)
                     (D + Z.of_nat k - 53)
                 = (Build_shr_record (Zpos (shifted j z)) false false, D - 53)).
  { destruct (D + Z.of_nat k - 53) as [|p|p] eqn:E; [| |lia]; cbn [shr].
    - f_equal; [|lia]. do 2 f_equal. f_equal. lia.
    - rewrite iter_pos_nat.
      replace k with (Pos.to_nat p + j)%nat by lia.
      rewrite shr_shifted. f_equal. lia. }
  rewrite Hshr. cbn [shr_m loc_of_shr_record round_nearest_even Zdigits2].
  rewrite digits2_shifted. fold D.
  assert (Hf2 : fexp prec emax (D + Z.of_nat j + (D - 53)) - (D - 53) = 0).
  { unfold fexp, emin, prec, emax. lia. }
  rewrite Hf2. cbn [shr shr_record_of_loc shr_m].
  assert (Hle : (D - 53 <=? emax - prec) = true) by (apply Z.leb_le; unfold emax, prec; lia).
  now rewrite Hle.
Qed.

Lemma binary_normalize_canonical (z : positive) :
  Zpos (digits2_pos z) <= 53 -> binary_normalize prec emax (Zpos z) 0 false = canonical z.
Proof.
  intros HD. set (D := Zpos (digits2_pos z)) in *.
  unfold binary_normalize, binary_round, shl_align. fold D.
  assert (Hf : fexp prec emax (D + 0) - 0 = D - 53).
  { unfold fexp, emin, prec, emax. lia. }
  rewrite Hf.
  destruct (D - 53) as [|p|p] eqn:E; [|lia|].
  - change (Zpos z) with (Zpos (shifted 0 z)).
    change 0 with (- Z.of_nat 0). apply binary_round_aux_shifted; fold D; lia.
  - rewrite Pos_iter_shifted.
    replace (fexp prec emax (D + 0)) with (- Z.of_nat (Pos.to_nat p))
      by (unfold fexp, emin, prec, emax; lia).
    apply binary_round_aux_shifted; fold D; lia.
Qed.

Lemma SFadd_canonical (a b : positive) :
  Zpos (digits2_pos (a + b)) <= 53 ->
  SFadd prec emax (canonical a) (canonical b) = canonical (a + b).
Proof.
  intros HD.
  pose proof (digits2_mono a (a + b) ltac:(lia)) as Ha.
  pose proof (digits2_mono b (a + b) ltac:(lia)) as Hb.
  pose proof (Pos2Z.is_pos (digits2_pos a)) as Ha0.
  pose proof (Pos2Z.is_pos (digits2_pos b)) as Hb0.
  set (Da := Zpos (digits2_pos a)) in *. set (Db := Zpos (digits2_pos b)) in *.
  unfold canonical at 1 2. fold Da Db. cbn [SFadd cond_Zopp].
  set (ez := Z.min (Da - 53) (Db - 53)).
  set (k := Z.to_nat (- ez)).
  assert (Hk : Z.of_nat k = - ez) by (unfold k, ez; lia).
  assert (Hma : fst (shl_align (shifted (Z.to_nat (53 - Da)) a) (Da - 53) ez) = shifted k a).
  { unfold shl_align. destruct (ez - (Da - 53)) as [|p|p] eqn:E; cbn [fst]; [|unfold ez in E; lia|].
    - f_equal. lia.
    - rewrite Pos_iter_shifted, shifted_shifted. f_equal. lia. }
  assert (Hmb : fst (shl_align (shifted (Z.to_nat (53 - Db)) b) (Db - 53) ez) = shifted k b).
  { unfold shl_align. destruct (ez - (Db - 53)) as [|p|p] eqn:E; cbn [fst]; [|unfold ez in E; lia|].
    - f_equal. lia.
    - rewrite Pos_iter_shifted, shifted_shifted. f_equal. lia. }
  rewrite Hma, Hmb. cbn [Z.add]. rewrite shifted_add.
  unfold binary_normalize, binary_round, shl_align.
  rewrite digits2_shifted.
  set (D := Zpos (digits2_pos (a + b))) in *.
  assert (Hf : fexp prec emax (D + Z.of_nat k + ez) - ez = D + Z.of_nat k - 53).
  { unfold fexp, emin, prec, emax. lia. }
  rewrite Hf.
  destruct (D + Z.of_nat k - 53) as [|p|p] eqn:E; [| |unfold ez in *; lia].
  - replace ez with (- Z.of_nat k) by lia. apply binary_round_aux_shifted; fold D; lia.
  - replace ez with (- Z.of_nat k) by lia. apply binary_round_aux_shifted; fold D; lia.
Qed.

Lemma of_int_nonneg_spec (z : Z) :
  0 <= z < 2 ^ 53 -> Prim2SF (of_int z) = binary_normalize prec emax z 0 false.
Proof.
  intros Hz. unfold of_int. destruct (Z.ltb_spec z 0) as [H|_]; [lia|].
  rewrite of_uint63_spec, Uint63.of_Z_spec, Z.mod_small; [reflexivity|].
  change Uint63.wB with (2 ^ 63).
  assert (2 ^ 53 < 2 ^ 63) by reflexivity. lia.
Qed.

Lemma of_int_canonical (z : positive) :
  Zpos z < 2 ^ 53 -> Prim2SF (of_int (Zpos z)) = canonical z.
Proof.
  intros Hz. rewrite of_int_nonneg_spec by lia.
  apply binary_normalize_canonical, digits2_le; [lia|exact Hz].
Qed.

(** Adding two non-negative integers is exact in binary64 as long as the
    sum has at most 53 bits. *)
Lemma of_int_add_exact (x y : Z) :
  0 <= x -> 0 <= y -> x + y < 2 ^ 53 -> (of_int x + of_int y)%float = of_int (x + y).
Proof.
  intros Hx Hy Hxy. apply Prim2SF_inj. rewrite add_spec.
  destruct x as [|a|a]; [|destruct y as [|b|b]|]; try lia.
  - rewrite Z.add_0_l. change (Prim2SF (of_int 0)) with (S754_zero false).
    destruct y as [|b|b]; [reflexivity| |lia].
    rewrite of_int_canonical by lia. reflexivity.
  - rewrite Z.add_0_r. change (Prim2SF (of_int 0)) with (S754_zero false).
    rewrite of_int_canonical by lia. reflexivity.
  - change (Zpos a + Zpos b) with (Zpos (a + b)) in *.
    rewrite !of_int_canonical by lia.
    apply SFadd_canonical, digits2_le; [lia|exact Hxy].
Qed.

Lemma of_int_square_exact (d : Z) :
  -255 <= d <= 255 -> (of_int d * of_int d)%float = of_int (d * d).
Proof.
  intros Hd.
  assert (H : forallb (fun d => PrimFloat.Leibniz.eqb (of_int d * of_int d) (of_int (d * d)))
                      (Zrange (-255) 256) = true) by (vm_compute; reflexivity).
  rewrite forallb_forall in H. apply FloatAxioms.Leibniz.eqb_spec, H, In_Zrange. lia.
Qed.

Lemma ColorDiff_euclidean (a b : Color) :
  valid_color a -> valid_color b -> ColorDiff a b = euclidean_distance a b.
Proof.
  intros (Ha0 & Ha1 & Ha2) (Hb0 & Hb1 & Hb2). unfold valid_channel in *.
  unfold ColorDiff, euclidean_distance, squared_distance.
  rewrite !of_int_square_exact by lia.
  assert (Hsq : forall d, -255 <= d <= 255 -> 0 <= d * d <= 65025) by (intros d Hd; nia).
  pose proof (Hsq (v0 b - v0 a) ltac:(lia)). pose proof (Hsq (v1 b - v1 a) ltac:(lia)).
  pose proof (Hsq (v2 b - v2 a) ltac:(lia)).
  assert (H53 : 2 ^ 18 < 2 ^ 53) by reflexivity.
  rewrite !of_int_add_exact by lia. reflexivity.
Qed.

(** C2: the cost of a colour at a position is the sum, in scan order, of the
    Euclidean distances (the square root of the sum of the squared channel
    differences, rounded once) to the in-bounds non-sentinel cells within
    Chebyshev distance [spread], divided by the square of [max(n, 1)]; the
    divisor is never zero, and with no such cell the cost is the sum, 0. *)
Theorem scorer_cost (img : Mat Color) (p : Pos) (c : Color) :
  canvas_ok img -> canvas_bytes img -> valid_color c ->
  let cells := placed_neighbours img p in
  let n := Z.of_nat (length cells) in
  let total := fsum (map (fun q => euclidean_distance c (GetPixelAt img q)) cells) in
  let divisor := of_int (Z.max n 1) in
  (forall q, In q cells <->
             Z.max (Z.abs (fst q - fst p)) (Z.abs (snd q - snd p)) <= spread /\
             in_bounds img q /\ GetPixelAt img q <> sentinel) /\
  ColorPosDiff img p c = (total / (divisor * divisor))%float /\
  (divisor * divisor)%float = of_int (Z.max n 1 * Z.max n 1) /\
  (divisor * divisor =? 0)%float = false /\
  (n = 0 -> divisor = 1%float /\ total = 0%float /\ ColorPosDiff img p c = 0%float).
Proof.
  intros Hok Hbytes Hc cells n total divisor.
  assert (Hmap : map (fun q => ColorDiff c (GetPixelAt img q)) cells =
                 map (fun q => euclidean_distance c (GetPixelAt img q)) cells).
  { apply map_ext. intros [x y]. apply ColorDiff_euclidean; [exact Hc|apply Hbytes]. }
  assert (Hcost : ColorPosDiff img p c = (total / (divisor * divisor))%float).
  { rewrite ColorPosDiff_fold, fold_score_cell, counted_placed by assumption.
    unfold total. rewrite <- Hmap. reflexivity. }
  assert (Hlen : 0 <= n <= 9).
  { pose proof (length_placed_neighbours img p). unfold n, cells. lia. }
  split; [|split; [exact Hcost|split; [|split]]].
  - intros q. unfold cells, placed_neighbours.
    rewrite filter_In, In_neighbours, andb_true_iff, !negb_true_iff.
    destruct q as [x y]; cbn [fst snd]. rewrite out_of_image_false.
    set (q := (x, y)).
    assert (Color_eqb (GetPixelAt img q) sentinel = false <-> GetPixelAt img q <> sentinel).
    { rewrite <- Color_eqb_eq. destruct (Color_eqb _ _); split; congruence. }
    tauto.
  - apply of_int_square_exact. lia.
  - now apply square_divisor_nonzero.
  - intros Hn. rewrite Hcost. unfold divisor. rewrite Hn.
    assert (Hnil : cells = []) by (apply length_zero_iff_nil; lia).
    unfold total. rewrite Hnil. repeat split; reflexivity.
Qed.

(** ** Seeds *)

Lemma In_elements (s : PS.t) (q : Pos) : In q (PS.elements s) <-> PS.In q s.
Proof.
  rewrite <- PS.elements_spec1, InA_alt. unfold PosOT.eq. split.
  - intros H. exists q. auto.
  - intros (q' & -> & H). exact H.
Qed.

Lemma In_fold_row (img : Mat Channel) (y : Z) (xs : list Z) (s : PS.t) (q : Pos) :
  PS.In q (fold_left (fun result x => if at_ img y x >? 0 then PS.add (x, y) result
                                      else result) xs s) <->
  (In (fst q) xs /\ snd q = y /\ at_ img y (fst q) > 0) \/ PS.In q s.
Proof.
  revert s. induction xs as [|x xs IH]; intros s; cbn [fold_left In].
  - tauto.
  - rewrite IH. destruct (at_ img y x >? 0) eqn:E.
    + rewrite PS.add_spec. unfold PosOT.eq. destruct q as [qx qy]; cbn [fst snd].
      split.
      * intros [H|[H|H]]; [tauto| |tauto]. injection H as -> ->. left. lia.
      * intros [([<-|H] & <- & H')|H]; tauto.
    + destruct q as [qx qy]; cbn [fst snd]. split; [tauto|].
      intros [([<-|H] & <- & H')|H]; try tauto. lia.
Qed.

Lemma NonBlackPositions_spec (img : Mat Channel) (q : Pos) :
  PS.In q (NonBlackPositions img) <->
  in_bounds img q /\ at_ img (snd q) (fst q) > 0.
Proof.
  unfold NonBlackPositions, in_bounds.
  assert (H : forall ys s,
             PS.In q (fold_left
                        (fun result y =>
                           fold_left (fun result x =>
                                        if at_ img y x >? 0 then PS.add (x, y) result
                                        else result)
                                     (Zrange 0 (cols img)) result) ys s) <->
             (In (snd q) ys /\ 0 <= fst q < cols img /\ at_ img (snd q) (fst q) > 0) \/
             PS.In q s).
  { induction ys as [|y ys IH]; intros s; cbn [fold_left In].
    - tauto.
    - rewrite IH, In_fold_row, In_Zrange. split.
      + intros [H|[(H1 & H2 & H3)|H]]; try tauto. subst y. tauto.
      + intros [([<-|H] & H')|H]; tauto. }
  rewrite H, In_Zrange. assert (~ PS.In q PS.empty) by apply PS.empty_spec. tauto.
Qed.

Lemma In_fold_add_map (f : Z -> Pos) (l : list Z) (s : PS.t) (q : Pos) :
  PS.In q (fold_left (fun s n => PS.add (f n) s) l s) <->
  (exists n, In n l /\ q = f n) \/ PS.In q s.
Proof.
  revert s. induction l as [|n l IH]; intros s; cbn [fold_left In].
  - split; [tauto|]. intros [(n & [] & _)|H]. exact H.
  - rewrite IH, PS.add_spec. unfold PosOT.eq. split.
    + intros [(m & Hm & ->)|[->|H]]; eauto.
    + intros [(m & [<-|Hm] & ->)|H]; eauto.
Qed.

Lemma add_plus_spec (s : PS.t) (p q : Pos) :
  PS.In q (add_plus s p) <-> on_plus p q \/ PS.In q s.
Proof.
  destruct p as [x y], q as [qx qy]. unfold add_plus, on_plus; cbn [fst snd].
  rewrite (In_fold_add_map (fun ny => (x, ny))), (In_fold_add_map (fun nx => (nx, y))).
  split.
  - intros [(n & Hn & E)|[(n & Hn & E)|H]]; apply In_Zrange in Hn || idtac;
      try (injection E as -> ->; left; lia). now right.
  - intros [[(-> & H)|(-> & H)]|H].
    + right. left. exists qx. split; [apply In_Zrange; lia|reflexivity].
    + left. exists qy. split; [apply In_Zrange; lia|reflexivity].
    + tauto.
Qed.

Lemma In_fold_add_plus (l : list Pos) (s : PS.t) (q : Pos) :
  PS.In q (fold_left add_plus l s) <-> (exists p, In p l /\ on_plus p q) \/ PS.In q s.
Proof.
  revert s. induction l as [|p l IH]; intros s; cbn [fold_left In].
  - split; [tauto|]. intros [(p & [] & _)|H]. exact H.
  - rewrite IH, add_plus_spec. split.
    + intros [(p' & Hp' & H)|[H|H]]; eauto.
    + intros [(p' & [<-|Hp'] & H)|H]; eauto.
Qed.

Lemma plus_frontier_spec (num : Z) (q : Pos) :
  PS.In q (plus_frontier num) <->
  exists p, PS.In p (initPositions (blank 1080 1920) num) /\ on_plus p q.
Proof.
  unfold plus_frontier. rewrite In_fold_add_plus.
  assert (~ PS.In q PS.empty) by apply PS.empty_spec.
  split.
  - intros [(p & Hp & H')|H']; [|contradiction]. exists p. now rewrite <- In_elements.
  - intros (p & Hp & H'). left. exists p. now rewrite In_elements.
Qed.

Lemma initPositions_values :
  PS.elements (initPositions (blank 1080 1920) 2) = [(633, 540); (1286, 540)] /\
  PS.elements (initPositions (blank 1080 1920) 3) =
    [(633, 432); (960, 745); (1286, 432)] /\
  PS.elements (initPositions (blank 1080 1920) 4) =
    [(633, 388); (691, 691); (1228, 691); (1286, 388)].
Proof. repeat split; vm_compute; reflexivity. Qed.

Lemma plus_frontier_in_bounds (num : Z) (q : Pos) :
  PS.In q (plus_frontier num) -> in_bounds (blank 1080 1920) q.
Proof.
  rewrite plus_frontier_spec. intros (p & Hp & Hq).
  apply In_elements in Hp. destruct initPositions_values as (E2 & E3 & E4).
  assert (Hp' : In p [(633, 540); (1286, 540); (633, 432); (960, 745); (1286, 432);
                      (633, 388); (691, 691); (1228, 691); (1286, 388)]).
  { assert (Hcase : num = 2 \/ num = 3 \/ num = 4 \/
                    initPositions (blank 1080 1920) num = PS.empty).
    { unfold initPositions. destruct (Z.eqb_spec num 2); [auto|].
      destruct (Z.eqb_spec num 3); [auto|]. destruct (Z.eqb_spec num 4); auto. }
    destruct Hcase as [->|[->|[->|E]]].
    - rewrite E2 in Hp. cbn [In] in *. tauto.
    - rewrite E3 in Hp. cbn [In] in *. tauto.
    - rewrite E4 in Hp. cbn [In] in *. tauto.
    - rewrite E in Hp. apply In_elements in Hp. now apply PS.empty_spec in Hp. }
  unfold on_plus, plusLength in Hq. unfold in_bounds; cbn [rows cols blank].
  cbn [In] in Hp'.
  repeat (destruct Hp' as [<-|Hp']; [cbn [fst snd] in Hq; lia|]). contradiction.
Qed.

Lemma Init_cases (imread : String.string -> Mat Channel) (arg : String.string) :
  Init imread (Some arg) =
  if arg_num arg =? 0
  then (blank (rows (imread arg)) (cols (imread arg)), NonBlackPositions (imread arg))
  else (blank 1080 1920, plus_frontier (arg_num arg)).
Proof.
  unfold arg_num.
  destruct (String.eqb_spec arg "4"%string) as [->|N4]; [reflexivity|].
  destruct (String.eqb_spec arg "3"%string) as [->|N3]; [reflexivity|].
  destruct (String.eqb_spec arg "2"%string) as [->|N2]; [reflexivity|].
  unfold Init. apply String.eqb_neq in N4, N3, N2. rewrite N4, N3, N2. reflexivity.
Qed.

(** C4, as stated, fails: in mode 2 the position five columns to the right
    of the first seed is in the frontier, yet it is no neighbour of a seed. *)
Lemma init_frontier_is_not_neighbor_expansion :
  ~ (forall q,
        PS.In q (snd (Init no_file (Some "2"%string))) <->
        neighbor_expansion (fst (Init no_file (Some "2"%string)))
                           (initPositions (blank 1080 1920) 2) q).
Proof.
  intros H. specialize (H (638, 540)). destruct H as [H _].
  change (Init no_file (Some "2"%string)) with (blank 1080 1920, plus_frontier 2) in H.
  cbn [fst snd] in H.
  assert (Hin : PS.In (638, 540) (plus_frontier 2)).
  { apply PS.mem_spec. vm_compute. reflexivity. }
  destruct (H Hin) as (s & Hs & Hq).
  apply GetFreeNeighbours_spec in Hq as [Hq _]. apply In_neighbours in Hq.
  apply In_elements in Hs. destruct initPositions_values as (E2 & _).
  rewrite E2 in Hs. unfold spread in Hq.
  destruct Hs as [<-|[<-|[]]]; cbn [fst snd] in Hq; lia.
Qed.

(** C4, amended: before the first iteration every cell of the canvas is the
    sentinel and every frontier position is in bounds; in the numbered
    modes the frontier is the union of the plus shapes of half-length 5
    through the seeds, and in image mode it is the set of non-black pixels
    of the source image. *)
Theorem init_canvas_and_frontier (imread : String.string -> Mat Channel)
        (argv1 : option String.string) :
  let img := fst (Init imread argv1) in
  let F := snd (Init imread argv1) in
  (forall x y, GetPixel img x y = sentinel) /\
  (forall q, PS.In q F -> in_bounds img q) /\
  match argv1 with
  | None => rows img = 0 /\ PS.Empty F
  | Some arg =>
      if arg_num arg =? 0 then
        rows img = rows (imread arg) /\ cols img = cols (imread arg) /\
        forall q, PS.In q F <->
                  in_bounds (imread arg) q /\ at_ (imread arg) (snd q) (fst q) > 0
      else
        rows img = 1080 /\ cols img = 1920 /\
        forall q, PS.In q F <->
                  exists p, PS.In p (initPositions img (arg_num arg)) /\ on_plus p q
  end.
Proof.
  destruct argv1 as [arg|].
  - rewrite Init_cases. destruct (arg_num arg =? 0) eqn:E; cbn [fst snd].
    + split; [reflexivity|]. split.
      * intros q Hq. apply NonBlackPositions_spec in Hq. exact (proj1 Hq).
      * split; [reflexivity|]. split; [reflexivity|]. apply NonBlackPositions_spec.
    + split; [reflexivity|]. split; [apply plus_frontier_in_bounds|].
      split; [reflexivity|]. split; [reflexivity|]. apply plus_frontier_spec.
  - cbn. split; [reflexivity|]. split.
    + intros q Hq. now apply PS.empty_spec in Hq.
    + split; [reflexivity|]. apply PS.empty_spec.
Qed.

(** ** Floating point: order and absence of NaN *)

(** *** Comparison of specification floats *)

Lemma SFltb_irrefl x : SFltb x x = false.
Proof.
  unfold SFltb, SFcompare. destruct x as [[]|[]| |[] m e]; try reflexivity; sf_cmp.
Qed.

Lemma SFltb_trans x y z : SFltb x y = true -> SFltb y z = true -> SFltb x z = true.
Proof.
  unfold SFltb, SFcompare.
  destruct x as [[]|[]| |[] m1 e1], y as [[]|[]| |[] m2 e2], z as [[]|[]| |[] m3 e3];
    try reflexivity; try discriminate; intros H1 H2; sf_cmp.
Qed.

Lemma SFltb_neg_trans x y z :
  y <> S754_nan ->
  SFltb x y = false -> SFltb y z = false -> SFltb x z = false.
Proof.
  unfold SFltb, SFcompare.
  destruct x as [[]|[]| |[] m1 e1], y as [[]|[]| |[] m2 e2], z as [[]|[]| |[] m3 e3];
    try reflexivity; try discriminate; try congruence; intros _ H1 H2; sf_cmp.
Qed.

Lemma SFltb_false_leb x y :
  x <> S754_nan -> y <> S754_nan -> SFltb x y = false -> SFleb y x = true.
Proof.
  unfold SFltb, SFleb, SFcompare.
  destruct x as [[]|[]| |[] m1 e1], y as [[]|[]| |[] m2 e2];
    try reflexivity; try discriminate; try congruence; intros _ _ H1; sf_cmp.
Qed.

(** *** Rounding never produces NaN from a non-negative mantissa *)

Lemma shr_1_nonneg mrs : 0 <= shr_m mrs -> 0 <= shr_m (shr_1 mrs).
Proof.
  destruct mrs as [m r s]. cbn [shr_m]. intros H.
  destruct m as [|[p|p|]|p]; cbn; lia.
Qed.

Lemma iter_shr_1_nonneg p mrs : 0 <= shr_m mrs -> 0 <= shr_m (iter_pos shr_1 p mrs).
Proof.
  revert mrs. induction p as [p IH|p IH|]; intros mrs H; cbn [iter_pos].
  - apply IH, IH, shr_1_nonneg, H.
  - apply IH, IH, H.
  - apply shr_1_nonneg, H.
Qed.

Lemma shr_fexp_nonneg m e l : 0 <= m -> 0 <= shr_m (fst (shr_fexp prec emax m e l)).
Proof.
  intros H. unfold shr_fexp, shr.
  assert (H0 : 0 <= shr_m (shr_record_of_loc m l)) by (destruct l as [|[]]; exact H).
  destruct (fexp prec emax (Zdigits2 m + e) - e); cbn [fst]; auto.
  now apply iter_shr_1_nonneg.
Qed.

Lemma round_nearest_even_nonneg m l : 0 <= m -> 0 <= round_nearest_even m l.
Proof.
  intros H. unfold round_nearest_even. destruct l as [|[]]; try lia.
  destruct (Z.even m); lia.
Qed.

Lemma binary_round_aux_signed s m e l :
  0 <= m -> signed s (binary_round_aux prec emax s m e l).
Proof.
  intros H. unfold binary_round_aux.
  pose proof (shr_fexp_nonneg m e l H) as H1.
  destruct (shr_fexp prec emax m e l) as [mrs' e']. cbn [fst] in H1.
  pose proof (shr_fexp_nonneg _ e' loc_Exact
                (round_nearest_even_nonneg _ (loc_of_shr_record mrs') H1)) as H2.
  destruct (shr_fexp prec emax (round_nearest_even (shr_m mrs') (loc_of_shr_record mrs'))
                     e' loc_Exact) as [mrs'' e'']. cbn [fst] in H2.
  destruct (shr_m mrs'') as [|p|p]; [reflexivity| |lia].
  destruct (e'' <=? emax - prec); reflexivity.
Qed.

Lemma binary_round_signed s m e : signed s (binary_round prec emax s m e).
Proof.
  unfold binary_round. destruct (shl_align m e _) as [mz ez].
  apply binary_round_aux_signed. lia.
Qed.

Lemma binary_normalize_nonnan m e sz : binary_normalize prec emax m e sz <> S754_nan.
Proof.
  unfold binary_normalize. destruct m as [|p|p]; [discriminate|..].
  - pose proof (binary_round_signed false p e) as H.
    destruct (binary_round prec emax false p e); congruence || contradiction.
  - pose proof (binary_round_signed true p e) as H.
    destruct (binary_round prec emax true p e); congruence || contradiction.
Qed.

Lemma signed_nonnan s x : signed s x -> x <> S754_nan.
Proof. destruct x; simpl; congruence || tauto. Qed.

Lemma signed_nonneg x : signed false x -> nonneg x.
Proof. destruct x; simpl; auto. Qed.

Lemma nonneg_nonnan x : nonneg x -> x <> S754_nan.
Proof. destruct x; simpl; congruence || tauto. Qed.

Lemma SFmul_square_nonneg x : x <> S754_nan -> nonneg (SF64mul x x).
Proof.
  intros H. destruct x as [s|s| |s m e]; [| |congruence|]; cbn.
  - exact I.
  - now destruct s.
  - apply signed_nonneg. replace (xorb s s) with false by now destruct s.
    apply binary_round_aux_signed. lia.
Qed.

Lemma SFadd_nonneg x y : nonneg x -> nonneg y -> nonneg (SF64add x y).
Proof.
  destruct x as [sx|sx| |sx mx ex], y as [sy|sy| |sy my ey]; cbn;
    try tauto; intros Hx Hy; subst; cbn; auto.
  - now destruct sx, sy.
  - apply signed_nonneg, binary_round_signed.
Qed.

Lemma SFsqrt_nonneg x : nonneg x -> nonneg (SF64sqrt x).
Proof.
  destruct x as [s|s| |s m e]; cbn; try tauto; intros ->; [exact eq_refl|].
  unfold SF64sqrt, SFsqrt.
  destruct (SFsqrt_core_binary prec emax (Z.pos m) e) as [[mz ez] lz] eqn:E.
  apply signed_nonneg, binary_round_aux_signed.
  unfold SFsqrt_core_binary in E.
  set (e' := Z.min _ _) in E. set (m' := match e - 2 * e' with Z0 => _ | Zpos _ => _ | Zneg _ => _ end) in E.
  assert (Hm' : 0 <= m').
  { unfold m'. destruct (e - 2 * e'); try lia. apply Z.shiftl_nonneg. lia. }
  pose proof (Z.sqrtrem_spec m' Hm') as Hs.
  destruct (Z.sqrtrem m') as [q r]. injection E as <- _ _. lia.
Qed.

Lemma SFdiv_nonneg x y m e :
  nonneg x -> y = S754_finite false m e -> nonneg (SF64div x y).
Proof.
  intros Hx ->. destruct x as [sx|sx| |sx mx ex]; cbn in *; try tauto; subst; auto.
  unfold SF64div, SFdiv.
  destruct (SFdiv_core_binary prec emax (Z.pos mx) ex (Z.pos m) e) as [[mz ez] lz] eqn:E.
  apply signed_nonneg. change (xorb false false) with false.
  apply binary_round_aux_signed.
  unfold SFdiv_core_binary in E.
  set (e' := Z.min _ _) in E.
  set (m' := match ex - e - e' with Z0 => _ | Zpos _ => _ | Zneg _ => _ end) in E.
  assert (Hm' : 0 <= m').
  { unfold m'. destruct (ex - e - e'); try lia. apply Z.shiftl_nonneg. lia. }
  pose proof (Z.div_pos m' (Z.pos m) Hm' eq_refl) as Hq.
  unfold Z.div in Hq. destruct (Z.div_eucl m' (Z.pos m)) as [q r].
  injection E as <- _ _. exact Hq.
Qed.

(** *** Primitive floats *)

Lemma nn_not_nan x : nn x -> not_nan x.
Proof. apply nonneg_nonnan. Qed.

Lemma ltb_irrefl (x : float) : (x <? x)%float = false.
Proof. rewrite ltb_spec. apply SFltb_irrefl. Qed.

Lemma ltb_trans (x y z : float) :
  (x <? y)%float = true -> (y <? z)%float = true -> (x <? z)%float = true.
Proof. rewrite !ltb_spec. apply SFltb_trans. Qed.

Lemma ltb_neg_trans (x y z : float) :
  not_nan y ->
  (x <? y)%float = false -> (y <? z)%float = false -> (x <? z)%float = false.
Proof. rewrite !ltb_spec. apply SFltb_neg_trans. Qed.

Lemma ltb_false_leb (x y : float) :
  not_nan x -> not_nan y -> (x <? y)%float = false -> (y <=? x)%float = true.
Proof. rewrite ltb_spec, leb_spec. apply SFltb_false_leb. Qed.

(** A comparison of keys that are never NaN is a strict weak ordering. *)
Lemma float_key_swo {T} (key : T -> float) (l : list T) :
  (forall a, In a l -> not_nan (key a)) ->
  strict_weak_order_on (fun a b => (key a <? key b)%float) l.
Proof.
  intros H. repeat split.
  - intros a _. apply ltb_irrefl.
  - intros a b c _ _ _. apply ltb_trans.
  - intros a b c _ Hb _. apply ltb_neg_trans. auto.
Qed.

Lemma of_int_not_nan (z : Z) : not_nan (of_int z).
Proof.
  unfold not_nan, of_int. destruct (z <? 0).
  - rewrite opp_spec, of_uint63_spec.
    pose proof (binary_normalize_nonnan (Uint63.to_Z (Uint63.of_Z (- z))) 0 false) as H.
    destruct (binary_normalize _ _ _ _ _); cbn; congruence.
  - rewrite of_uint63_spec. apply binary_normalize_nonnan.
Qed.

Lemma ColorDiff_nn (c1 c2 : Color) : nn (ColorDiff c1 c2).
Proof.
  unfold nn, ColorDiff. rewrite sqrt_spec, !add_spec, !mul_spec.
  apply SFsqrt_nonneg. repeat apply SFadd_nonneg; apply SFmul_square_nonneg, of_int_not_nan.
Qed.

Lemma fold_add_nn (l : list float) (a : float) :
  nn a -> (forall x, In x l -> nn x) -> nn (fold_left PrimFloat.add l a).
Proof.
  revert a. induction l as [|x l IH]; intros a Ha Hl; cbn [fold_left]; auto.
  apply IH.
  - unfold nn. rewrite add_spec. apply SFadd_nonneg; [exact Ha|]. apply Hl. now left.
  - intros y Hy. apply Hl. now right.
Qed.

Lemma square_divisor_positive (n : Z) :
  0 <= n <= 9 ->
  exists m e, Prim2SF (of_int (Z.max n 1) * of_int (Z.max n 1)) = S754_finite false m e.
Proof.
  intros H.
  assert (Hall : forallb (fun k => match Prim2SF (of_int (Z.max k 1) * of_int (Z.max k 1)) with
                                   | S754_finite false _ _ => true
                                   | _ => false
                                   end) (Zrange 0 10) = true) by (vm_compute; reflexivity).
  rewrite forallb_forall in Hall. specialize (Hall n (proj2 (In_Zrange 0 10 n) ltac:(lia))).
  destruct (Prim2SF _) as [| | |[] m e]; try discriminate. eauto.
Qed.

Lemma ColorPosDiff_nn (img : Mat Color) (p : Pos) (c : Color) : nn (ColorPosDiff img p c).
Proof.
  rewrite ColorPosDiff_fold, fold_score_cell. cbv zeta.
  set (cells := filter (counted img) (neighbours p)).
  assert (Hlen : 0 <= 0 + Z.of_nat (length cells) <= 9).
  { pose proof (filter_length_le (counted img) (neighbours p)) as Hle.
    rewrite length_neighbours in Hle. fold cells in Hle. lia. }
  destruct (square_divisor_positive _ Hlen) as (m & e & Hd).
  unfold nn. rewrite div_spec. eapply SFdiv_nonneg; [|exact Hd].
  apply fold_add_nn; [exact I|].
  intros x Hx. apply in_map_iff in Hx as (q & <- & _). apply ColorDiff_nn.
Qed.

(** *** Hue is never NaN on byte colours *)

Lemma is_finite_spec (x : float) : is_finite x = true -> finite_or_zero (Prim2SF x).
Proof.
  unfold is_finite, is_nan, is_infinity.
  rewrite negb_true_iff, orb_false_iff, negb_false_iff.
  rewrite !eqb_spec, abs_spec.
  change (Prim2SF infinity) with (S754_infinity false).
  destruct (Prim2SF x) as [s|s| |s m e]; cbn; intros [H1 H2]; auto; discriminate.
Qed.

Lemma chan_difference_finite (i j : Z) :
  0 <= i < 256 -> 0 <= j < 256 ->
  is_finite (chan i - chan j) = true /\ is_finite (60 * (chan i - chan j)) = true.
Proof.
  intros Hi Hj.
  assert (H : forallb (fun i => forallb (fun j =>
                is_finite (chan i - chan j) && is_finite (60 * (chan i - chan j)))
                (Zrange 0 256)) (Zrange 0 256) = true) by (vm_compute; reflexivity).
  rewrite forallb_forall in H. specialize (H i (proj2 (In_Zrange 0 256 i) Hi)).
  rewrite forallb_forall in H. specialize (H j (proj2 (In_Zrange 0 256 j) Hj)).
  now apply andb_true_iff in H.
Qed.

Lemma SFdiv_nonnan (x y : spec_float) :
  finite_or_zero x -> finite_or_zero y -> SFeqb y (S754_zero false) = false ->
  SF64div x y <> S754_nan.
Proof.
  destruct y as [sy|sy| |sy my ey]; cbn; try tauto; try discriminate.
  intros Hx _ _. destruct x as [sx|sx| |sx mx ex]; cbn in *; try tauto; try discriminate.
  unfold SF64div, SFdiv.
  destruct (SFdiv_core_binary prec emax (Z.pos mx) ex (Z.pos my) ey) as [[mz ez] lz] eqn:E.
  apply (signed_nonnan (xorb sx sy)), binary_round_aux_signed.
  unfold SFdiv_core_binary in E.
  set (e' := Z.min _ _) in E.
  set (m' := match ex - ey - e' with Z0 => _ | Zpos _ => _ | Zneg _ => _ end) in E.
  assert (Hm' : 0 <= m').
  { unfold m'. destruct (ex - ey - e'); try lia. apply Z.shiftl_nonneg. lia. }
  pose proof (Z.div_pos m' (Z.pos my) Hm' eq_refl) as Hq.
  unfold Z.div in Hq. destruct (Z.div_eucl m' (Z.pos my)) as [q r].
  injection E as <- _ _. exact Hq.
Qed.

Lemma SFadd_nonnan_l (x y : spec_float) :
  finite_or_zero x -> y <> S754_nan -> SF64add x y <> S754_nan.
Proof.
  destruct x as [sx|sx| |sx mx ex], y as [sy|sy| |sy my ey]; cbn;
    try tauto; try discriminate; intros _ _.
  - destruct sx, sy; discriminate.
  - apply binary_normalize_nonnan.
Qed.

Lemma SFadd_nonnan_r (x y : spec_float) :
  x <> S754_nan -> finite_or_zero y -> SF64add x y <> S754_nan.
Proof.
  destruct x as [sx|sx| |sx mx ex], y as [sy|sy| |sy my ey]; cbn;
    try tauto; try discriminate; intros _ _.
  - destruct sx, sy; discriminate.
  - apply binary_normalize_nonnan.
Qed.

Lemma std_max_cases {T} (lt : T -> T -> bool) (a b : T) :
  std_max lt a b = a \/ std_max lt a b = b.
Proof. unfold std_max. destruct (lt a b); auto. Qed.

Lemma std_min_cases {T} (lt : T -> T -> bool) (a b : T) :
  std_min lt a b = a \/ std_min lt a b = b.
Proof. unfold std_min. destruct (lt b a); auto. Qed.

Lemma max3_cases {T} (lt : T -> T -> bool) (a b c : T) :
  max3 lt a b c = a \/ max3 lt a b c = b \/ max3 lt a b c = c.
Proof.
  unfold max3. destruct (std_max_cases lt (std_max lt a b) c) as [->| ->]; auto.
  destruct (std_max_cases lt a b) as [->| ->]; auto.
Qed.

Lemma min3_cases {T} (lt : T -> T -> bool) (a b c : T) :
  min3 lt a b c = a \/ min3 lt a b c = b \/ min3 lt a b c = c.
Proof.
  unfold min3. destruct (std_min_cases lt (std_min lt a b) c) as [->| ->]; auto.
  destruct (std_min_cases lt a b) as [->| ->]; auto.
Qed.

(** The [assert(false)] of [bgr2hsv] is dead code: the largest channel is
    one of the three. *)
Lemma bgr2hsv_assert_unreachable (bgr : Color) :
  let maxc := max3 Z.ltb (v2 bgr) (v1 bgr) (v0 bgr) in
  (maxc =? v2 bgr) || (maxc =? v1 bgr) || (maxc =? v0 bgr) = true.
Proof.
  cbv zeta. destruct (max3_cases Z.ltb (v2 bgr) (v1 bgr) (v0 bgr)) as [->|[->| ->]];
    rewrite Z.eqb_refl; rewrite ?orb_true_r; reflexivity.
Qed.

Lemma hue_not_nan (c : Color) : valid_color c -> not_nan (v0 (bgr2hsv c)).
Proof.
  intros (Hb & Hg & Hr). unfold valid_channel in *. unfold bgr2hsv.
  fold (chan (v0 c)) (chan (v1 c)) (chan (v2 c)).
  set (b := chan (v0 c)). set (g := chan (v1 c)). set (r := chan (v2 c)).
  set (v := max3 PrimFloat.ltb r g b). set (mn := min3 PrimFloat.ltb r g b).
  assert (Hd : is_finite (v - mn) = true).
  { unfold v, mn. destruct (max3_cases PrimFloat.ltb r g b) as [->|[->| ->]];
      destruct (min3_cases PrimFloat.ltb r g b) as [->|[->| ->]];
      apply chan_difference_finite; assumption. }
  destruct (v - mn =? 0)%float eqn:E; cbn [v0]; [discriminate|].
  rewrite eqb_spec in E. change (Prim2SF 0) with (S754_zero false) in E.
  apply is_finite_spec in Hd.
  assert (Hq : forall i j, 0 <= i < 256 -> 0 <= j < 256 ->
                 not_nan (60 * (chan i - chan j) / (v - mn))).
  { intros i j Hi Hj. unfold not_nan. rewrite div_spec.
    apply SFdiv_nonnan; auto. apply is_finite_spec, chan_difference_finite; assumption. }
  cbv zeta.
  match goal with |- not_nan (if (?x <? 0)%float then _ else _) => set (h := x) end.
  assert (Hh : not_nan h).
  { unfold h.
    destruct (_ =? v2 c); [apply Hq; assumption|].
    destruct (_ =? v1 c).
    { unfold not_nan. rewrite add_spec. apply SFadd_nonnan_l; [exact I|]. apply Hq; assumption. }
    destruct (_ =? v0 c); [|discriminate].
    unfold not_nan. rewrite add_spec. apply SFadd_nonnan_l; [exact I|]. apply Hq; assumption. }
  destruct (h <? 0)%float; [|exact Hh].
  unfold not_nan. rewrite add_spec. apply SFadd_nonnan_r; [exact Hh|exact I].
Qed.

(** ** [std::min_element] *)

Lemma min_fold_spec {T} (comp : T -> T -> bool) (all : list T) :
  strict_weak_order_on comp all ->
  forall rest l1 s l2,
    all = l1 ++ s :: l2 ++ rest ->
    (forall e, In e l1 -> comp s e = true) ->
    (forall e, In e l2 -> comp e s = false) ->
    exists l1' l2',
      all = l1' ++ fold_left (fun smallest x => if comp x smallest then x else smallest)
                             rest s :: l2' /\
      (forall e, In e l1' ->
                 comp (fold_left (fun smallest x => if comp x smallest then x else smallest)
                                 rest s) e = true) /\
      (forall e, In e l2' ->
                 comp e (fold_left (fun smallest x => if comp x smallest then x else smallest)
                                   rest s) = false).
Proof.
  intros (Hirr & Htr & Hneg). induction rest as [|x rest IH]; intros l1 s l2 Hall H1 H2.
  - exists l1, l2. rewrite app_nil_r in Hall. auto.
  - cbn [fold_left].
    assert (Hs : In s all) by (rewrite Hall, in_app_iff; right; now left).
    assert (Hx : In x all).
    { rewrite Hall, in_app_iff. right. right. rewrite in_app_iff. right. now left. }
    destruct (comp x s) eqn:E.
    + apply (IH (l1 ++ s :: l2) x []).
      * rewrite Hall, <- app_assoc. reflexivity.
      * intros e He. apply in_app_iff in He as [He|[<-|He]].
        -- apply (Htr x s e); auto. rewrite Hall, in_app_iff. now left.
        -- exact E.
        -- assert (Hin : In e all).
           { rewrite Hall, in_app_iff. right. right. rewrite in_app_iff. now left. }
           destruct (comp x e) eqn:E'; [reflexivity|].
           rewrite (Hneg x e s Hx Hin Hs E' (H2 e He)) in E. discriminate.
      * intros e [].
    + apply (IH l1 s (l2 ++ [x])).
      * rewrite Hall, <- app_assoc. reflexivity.
      * exact H1.
      * intros e He. apply in_app_iff in He as [He|[<-|[]]]; auto.
Qed.

(** The result of [min_element] is the first element of the range that no
    element is less than: it is less than every earlier element. *)
Lemma min_element_first_min {T} (comp : T -> T -> bool) (l : list T) :
  strict_weak_order_on comp l -> l <> [] ->
  exists m l1 l2,
    min_element comp l = Some m /\ l = l1 ++ m :: l2 /\
    (forall e, In e l1 -> comp m e = true) /\
    (forall e, In e l2 -> comp e m = false).
Proof.
  intros Hswo Hne. destruct l as [|first rest]; [congruence|].
  destruct (min_fold_spec comp (first :: rest) Hswo rest [] first [])
    as (l1 & l2 & Hall & H1 & H2); try reflexivity; try (intros e []).
  exists (fold_left (fun smallest x => if comp x smallest then x else smallest) rest first),
    l1, l2. auto.
Qed.

Lemma ltb_leb (x y : float) : (x <? y)%float = true -> (x <=? y)%float = true.
Proof.
  rewrite ltb_spec, leb_spec. unfold SFltb, SFleb.
  destruct (SFcompare (Prim2SF x) (Prim2SF y)) as [[]|]; congruence.
Qed.

Lemma leb_refl (x : float) : not_nan x -> (x <=? x)%float = true.
Proof. intros H. apply ltb_false_leb; auto. apply ltb_irrefl. Qed.

Lemma StronglySorted_weaken {T} (R R' : T -> T -> Prop) (l : list T) :
  (forall a b, In a l -> In b l -> R a b -> R' a b) ->
  StronglySorted R l -> StronglySorted R' l.
Proof.
  intros H Hs. induction Hs as [|a l Hs IH Hall]; constructor.
  - apply IH. intros x y Hx Hy. apply H; now right.
  - rewrite Forall_forall in *. intros x Hx. apply H; [now left|now right|auto].
Qed.

Lemma fold_left_ext_in {A B} (f g : A -> B -> A) (l : list B) (a : A) :
  (forall a b, f a b = g a b) -> fold_left f l a = fold_left g l a.
Proof.
  intros H. revert a. induction l as [|b l IH]; intros a; cbn [fold_left]; auto.
  rewrite H. apply IH.
Qed.

Lemma blue_zero_is_free (img : Mat Color) (x y : Z) (c : Color) (q : Pos) :
  v0 c = invalidColor ->
  is_free (SetPixel img x y c) q = is_free (SetPixel img x y sentinel) q.
Proof.
  intros Hc. destruct q as [x' y']. unfold is_free.
  change (out_of_image (SetPixel img x y c) x' y') with (out_of_image img x' y').
  change (out_of_image (SetPixel img x y sentinel) x' y') with (out_of_image img x' y').
  destruct (out_of_image img x' y'); [reflexivity|]. rewrite !GetPixel_SetPixel.
  destruct ((y' =? y) && (x' =? x)); [|reflexivity]. now rewrite Hc.
Qed.

Lemma blue_zero_score_cell (img : Mat Color) (x y : Z) (c k : Color) (acc : float * Z) (q : Pos) :
  v0 c = invalidColor ->
  score_cell (SetPixel img x y c) k acc q = score_cell (SetPixel img x y sentinel) k acc q.
Proof.
  intros Hc. destruct acc as [d n], q as [x' y']. unfold score_cell.
  change (out_of_image (SetPixel img x y c) x' y') with (out_of_image img x' y').
  change (out_of_image (SetPixel img x y sentinel) x' y') with (out_of_image img x' y').
  destruct (out_of_image img x' y'); [reflexivity|]. rewrite !GetPixel_SetPixel.
  destruct ((y' =? y) && (x' =? x)); [|reflexivity]. now rewrite Hc.
Qed.

Lemma Init_canvas_blank (imread : String.string -> Mat Channel) (argv1 : option String.string) :
  forall x y, GetPixel (fst (Init imread argv1)) x y = sentinel.
Proof.
  destruct argv1 as [arg|]; [|reflexivity].
  rewrite Init_cases. destruct (arg_num arg =? 0); reflexivity.
Qed.

Lemma Init_frontier_in_bounds (imread : String.string -> Mat Channel)
      (argv1 : option String.string) (q : Pos) :
  PS.In q (snd (Init imread argv1)) -> in_bounds (fst (Init imread argv1)) q.
Proof.
  destruct argv1 as [arg|].
  - rewrite Init_cases. destruct (arg_num arg =? 0); cbn [fst snd].
    + intros Hq. apply NonBlackPositions_spec in Hq. exact (proj1 Hq).
    + apply plus_frontier_in_bounds.
  - cbn. intros Hq. now apply PS.empty_spec in Hq.
Qed.

(** ** Invariants of the loop *)

Section EngineProperties.

Variable Gen : Type.
Variable mt19937 : Z -> Gen.
Variable shuffle : forall T : Type, list T -> Gen -> list T * Gen.
Variable sort : forall T : Type, (T -> T -> bool) -> list T -> list T.

Hypothesis shuffle_permutes :
  forall (T : Type) (l : list T) (g : Gen), Permutation l (fst (shuffle T l g)).

Hypothesis sort_contract :
  forall (T : Type) (comp : T -> T -> bool) (l : list T),
    strict_weak_order_on comp l ->
    Permutation l (sort T comp l) /\ sorted_by comp (sort T comp l).

Lemma is_empty_false_elements (F : PS.t) :
  PS.is_empty F = false -> PS.elements F <> [].
Proof.
  intros H E. assert (PS.is_empty F = true); [|congruence].
  apply PS.is_empty_spec. intros q Hq. apply In_elements in Hq. rewrite E in Hq. exact Hq.
Qed.

Lemma rated_swo (img : Mat Color) (color : Color) (l : list (float * Pos)) :
  (forall rp, In rp l -> exists p, rp = rate img color p) ->
  strict_weak_order_on rated_less l.
Proof.
  intros H. apply (float_key_swo fst). intros rp Hrp.
  destruct (H rp Hrp) as (p & ->). apply nn_not_nan, ColorPosDiff_nn.
Qed.

Lemma FindBestPos_spec (img : Mat Color) (F : PS.t) (color : Color) (g : Gen) :
  PS.is_empty F = false ->
  exists pos l1 l2,
    FindBestPos shuffle img F color g =
      (Some pos, snd (shuffle _ (map (rate img color) (PS.elements F)) g)) /\
    fst (shuffle _ (map (rate img color) (PS.elements F)) g) =
      l1 ++ rate img color pos :: l2 /\
    (forall rp, In rp l1 -> rated_less (rate img color pos) rp = true) /\
    (forall rp, In rp l2 -> rated_less rp (rate img color pos) = false) /\
    PS.In pos F.
Proof.
  intros Hne. unfold FindBestPos.
  pose proof (shuffle_permutes _ (map (rate img color) (PS.elements F)) g) as Hperm.
  destruct (shuffle _ (map (rate img color) (PS.elements F)) g) as [shuffled g'].
  cbn [fst snd] in *.
  assert (Hfrom : forall rp, In rp shuffled ->
                             exists p, rp = rate img color p /\ PS.In p F).
  { intros rp Hrp. apply (Permutation_in _ (Permutation_sym Hperm)) in Hrp.
    apply in_map_iff in Hrp as (p & <- & Hp). exists p. split; [reflexivity|].
    now apply In_elements. }
  assert (Hnil : shuffled <> []).
  { intros ->. apply Permutation_sym, Permutation_nil, map_eq_nil in Hperm.
    now apply is_empty_false_elements in Hne. }
  destruct (min_element_first_min rated_less shuffled) as (m & l1 & l2 & Hm & Hl & H1 & H2).
  { apply (rated_swo img color). intros rp Hrp.
    destruct (Hfrom rp Hrp) as (p & -> & _). eauto. }
  { exact Hnil. }
  destruct (Hfrom m) as (pos & -> & Hpos).
  { rewrite Hl, in_app_iff. right. now left. }
  exists pos, l1, l2. rewrite Hm. cbn [option_map rate snd]. auto.
Qed.

(** *** One iteration *)

Lemma insert_range_spec (a b : PS.t) (q : Pos) :
  PS.In q (insert_range a b) <-> PS.In q a \/ PS.In q b.
Proof. unfold insert_range. rewrite In_fold_add, In_elements. tauto. Qed.

Lemma iteration_Done (s : State Gen) :
  iteration shuffle s = Done <->
  colors s = [] \/ PS.is_empty (nextPositions s) = true.
Proof.
  unfold iteration. destruct (colors s) as [|c cs] eqn:Ec.
  - split; auto.
  - destruct (PS.is_empty (nextPositions s)) eqn:Ee.
    + split; auto.
    + destruct (FindBestPos shuffle _ _ _ _) as [[pos|] g'].
      * destruct (negb (PS.mem pos (nextPositions s)));
          [|destruct (out_of_image _ _ _)]; split; try discriminate;
          intros [H|H]; discriminate.
      * split; try discriminate. intros [H|H]; discriminate.
Qed.

Lemma iteration_Continue (s s' : State Gen) (placed : Pos * Color) :
  iteration shuffle s = Continue placed s' ->
  colors s = colors s' ++ [snd placed] /\
  PS.is_empty (nextPositions s) = false /\
  FindBestPos shuffle (image s) (nextPositions s) (snd placed) (gen s) =
    (Some (fst placed), gen s') /\
  PS.In (fst placed) (nextPositions s) /\
  in_bounds (image s) (fst placed) /\
  image s' = SetPixel (image s) (fst (fst placed)) (snd (fst placed)) (snd placed) /\
  (forall q, PS.In q (nextPositions s') <->
             (PS.In q (nextPositions s) /\ q <> fst placed) \/
             PS.In q (GetFreeNeighbours (image s') (fst placed))).
Proof.
  unfold iteration. destruct (colors s) as [|c cs] eqn:Ec; [discriminate|].
  destruct (PS.is_empty (nextPositions s)) eqn:Ee; [discriminate|].
  rewrite <- Ec.
  destruct (FindBestPos shuffle _ _ _ _) as [[pos|] g'] eqn:Ef; [|discriminate].
  destruct (PS.mem pos (nextPositions s)) eqn:Em; cbn [negb]; [|discriminate].
  destruct (out_of_image (image s) (fst pos) (snd pos)) eqn:Eo; [discriminate|].
  intros H. injection H as <- <-. cbn [fst snd colors image nextPositions gen].
  apply out_of_image_false in Eo.
  split; [apply app_removelast_last; congruence|].
  split; [reflexivity|].
  split; [exact Ef|].
  split; [now apply PS.mem_spec|].
  split; [destruct pos; exact Eo|].
  split; [reflexivity|].
  intros q. rewrite insert_range_spec, PS.remove_spec. unfold PosOT.eq. tauto.
Qed.

(** With a frontier inside the canvas an iteration never faults. *)
Lemma iteration_no_fault (s : State Gen) :
  frontier_in_bounds s -> forall f, iteration shuffle s <> Fail f.
Proof.
  intros Hb f. unfold iteration. destruct (colors s) as [|c cs] eqn:Ec; [discriminate|].
  destruct (PS.is_empty (nextPositions s)) eqn:Ee; [discriminate|].
  rewrite <- Ec.
  destruct (FindBestPos_spec (image s) (nextPositions s) (last (colors s) sentinel)
                             (gen s) Ee) as (pos & l1 & l2 & -> & _ & _ & _ & Hin).
  assert (Hm : PS.mem pos (nextPositions s) = true) by now apply PS.mem_spec.
  rewrite Hm. cbn [negb].
  assert (Ho : out_of_image (image s) (fst pos) (snd pos) = false).
  { apply out_of_image_false. apply Hb in Hin. destruct pos. exact Hin. }
  rewrite Ho. discriminate.
Qed.

(** The membership assertion holds whatever the state. *)
Lemma iteration_assert_holds (s : State Gen) :
  iteration shuffle s <> Fail AssertionFailed /\ iteration shuffle s <> Fail EmptyRange.
Proof.
  unfold iteration. destruct (colors s) as [|c cs] eqn:Ec; [split; discriminate|].
  destruct (PS.is_empty (nextPositions s)) eqn:Ee; [split; discriminate|].
  rewrite <- Ec.
  destruct (FindBestPos_spec (image s) (nextPositions s) (last (colors s) sentinel)
                             (gen s) Ee) as (pos & l1 & l2 & -> & _ & _ & _ & Hin).
  assert (Hm : PS.mem pos (nextPositions s) = true) by now apply PS.mem_spec.
  rewrite Hm. cbn [negb].
  destruct (out_of_image (image s) (fst pos) (snd pos)); split; discriminate.
Qed.

Lemma SetPixel_dims (img : Mat Color) (x y : Z) (c : Color) (q : Pos) :
  in_bounds (SetPixel img x y c) q <-> in_bounds img q.
Proof. reflexivity. Qed.

Lemma GetPixelAt_SetPixel (img : Mat Color) (p q : Pos) (c : Color) :
  GetPixelAt (SetPixel img (fst p) (snd p) c) q = if PosOT.eq_dec q p then c else GetPixelAt img q.
Proof.
  destruct p as [x y], q as [x' y']. unfold GetPixelAt. rewrite GetPixel_SetPixel.
  cbn [fst snd]. destruct (PosOT.eq_dec (x', y') (x, y)) as [E|E]; unfold PosOT.eq in E.
  - injection E as -> ->. now rewrite !Z.eqb_refl.
  - destruct (Z.eqb_spec y' y), (Z.eqb_spec x' x); cbn [andb]; congruence.
Qed.

Lemma well_formed_step (s s' : State Gen) (placed : Pos * Color) :
  well_formed s -> iteration shuffle s = Continue placed s' -> well_formed s'.
Proof.
  intros (Hb & Hu & Hc & Hp) Hit.
  apply iteration_Continue in Hit as (Hcol & _ & _ & Hin & Hpb & Himg & Hnext).
  destruct placed as [pos color]. cbn [fst snd] in *.
  assert (Hcolor : v0 color <> invalidColor).
  { apply Hp. rewrite Hcol, in_app_iff. right. now left. }
  assert (Hok : canvas_ok (image s')).
  { intros x y. rewrite Himg, GetPixel_SetPixel.
    destruct ((y =? snd pos) && (x =? fst pos)); [congruence|apply Hc]. }
  split; [|split; [|split]].
  - intros q Hq. apply Hnext in Hq as [[Hq _]|Hq].
    + rewrite Himg. apply Hb, Hq.
    + apply GetFreeNeighbours_spec in Hq as [_ Hq]. now apply is_free_spec in Hq.
  - intros q Hq. apply Hnext in Hq as [[Hq Hne]|Hq].
    + rewrite Himg, GetPixelAt_SetPixel.
      destruct (PosOT.eq_dec q pos); [contradiction|]. apply Hu, Hq.
    + apply GetFreeNeighbours_spec in Hq as [_ Hq]. apply is_free_spec in Hq as [_ Hq].
      destruct q as [x y]. apply Hok, Hq.
  - exact Hok.
  - intros c Hc'. apply Hp. rewrite Hcol, in_app_iff. now left.
Qed.

Lemma well_formed_steps (s s' : State Gen) (tr : list (Pos * Color)) :
  steps shuffle s tr s' -> well_formed s -> well_formed s'.
Proof.
  induction 1 as [s|s s' s'' placed tr Hit Hst IH]; auto.
  intros Hwf. apply IH. eapply well_formed_step; eauto.
Qed.

Lemma steps_app (s s' s'' : State Gen) (tr tr' : list (Pos * Color)) :
  steps shuffle s tr s' -> steps shuffle s' tr' s'' -> steps shuffle s (tr ++ tr') s''.
Proof.
  induction 1 as [s|s s1 s2 placed tr Hit Hst IH]; intros H; cbn [app]; auto.
  econstructor; eauto.
Qed.

Lemma steps_colors (s s' : State Gen) (tr : list (Pos * Color)) :
  steps shuffle s tr s' -> colors s = colors s' ++ rev (map snd tr).
Proof.
  induction 1 as [s|s s1 s2 placed tr Hit Hst IH]; cbn [map rev].
  - now rewrite app_nil_r.
  - apply iteration_Continue in Hit as (Hcol & _). rewrite Hcol, IH, <- app_assoc.
    reflexivity.
Qed.

(** A position placed later in the run is still unset now. *)
Lemma steps_placed_unset (s s' : State Gen) (tr : list (Pos * Color)) :
  steps shuffle s tr s' -> well_formed s ->
  forall p, In p (map fst tr) -> GetPixelAt (image s) p = sentinel.
Proof.
  induction 1 as [s|s s1 s2 placed tr Hit Hst IH]; intros Hwf p Hp; [destruct Hp|].
  pose proof (well_formed_step _ _ _ Hwf Hit) as Hwf1.
  destruct Hwf as (Hb & Hu & Hc & Hpal).
  apply iteration_Continue in Hit as (Hcol & _ & _ & Hin & Hpb & Himg & Hnext).
  destruct Hp as [<-|Hp]; [apply Hu, Hin|].
  specialize (IH Hwf1 p Hp). rewrite Himg, GetPixelAt_SetPixel in IH.
  destruct (PosOT.eq_dec p (fst placed)) as [E|E]; [|exact IH].
  exfalso. apply (Hpal (snd placed)).
  - rewrite Hcol, in_app_iff. right. now left.
  - rewrite IH. reflexivity.
Qed.

(** Cells outside the placements of a run are left as they were. *)
Lemma steps_untouched (s s' : State Gen) (tr : list (Pos * Color)) :
  steps shuffle s tr s' ->
  forall p, ~ In p (map fst tr) -> GetPixelAt (image s') p = GetPixelAt (image s) p.
Proof.
  induction 1 as [s|s s1 s2 placed tr Hit Hst IH]; intros p Hp; [reflexivity|].
  apply iteration_Continue in Hit as (_ & _ & _ & _ & _ & Himg & _).
  cbn [map In] in Hp. rewrite IH by tauto. rewrite Himg, GetPixelAt_SetPixel.
  destruct (PosOT.eq_dec p (fst placed)) as [E|E]; [|reflexivity].
  unfold PosOT.eq in E. subst p. tauto.
Qed.

Lemma steps_positions_NoDup (s s' : State Gen) (tr : list (Pos * Color)) :
  steps shuffle s tr s' -> well_formed s -> NoDup (map fst tr).
Proof.
  induction 1 as [s|s s1 s2 placed tr Hit Hst IH]; intros Hwf; cbn [map]; constructor.
  - intros Hp. pose proof (well_formed_step _ _ _ Hwf Hit) as Hwf1.
    pose proof (steps_placed_unset _ _ _ Hst Hwf1 _ Hp) as Hu.
    destruct Hwf as (_ & _ & _ & Hpal).
    apply iteration_Continue in Hit as (Hcol & _ & _ & _ & _ & Himg & _).
    rewrite Himg, GetPixelAt_SetPixel in Hu.
    destruct (PosOT.eq_dec (fst placed) (fst placed)) as [_|E]; [|now apply E].
    apply (Hpal (snd placed)).
    + rewrite Hcol, in_app_iff. right. now left.
    + rewrite Hu. reflexivity.
  - apply IH. eapply well_formed_step; eauto.
Qed.

(** *** The loop *)

Lemma loop_steps (fuel : nat) (s : State Gen) :
  steps shuffle s (placements (loop shuffle fuel s)) (final (loop shuffle fuel s)).
Proof.
  revert s. induction fuel as [|fuel IH]; intros s; cbn [loop]; [constructor|].
  destruct (iteration shuffle s) as [|placed s'|f] eqn:E; cbn [placements final];
    try constructor.
  econstructor; eauto.
Qed.

Lemma loop_halts (fuel : nat) (s : State Gen) :
  (length (colors s) < fuel)%nat ->
  status (loop shuffle fuel s) <> OutOfFuel /\
  (length (placements (loop shuffle fuel s)) <= length (colors s))%nat /\
  (status (loop shuffle fuel s) = Finished ->
   iteration shuffle (final (loop shuffle fuel s)) = Done).
Proof.
  revert s. induction fuel as [|fuel IH]; intros s Hlen; [lia|]. cbn [loop].
  destruct (iteration shuffle s) as [|placed s'|f] eqn:E; cbn [placements final status length].
  - repeat split; auto; try discriminate; lia.
  - apply iteration_Continue in E as (Hcol & _).
    assert (Hl : length (colors s) = S (length (colors s'))).
    { rewrite Hcol, length_app. cbn [length]. lia. }
    destruct (IH s') as (H1 & H2 & H3); [lia|]. repeat split; auto. lia.
  - repeat split; try discriminate. lia.
Qed.

Lemma loop_no_fault (fuel : nat) (s : State Gen) :
  frontier_in_bounds s -> forall f, status (loop shuffle fuel s) <> Faulted f.
Proof.
  revert s. induction fuel as [|fuel IH]; intros s Hb f; cbn [loop]; [discriminate|].
  destruct (iteration shuffle s) as [|placed s'|f'] eqn:E; cbn [status]; try discriminate.
  - apply IH. intros q Hq.
    apply iteration_Continue in E as (_ & _ & _ & _ & _ & Himg & Hnext).
    apply Hnext in Hq as [[Hq _]|Hq].
    + rewrite Himg. apply Hb, Hq.
    + apply GetFreeNeighbours_spec in Hq as [_ Hq]. now apply is_free_spec in Hq.
  - exfalso. now apply (iteration_no_fault s Hb f').
Qed.

(** *** The claims about the engine *)

(** C7: over a non-empty frontier [FindBestPos] rates every frontier
    position, shuffles the rated pairs once with the generator it is given
    and returns the position of the first pair, in shuffled order, of
    minimal cost; that position is in the frontier, so the membership
    assertion of the loop holds. *)
Theorem FindBestPos_first_minimum (img : Mat Color) (F : PS.t) (color : Color) (g : Gen) :
  PS.is_empty F = false ->
  let rated := map (rate img color) (PS.elements F) in
  let shuffled := fst (shuffle _ rated g) in
  Permutation rated shuffled /\
  exists pos l1 l2,
    FindBestPos shuffle img F color g = (Some pos, snd (shuffle _ rated g)) /\
    shuffled = l1 ++ (ColorPosDiff img pos color, pos) :: l2 /\
    (forall rp, In rp l1 -> (ColorPosDiff img pos color <? fst rp)%float = true) /\
    (forall rp, In rp l2 -> (ColorPosDiff img pos color <=? fst rp)%float = true) /\
    (forall q, PS.In q F ->
               (ColorPosDiff img pos color <=? ColorPosDiff img q color)%float = true) /\
    PS.In pos F /\ PS.mem pos F = true /\
    (forall s : State Gen, iteration shuffle s <> Fail AssertionFailed).
Proof.
  intros Hne rated shuffled.
  pose proof (shuffle_permutes _ rated g) as Hperm. fold shuffled in Hperm.
  split; [exact Hperm|].
  destruct (FindBestPos_spec img F color g Hne) as (pos & l1 & l2 & Hf & Hl & H1 & H2 & Hin).
  fold rated in Hf, Hl. fold shuffled in Hl.
  assert (Hnn : forall rp, In rp shuffled -> not_nan (fst rp)).
  { intros rp Hrp. apply (Permutation_in _ (Permutation_sym Hperm)) in Hrp.
    apply in_map_iff in Hrp as (p & <- & _). apply nn_not_nan, ColorPosDiff_nn. }
  assert (Hpos : not_nan (ColorPosDiff img pos color)) by apply nn_not_nan, ColorPosDiff_nn.
  assert (Hl2 : forall rp, In rp l2 -> (ColorPosDiff img pos color <=? fst rp)%float = true).
  { intros rp Hrp. apply ltb_false_leb; auto.
    - apply Hnn. rewrite Hl, in_app_iff. right. now right.
    - apply (H2 rp Hrp). }
  exists pos, l1, l2. split; [exact Hf|]. split; [exact Hl|].
  split; [exact H1|]. split; [exact Hl2|]. split.
  - intros q Hq.
    assert (Hr : In (rate img color q) shuffled).
    { apply (Permutation_in _ Hperm), in_map, In_elements, Hq. }
    rewrite Hl in Hr. apply in_app_iff in Hr as [Hr|[Hr|Hr]].
    + apply ltb_leb, (H1 _ Hr).
    + assert (q = pos) by (unfold rate in Hr; congruence). subst q.
      now apply leb_refl.
    + apply (Hl2 _ Hr).
  - split; [exact Hin|]. split; [now apply PS.mem_spec|].
    intros s. apply iteration_assert_holds.
Qed.

(** C8: the loop halts after at most one pass per colour; it is done
    exactly when the palette or the frontier is empty; each pass consumes
    one colour; with the frontier inside the canvas it ends in [Finished],
    and an empty frontier ends it at once whatever colours remain. *)
Theorem growth_terminates (s : State Gen) :
  status (grow shuffle s) <> OutOfFuel /\
  (length (placements (grow shuffle s)) <= length (colors s))%nat /\
  (iteration shuffle s = Done <->
   colors s = [] \/ PS.is_empty (nextPositions s) = true) /\
  (forall placed s', iteration shuffle s = Continue placed s' ->
                     length (colors s) = S (length (colors s'))) /\
  (frontier_in_bounds s ->
   status (grow shuffle s) = Finished /\
   (colors (final (grow shuffle s)) = [] \/
    PS.is_empty (nextPositions (final (grow shuffle s))) = true)) /\
  (PS.is_empty (nextPositions s) = true -> grow shuffle s = mkRun [] s Finished).
Proof.
  destruct (loop_halts (S (length (colors s))) s) as (H1 & H2 & H3); [lia|].
  split; [exact H1|]. split; [exact H2|]. split; [apply iteration_Done|]. split.
  - intros placed s' E. apply iteration_Continue in E as (Hcol & _).
    rewrite Hcol, length_app. cbn [length]. lia.
  - split.
    + intros Hb.
      assert (Hfin : status (grow shuffle s) = Finished).
      { unfold grow in *.
        remember (status (loop shuffle (S (length (colors s))) s)) as st eqn:E.
        destruct st as [|f|]; [reflexivity| |congruence].
        exfalso. exact (loop_no_fault _ s Hb f (eq_sym E)). }
      split; [exact Hfin|]. apply iteration_Done, H3, Hfin.
    + intros He. unfold grow. cbn [loop].
      assert (E : iteration shuffle s = Done) by (apply iteration_Done; now right).
      now rewrite E.
Qed.

(** C5: in every state of a run every frontier position is in bounds and
    still holds the sentinel; an iteration takes its position out of the
    frontier as it paints it, and whatever it adds to the frontier is an
    in-bounds neighbour that holds the sentinel. *)
Theorem frontier_stays_unset (s0 s : State Gen) (tr : list (Pos * Color)) :
  well_formed s0 -> steps shuffle s0 tr s ->
  (forall q, PS.In q (nextPositions s) ->
             in_bounds (image s) q /\ GetPixelAt (image s) q = sentinel) /\
  (forall placed s',
      iteration shuffle s = Continue placed s' ->
      PS.In (fst placed) (nextPositions s) /\
      ~ PS.In (fst placed) (nextPositions s') /\
      GetPixelAt (image s') (fst placed) = snd placed /\
      snd placed <> sentinel /\
      forall q, PS.In q (nextPositions s') ->
                PS.In q (nextPositions s) \/
                (In q (neighbours (fst placed)) /\ in_bounds (image s') q /\
                 GetPixelAt (image s') q = sentinel)).
Proof.
  intros Hwf0 Hst. pose proof (well_formed_steps _ _ _ Hst Hwf0) as Hwf.
  split.
  - intros q Hq. destruct Hwf as (Hb & Hu & _). auto.
  - intros placed s' Hit. pose proof (well_formed_step _ _ _ Hwf Hit) as Hwf'.
    destruct Hwf as (Hb & Hu & Hc & Hpal). destruct Hwf' as (Hb' & Hu' & Hc' & _).
    apply iteration_Continue in Hit as (Hcol & _ & _ & Hin & Hpb & Himg & Hnext).
    assert (Hcolor : v0 (snd placed) <> invalidColor).
    { apply Hpal. rewrite Hcol, in_app_iff. right. now left. }
    assert (Hget : GetPixelAt (image s') (fst placed) = snd placed).
    { rewrite Himg, GetPixelAt_SetPixel.
      destruct (PosOT.eq_dec (fst placed) (fst placed)) as [_|E]; [reflexivity|].
      now contradiction E. }
    split; [exact Hin|]. split.
    + intros Hq. apply Hu' in Hq. rewrite Hget in Hq. rewrite Hq in Hcolor.
      now apply Hcolor.
    + split; [exact Hget|]. split.
      * intros E. rewrite E in Hcolor. now apply Hcolor.
      * intros q Hq. pose proof (Hb' q Hq) as Hqb. pose proof (Hu' q Hq) as Hqu.
        apply Hnext in Hq as [[Hq _]|Hq]; [now left|right].
        apply GetFreeNeighbours_spec in Hq as [Hq _]. auto.
Qed.

(** C6: along a run no colour is placed twice and no position is painted
    twice, and a cell that has left the sentinel keeps its colour. *)
Theorem placements_unique (s0 s1 s2 : State Gen) (tr1 tr2 : list (Pos * Color)) :
  well_formed s0 -> NoDup (colors s0) ->
  steps shuffle s0 tr1 s1 -> steps shuffle s1 tr2 s2 ->
  NoDup (map fst (tr1 ++ tr2)) /\
  NoDup (map snd (tr1 ++ tr2)) /\
  (forall p, GetPixelAt (image s1) p <> sentinel ->
             GetPixelAt (image s2) p = GetPixelAt (image s1) p).
Proof.
  intros Hwf Hnd H1 H2. pose proof (steps_app _ _ _ _ _ H1 H2) as H12.
  split; [eapply steps_positions_NoDup; eauto|]. split.
  - apply steps_colors in H12. rewrite H12 in Hnd.
    apply NoDup_app_remove_l, NoDup_rev in Hnd. now rewrite rev_involutive in Hnd.
  - intros p Hp. apply (steps_untouched _ _ _ H2). intros Hin. apply Hp.
    apply (steps_placed_unset _ _ _ H2); [|exact Hin].
    eapply well_formed_steps; eauto.
Qed.

(** C10: a cell is taken as unset exactly when its first channel is 0, in
    the frontier expansion and in the scorer alike; every palette colour
    has first channel [4 * b] with [b >= 1], so on the states of a run the
    test agrees with equality to the sentinel; a colour with first channel
    0 would be treated as the sentinel whatever its other channels. *)
Theorem unset_test_reads_first_channel :
  (forall img q, is_free img q = true <->
                 in_bounds img q /\ v0 (GetPixelAt img q) = 0) /\
  (forall img color diff n q,
      score_cell img color (diff, n) q =
      if negb (out_of_image img (fst q) (snd q)) && negb (v0 (GetPixelAt img q) =? 0)
      then ((diff + ColorDiff color (GetPixelAt img q))%float, n + 1)
      else (diff, n)) /\
  (forall c, In c build_colors -> exists b, 1 <= b /\ v0 c = 4 * b) /\
  (forall img x y c p k,
      v0 c = 0 ->
      GetFreeNeighbours (SetPixel img x y c) p =
        GetFreeNeighbours (SetPixel img x y sentinel) p /\
      ColorPosDiff (SetPixel img x y c) p k =
        ColorPosDiff (SetPixel img x y sentinel) p k) /\
  (forall (s0 s : State Gen) tr,
      well_formed s0 -> steps shuffle s0 tr s ->
      forall x y, v0 (GetPixel (image s) x y) = 0 <-> GetPixel (image s) x y = sentinel).
Proof.
  split; [exact is_free_spec|]. split; [exact score_cell_counted|]. split.
  - intros c Hc. apply In_build_colors in Hc as (b & g & r & Hb & _ & _ & ->).
    exists b. cbn [v0]. lia.
  - split.
    + intros img x y c p k Hc. split.
      * unfold GetFreeNeighbours. f_equal. apply filter_ext. intros q.
        now apply blue_zero_is_free.
      * rewrite !ColorPosDiff_fold.
        rewrite (fold_left_ext_in (score_cell (SetPixel img x y c) k)
                                  (score_cell (SetPixel img x y sentinel) k));
          [reflexivity|].
        intros acc q. now apply blue_zero_score_cell.
    + intros s0 s tr Hwf Hst x y.
      destruct (well_formed_steps _ _ _ Hst Hwf) as (_ & _ & Hc & _).
      split; [apply Hc|]. intros ->. reflexivity.
Qed.

Lemma ordered_colors_permutation :
  Permutation build_colors (fst (ordered_colors mt19937 shuffle sort)) /\
  sorted_by hue_less (fst (ordered_colors mt19937 shuffle sort)).
Proof.
  unfold ordered_colors.
  pose proof (shuffle_permutes _ build_colors (mt19937 1)) as Hperm.
  destruct (shuffle Color build_colors (mt19937 1)) as [shuffled g]. cbn [fst] in *.
  destruct (sort_contract _ hue_less shuffled) as [Hp Hs].
  { apply (float_key_swo (fun c => v0 (bgr2hsv c))). intros c Hc.
    apply hue_not_nan, build_colors_valid, (Permutation_in _ (Permutation_sym Hperm)), Hc. }
  split; [|exact Hs]. now transitivity shuffled.
Qed.

(** X21: the palette the loop consumes is a reordering of the shuffled
    sequence, free of repetitions, in which hue never decreases. *)
Theorem palette_sorted_by_hue :
  let shuffled := fst (shuffle _ build_colors (mt19937 1)) in
  let ordered := fst (ordered_colors mt19937 shuffle sort) in
  Permutation shuffled ordered /\ NoDup ordered /\
  StronglySorted (fun a b => (v0 (bgr2hsv a) <=? v0 (bgr2hsv b))%float = true) ordered.
Proof.
  cbv zeta. destruct ordered_colors_permutation as [Hp Hs].
  pose proof (shuffle_permutes _ build_colors (mt19937 1)) as Hperm.
  split; [|split].
  - now rewrite <- Hperm.
  - apply (Permutation_NoDup Hp), build_colors_NoDup.
  - revert Hs. apply StronglySorted_weaken. intros a b Ha Hb H.
    apply ltb_false_leb; [| |exact H]; apply hue_not_nan, build_colors_valid;
      apply (Permutation_in _ (Permutation_sym Hp)); assumption.
Qed.

(** What [main] hands to the loop is a well-formed state with a palette
    free of repetitions. *)
Lemma initial_state_well_formed (imread : String.string -> Mat Channel)
      (argv1 : option String.string) (s0 : State Gen) :
  initial_state mt19937 shuffle sort imread argv1 = Some s0 ->
  well_formed s0 /\ NoDup (colors s0).
Proof.
  unfold initial_state.
  pose proof (Init_canvas_blank imread argv1) as Hblank.
  pose proof (Init_frontier_in_bounds imread argv1) as Hbounds.
  destruct (Init imread argv1) as [img F]. cbn [fst snd] in *.
  destruct (rows img =? 0); [discriminate|].
  destruct ordered_colors_permutation as [Hp _].
  destruct (ordered_colors mt19937 shuffle sort) as [cs g]. cbn [fst] in Hp.
  intros H. injection H as <-. unfold well_formed, frontier_in_bounds, frontier_unset,
    palette_ok, canvas_ok. cbn [colors image nextPositions].
  split; [|apply (Permutation_NoDup Hp), build_colors_NoDup].
  split; [exact Hbounds|]. split; [|split].
  - intros [x y] _. apply Hblank.
  - intros x y _. apply Hblank.
  - intros c Hc. apply build_colors_blue, (Permutation_in _ (Permutation_sym Hp)), Hc.
Qed.

(** The whole program: when [main] does not return 1 its loop ends
    normally, having painted distinct positions with distinct colours, and
    leaves a frontier of unset in-bounds cells. *)
Lemma main_run (rd : random_device) (imread : String.string -> Mat Channel)
      (argv1 : option String.string) (r : Run Gen) :
  main mt19937 shuffle sort rd imread argv1 = Some r ->
  status r = Finished /\
  NoDup (map fst (placements r)) /\ NoDup (map snd (placements r)) /\
  (colors (final r) = [] \/ PS.is_empty (nextPositions (final r)) = true) /\
  well_formed (final r).
Proof.
  unfold main. destruct (initial_state mt19937 shuffle sort imread argv1) as [s0|] eqn:E;
    [|discriminate].
  cbn [option_map]. intros H. injection H as <-.
  destruct (initial_state_well_formed _ _ _ E) as [Hwf Hnd].
  pose proof (loop_steps (S (length (colors s0))) s0) as Hst. fold (grow shuffle s0) in Hst.
  destruct (loop_halts (S (length (colors s0))) s0) as (H1 & _ & H3); [lia|].
  fold (grow shuffle s0) in H1, H3.
  assert (Hfin : status (grow shuffle s0) = Finished).
  { remember (status (grow shuffle s0)) as st eqn:Est.
    destruct st as [|f|]; [reflexivity| |congruence].
    exfalso. exact (loop_no_fault _ s0 (proj1 Hwf) f (eq_sym Est)). }
  split; [exact Hfin|]. split; [eapply steps_positions_NoDup; eauto|]. split.
  - apply steps_colors in Hst. rewrite Hst in Hnd.
    apply NoDup_app_remove_l, NoDup_rev in Hnd. now rewrite rev_involutive in Hnd.
  - split; [apply iteration_Done, H3, Hfin|]. eapply well_formed_steps; eauto.
Qed.

End EngineProperties.

(** ** Determinism of the run *)

Section MayProperties.

Variable Gen : Type.
Variable mt19937 : Z -> Gen.
Variable shuffle_may : forall T : Type, list T -> Gen -> list T * Gen -> Prop.
Variable sort_may : forall T : Type, (T -> T -> bool) -> list T -> list T -> Prop.

(** Each library call is a function of its arguments, the state of the
    generator among them, and it returns. *)
Hypothesis shuffle_deterministic :
  forall (T : Type) (l : list T) (g : Gen) (r r' : list T * Gen),
    shuffle_may T l g r -> shuffle_may T l g r' -> r = r'.
Hypothesis sort_deterministic :
  forall (T : Type) (comp : T -> T -> bool) (l r r' : list T),
    sort_may T comp l r -> sort_may T comp l r' -> r = r'.
Hypothesis shuffle_returns :
  forall (T : Type) (l : list T) (g : Gen), exists r, shuffle_may T l g r.
Hypothesis sort_returns :
  forall (T : Type) (comp : T -> T -> bool) (l : list T), exists r, sort_may T comp l r.

Lemma FindBestPos_may_deterministic (image : Mat Color) (F : PS.t) (color : Color)
      (g : Gen) (r r' : option Pos * Gen) :
  FindBestPos_may shuffle_may image F color g r ->
  FindBestPos_may shuffle_may image F color g r' -> r = r'.
Proof.
  intros [l g1 H] [l' g1' H'].
  pose proof (shuffle_deterministic _ _ _ _ _ H H') as E. injection E as -> ->. reflexivity.
Qed.

Lemma iteration_may_deterministic (s : State Gen) (o o' : Outcome Gen) :
  iteration_may shuffle_may s o -> iteration_may shuffle_may s o' -> o = o'.
Proof.
  intros [Hd|found g' Hc He Hf] [Hd'|found' g'' Hc' He' Hf'].
  - reflexivity.
  - destruct Hd as [Hd|Hd]; congruence.
  - destruct Hd' as [Hd|Hd]; congruence.
  - pose proof (FindBestPos_may_deterministic _ _ _ _ _ _ Hf Hf') as E.
    injection E as -> ->. reflexivity.
Qed.

Lemma loop_may_deterministic (s : State Gen) (r r' : Run Gen) :
  loop_may shuffle_may s r -> loop_may shuffle_may s r' -> r = r'.
Proof.
  intros H. revert r'. induction H as [s Hd|s f Hf|s s' placed r Hp Hl IH]; intros r' H';
    inversion H' as [s1 Hd'|s1 f' Hf'|s1 s1' placed' r1 Hp' Hl']; subst;
    try (pose proof (iteration_may_deterministic _ _ _ Hd Hd') as E; discriminate E);
    try (pose proof (iteration_may_deterministic _ _ _ Hd Hf') as E; discriminate E);
    try (pose proof (iteration_may_deterministic _ _ _ Hd Hp') as E; discriminate E);
    try (pose proof (iteration_may_deterministic _ _ _ Hf Hd') as E; discriminate E);
    try (pose proof (iteration_may_deterministic _ _ _ Hf Hp') as E; discriminate E);
    try (pose proof (iteration_may_deterministic _ _ _ Hp Hd') as E; discriminate E);
    try (pose proof (iteration_may_deterministic _ _ _ Hp Hf') as E; discriminate E).
  - reflexivity.
  - pose proof (iteration_may_deterministic _ _ _ Hf Hf') as E. now injection E as ->.
  - pose proof (iteration_may_deterministic _ _ _ Hp Hp') as E. injection E as -> ->.
    now rewrite (IH _ Hl').
Qed.




Lemma ordered_colors_may_deterministic (p p' : list Color * Gen) :
  ordered_colors_may mt19937 shuffle_may sort_may p ->
  ordered_colors_may mt19937 shuffle_may sort_may p' -> p = p'.
Proof.
  intros [sh so g Hs Ho] [sh' so' g' Hs' Ho'].
  pose proof (shuffle_deterministic _ _ _ _ _ Hs Hs') as E. injection E as -> ->.
  now rewrite (sort_deterministic _ _ _ _ _ Ho Ho').
Qed.

Lemma main_may_deterministic (rd rd' : random_device)
      (imread imread' : String.string -> Mat Channel)
      (argv1 argv1' : option String.string) (r r' : option (Run Gen)) :
  Init imread argv1 = Init imread' argv1' ->
  main_may mt19937 shuffle_may sort_may rd imread argv1 r ->
  main_may mt19937 shuffle_may sort_may rd' imread' argv1' r' -> r = r'.
Proof.
  intros HI H H'.
  destruct H as [E|cs g r E Hoc Hl], H' as [E'|cs' g' r' E' Hoc' Hl'];
    rewrite <- ?HI in *; try contradiction.
  - reflexivity.
  - pose proof (ordered_colors_may_deterministic _ _ Hoc Hoc') as Ep.
    injection Ep as -> ->. now rewrite (loop_may_deterministic _ _ _ Hl Hl').
Qed.


End MayProperties.

(** *** A library given by functions *)

Section GraphEngine.

Variable Gen : Type.
Variable mt19937 : Z -> Gen.
Variable shuffle : forall T : Type, list T -> Gen -> list T * Gen.
Variable sort : forall T : Type, (T -> T -> bool) -> list T -> list T.

Lemma shuffle_graph_deterministic (T : Type) (l : list T) (g : Gen) (r r' : list T * Gen) :
  shuffle_graph shuffle T l g r -> shuffle_graph shuffle T l g r' -> r = r'.
Proof. unfold shuffle_graph. congruence. Qed.

Lemma sort_graph_deterministic (T : Type) (comp : T -> T -> bool) (l r r' : list T) :
  sort_graph sort T comp l r -> sort_graph sort T comp l r' -> r = r'.
Proof. unfold sort_graph. congruence. Qed.



Lemma iteration_graph (s : State Gen) :
  iteration_may (shuffle_graph shuffle) s (iteration shuffle s).
Proof.
  unfold iteration. destruct (colors s) as [|c cs] eqn:Ec.
  { constructor. now left. }
  destruct (PS.is_empty (nextPositions s)) eqn:Ee.
  { constructor. now right. }
  rewrite <- Ec. unfold FindBestPos.
  destruct (shuffle _ (map (rate (image s) (last (colors s) sentinel))
                           (PS.elements (nextPositions s))) (gen s)) as [l g'] eqn:Es.
  change (iteration_may (shuffle_graph shuffle) s
            (place s (option_map snd (min_element rated_less l)) g')).
  apply iteration_may_pass; [congruence|exact Ee|]. constructor.
  unfold shuffle_graph. now rewrite Es.
Qed.

Lemma loop_graph (fuel : nat) :
  forall s : State Gen,
    status (loop shuffle fuel s) <> OutOfFuel ->
    loop_may (shuffle_graph shuffle) s (loop shuffle fuel s).
Proof.
  induction fuel as [|fuel IH]; intros s; cbn [loop]; [cbn; congruence|].
  pose proof (iteration_graph s) as Hit.
  destruct (iteration shuffle s) as [|placed s'|f]; cbn [status]; intros Hs.
  - now apply loop_may_done.
  - apply (loop_may_pass _ _ _ _ _ _ Hit). now apply IH.
  - now apply loop_may_fail.
Qed.

(** The program of the functional embedding is the run of this one. *)
Lemma main_graph (rd : random_device) (imread : String.string -> Mat Channel)
      (argv1 : option String.string) :
  main_may mt19937 (shuffle_graph shuffle) (sort_graph sort) rd imread argv1
           (main mt19937 shuffle sort rd imread argv1).
Proof.
  unfold main, initial_state, ordered_colors.
  destruct (Init imread argv1) as [img F] eqn:EI.
  destruct (Z.eqb_spec (rows img) 0) as [E|E].
  - cbn [option_map]. apply main_may_return_1. now rewrite EI.
  - destruct (shuffle Color build_colors (mt19937 1)) as [sh g] eqn:Es. cbn [option_map].
    apply (main_may_run _ _ _ _ _ _ _ (sort Color hue_less sh) g).
    + now rewrite EI.
    + apply (ordered_colors_may_intro _ _ _ _ sh); unfold shuffle_graph, sort_graph; auto.
    + rewrite EI. cbn [fst snd]. apply loop_graph.
      apply (proj1 (loop_halts _ shuffle _ _ (le_n _))).
Qed.

(** ... and the only one. *)
Lemma main_graph_only (rd : random_device) (imread : String.string -> Mat Channel)
      (argv1 : option String.string) (r : option (Run Gen)) :
  main_may mt19937 (shuffle_graph shuffle) (sort_graph sort) rd imread argv1 r ->
  r = main mt19937 shuffle sort rd imread argv1.
Proof.
  intros H.
  apply (main_may_deterministic Gen mt19937 (shuffle_graph shuffle) (sort_graph sort)
           shuffle_graph_deterministic sort_graph_deterministic
           rd rd imread imread argv1 argv1 _ _ eq_refl H (main_graph rd imread argv1)).
Qed.

End GraphEngine.

(** Without the determinism of the library the run is not determined: when
    the shuffle may leave either order of two positions of equal cost, the
    colour may go to either of them. *)
Lemma run_follows_the_shuffle :
  exists r r',
    loop_may any_shuffle fork_state r /\ loop_may any_shuffle fork_state r' /\
    map fst (placements r) = [(0, 0)] /\ map fst (placements r') = [(1, 0)].
Proof.
  set (c := vec3 4 2 2 : Color).
  assert (Hstop : forall img F g,
             loop_may any_shuffle (mkState [] img F g) (mkRun [] (mkState [] img F g) Finished)).
  { intros img F g. apply loop_may_done. constructor. now left. }
  assert (Hpass : forall l pos,
             Permutation (map (rate (blank 1 2) c) (PS.elements (nextPositions fork_state))) l ->
             option_map snd (min_element rated_less l) = Some pos ->
             iteration_may any_shuffle fork_state (place fork_state (Some pos) 0)).
  { intros l pos Hl Hm. rewrite <- Hm.
    apply iteration_may_pass; [discriminate|reflexivity|].
    apply (FindBestPos_may_intro _ any_shuffle _ _ _ _ l 0). exact Hl. }
  eexists. eexists. split; [|split].
  - eapply loop_may_pass; [|apply Hstop].
    apply (Hpass [(0%float, (0, 0)); (0%float, (1, 0))] (0, 0)); reflexivity.
  - eapply loop_may_pass; [|apply Hstop].
    apply (Hpass [(0%float, (1, 0)); (0%float, (0, 0))] (1, 0)); [|reflexivity].
    apply perm_swap.
  - split; reflexivity.
Qed.

(** ** The reference instance meets the contracts *)

Lemma extract_permutation {T} (n : nat) (l : list T) (x : T) (rest : list T) :
  extract n l = Some (x, rest) -> Permutation l (x :: rest).
Proof.
  revert n x rest. induction l as [|y t IH]; intros [|n] x rest; cbn [extract];
    try discriminate.
  - intros H. injection H as <- <-. reflexivity.
  - destruct (extract n t) as [[z t']|] eqn:E; [|discriminate].
    intros H. injection H as <- <-. rewrite (IH _ _ _ E). apply perm_swap.
Qed.

Lemma draw_permutation {T} (fuel : nat) (l : list T) (g : Z) :
  Permutation l (fst (draw fuel l g)).
Proof.
  revert l g. induction fuel as [|fuel IH]; intros l g; cbn [draw]; [reflexivity|].
  destruct (extract _ l) as [[x rest]|] eqn:E; [|reflexivity].
  specialize (IH rest (lehmer_next g)).
  destruct (draw fuel rest (lehmer_next g)) as [out g']. cbn [fst] in *.
  rewrite (extract_permutation _ _ _ _ E). now constructor.
Qed.

Lemma lehmer_shuffle_permutes (T : Type) (l : list T) (g : Z) :
  Permutation l (fst (lehmer_shuffle T l g)).
Proof. apply draw_permutation. Qed.

Lemma In_insert_after {T} (comp : T -> T -> bool) (x z : T) (l : list T) :
  In z (insert_after comp x l) <-> z = x \/ In z l.
Proof.
  induction l as [|y t IH]; cbn [insert_after In].
  - intuition auto.
  - destruct (comp x y); cbn [In]; [intuition auto|]. rewrite IH. intuition auto.
Qed.

Lemma insert_after_permutation {T} (comp : T -> T -> bool) (x : T) (l : list T) :
  Permutation (x :: l) (insert_after comp x l).
Proof.
  induction l as [|y t IH]; cbn [insert_after]; [reflexivity|].
  destruct (comp x y); [reflexivity|]. rewrite perm_swap. now constructor.
Qed.

Lemma insertion_sort_permutation {T} (comp : T -> T -> bool) (l : list T) :
  Permutation l (insertion_sort T comp l).
Proof.
  induction l as [|x l IH]; cbn; [reflexivity|].
  rewrite <- insert_after_permutation. now constructor.
Qed.

Lemma swo_asym {T} (comp : T -> T -> bool) (u : list T) (a b : T) :
  strict_weak_order_on comp u -> In a u -> In b u ->
  comp a b = true -> comp b a = false.
Proof.
  intros (Hirr & Htr & _) Ha Hb H. destruct (comp b a) eqn:E; [|reflexivity].
  rewrite <- (Hirr a Ha). symmetry. now apply (Htr a b a).
Qed.

Lemma insert_after_sorted {T} (comp : T -> T -> bool) (u : list T) (x : T) (l : list T) :
  strict_weak_order_on comp u -> In x u -> incl l u ->
  sorted_by comp l -> sorted_by comp (insert_after comp x l).
Proof.
  intros Hswo Hx Hl Hs. induction Hs as [|y t Hs IH Hall]; cbn [insert_after].
  - constructor; constructor.
  - assert (Hy : In y u) by (apply Hl; now left).
    assert (Ht : incl t u) by (intros z Hz; apply Hl; now right).
    rewrite Forall_forall in Hall. destruct (comp x y) eqn:E.
    + constructor; [constructor; [exact Hs|now apply Forall_forall]|].
      apply Forall_forall. intros z [<-|Hz].
      * now apply (swo_asym comp u x y).
      * pose proof (swo_asym comp u x y Hswo Hx Hy E) as Eyx.
        destruct Hswo as (_ & _ & Hneg).
        apply (Hneg z y x); [apply Ht, Hz|exact Hy|exact Hx|apply Hall, Hz|exact Eyx].
    + constructor; [now apply IH|]. apply Forall_forall. intros z Hz.
      apply In_insert_after in Hz as [->|Hz]; auto.
Qed.

Lemma insertion_sort_sorted {T} (comp : T -> T -> bool) (u l : list T) :
  strict_weak_order_on comp u -> incl l u -> sorted_by comp (insertion_sort T comp l).
Proof.
  intros Hswo. induction l as [|x l IH]; intros Hl; cbn; [constructor|].
  apply (insert_after_sorted comp u); auto.
  - apply Hl. now left.
  - intros z Hz. apply Hl. right.
    now apply (Permutation_in _ (Permutation_sym (insertion_sort_permutation comp l))).
  - apply IH. intros z Hz. apply Hl. now right.
Qed.

Lemma insertion_sort_contract (T : Type) (comp : T -> T -> bool) (l : list T) :
  strict_weak_order_on comp l ->
  Permutation l (insertion_sort T comp l) /\ sorted_by comp (insertion_sort T comp l).
Proof.
  intros H. split; [apply insertion_sort_permutation|].
  apply (insertion_sort_sorted comp l); auto. apply incl_refl.
Qed.

(** *** Relative order *)

Lemma before_cons_iff {T} (a b y : T) (t : list T) :
  before a b (y :: t) <-> (y = a /\ In b t) \/ before a b t.
Proof.
  unfold before. split.
  - intros (l1 & l2 & l3 & H). destruct l1 as [|z l1]; cbn [app] in H.
    + injection H as -> ->. left. split; [reflexivity|].
      rewrite in_app_iff. right. now left.
    + injection H as -> ->. right. eauto.
  - intros [[-> H]|(l1 & l2 & l3 & ->)].
    + apply in_split in H as (l2 & l3 & ->). now exists [], l2, l3.
    + now exists (y :: l1), l2, l3.
Qed.

Lemma before_nil {T} (a b : T) : ~ before a b [].
Proof. intros ([|? ?] & l2 & l3 & H); discriminate. Qed.

Lemma before_In {T} (a b : T) (l : list T) : before a b l -> In a l /\ In b l.
Proof.
  intros (l1 & l2 & l3 & ->). split.
  - apply in_elt.
  - rewrite app_comm_cons, app_assoc. apply in_elt.
Qed.

Lemma before_total {T} (a b : T) (l : list T) :
  In a l -> In b l -> a <> b -> before a b l \/ before b a l.
Proof.
  induction l as [|y t IH]; intros Ha Hb Hne; [destruct Ha|].
  rewrite !before_cons_iff. destruct Ha as [->|Ha], Hb as [->|Hb]; tauto.
Qed.

Lemma before_asym {T} (a b : T) (l : list T) :
  NoDup l -> before a b l -> before b a l -> False.
Proof.
  induction 1 as [|y t Hy Hnd IH]; intros H1 H2; [now apply before_nil in H1|].
  apply before_cons_iff in H1, H2.
  destruct H1 as [[-> H1]|H1], H2 as [[E H2]|H2].
  - now subst.
  - apply before_In in H2. tauto.
  - subst. apply before_In in H1. tauto.
  - auto.
Qed.

Lemma insert_after_keeps_before {T} (comp : T -> T -> bool) (x a b : T) (l : list T) :
  before a b l -> before a b (insert_after comp x l).
Proof.
  induction l as [|y t IH]; intros H; [now apply before_nil in H|].
  cbn [insert_after]. destruct (comp x y).
  - apply before_cons_iff. now right.
  - apply before_cons_iff in H. apply before_cons_iff.
    destruct H as [[-> H]|H]; [left|right; auto].
    split; [reflexivity|]. apply In_insert_after. now right.
Qed.

(** An element is inserted after every element it is not less than. *)
Lemma insert_after_goes_after {T} (comp : T -> T -> bool) (u : list T) (x b : T) (l : list T) :
  strict_weak_order_on comp u -> In x u -> incl l u -> sorted_by comp l ->
  In b l -> comp x b = false -> before b x (insert_after comp x l).
Proof.
  intros Hswo Hx Hl Hs. induction Hs as [|y t Hs IH Hall]; intros Hb E; [destruct Hb|].
  assert (Hy : In y u) by (apply Hl; now left).
  assert (Ht : incl t u) by (intros z Hz; apply Hl; now right).
  rewrite Forall_forall in Hall. cbn [insert_after].
  assert (Exy : comp x y = false).
  { destruct Hb as [->|Hb]; [exact E|].
    destruct Hswo as (_ & _ & Hneg).
    apply (Hneg x b y); [exact Hx|apply Ht, Hb|exact Hy|exact E|apply Hall, Hb]. }
  rewrite Exy. apply before_cons_iff. destruct Hb as [->|Hb].
  - left. split; [reflexivity|]. apply In_insert_after. now left.
  - right. now apply IH.
Qed.

(** The reference sort reverses the order of equivalent elements. *)
Lemma insertion_sort_reverses {T} (comp : T -> T -> bool) (u : list T) (a b : T) (l : list T) :
  strict_weak_order_on comp u -> incl l u ->
  before a b l -> comp a b = false -> before b a (insertion_sort T comp l).
Proof.
  intros Hswo. induction l as [|y t IH]; intros Hl H E; [now apply before_nil in H|].
  assert (Ht : incl t u) by (intros z Hz; apply Hl; now right).
  assert (Hst : incl (insertion_sort T comp t) u).
  { intros z Hz. apply Ht.
    now apply (Permutation_in _ (Permutation_sym (insertion_sort_permutation comp t))). }
  cbn. apply before_cons_iff in H as [[-> H]|H].
  - apply (insert_after_goes_after comp u); auto.
    + apply Hl. now left.
    + now apply (insertion_sort_sorted comp u).
    + now apply (Permutation_in _ (insertion_sort_permutation comp t)).
  - apply insert_after_keeps_before. now apply IH.
Qed.

Lemma ordered_colors_fst {Gen : Type} (mt19937 : Z -> Gen)
      (shuffle : forall T : Type, list T -> Gen -> list T * Gen)
      (sort : forall T : Type, (T -> T -> bool) -> list T -> list T) :
  fst (ordered_colors mt19937 shuffle sort) =
  sort _ hue_less (fst (shuffle _ build_colors (mt19937 1))).
Proof.
  unfold ordered_colors. now destruct (shuffle Color build_colors (mt19937 1)).
Qed.

(** The contracts of [std::shuffle] and [std::sort] leave the order of
    colours of equal hue open: with the reference sort, which meets the
    contract, two greys of the palette (hue 0) leave the sort in the
    opposite order to the one the shuffle gave them. *)
Lemma hue_sort_is_not_stable :
  ~ (forall (Gen : Type) (mt19937 : Z -> Gen)
            (shuffle : forall T : Type, list T -> Gen -> list T * Gen)
            (sort : forall T : Type, (T -> T -> bool) -> list T -> list T),
        (forall T l g, Permutation l (fst (shuffle T l g))) ->
        (forall T comp l, strict_weak_order_on comp l ->
                          Permutation l (sort T comp l) /\ sorted_by comp (sort T comp l)) ->
        forall a b,
          v0 (bgr2hsv a) = v0 (bgr2hsv b) ->
          before a b (fst (shuffle _ build_colors (mt19937 1))) ->
          before a b (fst (ordered_colors mt19937 shuffle sort))).
Proof.
  intros H.
  specialize (H Z lehmer_seed lehmer_shuffle insertion_sort
                lehmer_shuffle_permutes insertion_sort_contract).
  rewrite ordered_colors_fst in H.
  pose proof (lehmer_shuffle_permutes _ build_colors (lehmer_seed 1)) as Hperm.
  remember (fst (lehmer_shuffle Color build_colors (lehmer_seed 1))) as shuffled eqn:Es.
  clear Es.
  set (g1 := vec3 4 4 4 : Color). set (g2 := vec3 8 8 8 : Color).
  assert (H1 : In g1 shuffled).
  { apply (Permutation_in g1 Hperm), In_build_colors. exists 1, 2, 2. repeat split; lia. }
  assert (H2 : In g2 shuffled).
  { apply (Permutation_in g2 Hperm), In_build_colors. exists 2, 4, 4. repeat split; lia. }
  assert (Hswo : strict_weak_order_on hue_less shuffled).
  { apply (float_key_swo (fun c => v0 (bgr2hsv c))). intros c Hc.
    apply hue_not_nan, build_colors_valid, (Permutation_in _ (Permutation_sym Hperm)), Hc. }
  assert (Hnd : NoDup (insertion_sort Color hue_less shuffled)).
  { apply (Permutation_NoDup (insertion_sort_permutation hue_less shuffled)).
    apply (Permutation_NoDup Hperm), build_colors_NoDup. }
  assert (E12 : hue_less g1 g2 = false) by reflexivity.
  assert (E21 : hue_less g2 g1 = false) by reflexivity.
  assert (Hne : g1 <> g2) by discriminate.
  destruct (before_total g1 g2 shuffled H1 H2 Hne) as [Hb|Hb].
  - apply (before_asym g1 g2 _ Hnd).
    + apply H; [reflexivity|exact Hb].
    + apply (insertion_sort_reverses hue_less shuffled); auto. apply incl_refl.
  - apply (before_asym g2 g1 _ Hnd).
    + apply H; [reflexivity|exact Hb].
    + apply (insertion_sort_reverses hue_less shuffled); auto. apply incl_refl.
Qed.

(** *** A stable sort meets the contract as well *)

Lemma In_insert_before {T} (comp : T -> T -> bool) (x z : T) (l : list T) :
  In z (insert_before comp x l) <-> z = x \/ In z l.
Proof.
  induction l as [|y t IH]; cbn [insert_before In]; [intuition|].
  destruct (comp y x); cbn [In]; [rewrite IH|]; intuition.
Qed.

Lemma insert_before_permutation {T} (comp : T -> T -> bool) (x : T) (l : list T) :
  Permutation (x :: l) (insert_before comp x l).
Proof.
  induction l as [|y t IH]; cbn [insert_before]; [reflexivity|].
  destruct (comp y x); [|reflexivity].
  rewrite perm_swap. now constructor.
Qed.

Lemma stable_sort_permutation {T} (comp : T -> T -> bool) (l : list T) :
  Permutation l (stable_sort T comp l).
Proof.
  induction l as [|x l IH]; cbn; [reflexivity|].
  rewrite <- insert_before_permutation. now constructor.
Qed.

Lemma insert_before_sorted {T} (comp : T -> T -> bool) (u : list T) (x : T) (l : list T) :
  strict_weak_order_on comp u -> In x u -> incl l u ->
  sorted_by comp l -> sorted_by comp (insert_before comp x l).
Proof.
  intros Hswo Hx Hl Hs. induction Hs as [|y t Hs IH Hall]; cbn [insert_before].
  - constructor; constructor.
  - assert (Hy : In y u) by (apply Hl; now left).
    assert (Ht : incl t u) by (intros z Hz; apply Hl; now right).
    rewrite Forall_forall in Hall. destruct (comp y x) eqn:E.
    + constructor; [now apply IH|]. apply Forall_forall. intros z Hz.
      apply In_insert_before in Hz as [->|Hz]; [|now apply Hall].
      now apply (swo_asym comp u y x).
    + constructor; [constructor; [exact Hs|now apply Forall_forall]|].
      apply Forall_forall. intros z [<-|Hz]; [exact E|].
      destruct Hswo as (_ & _ & Hneg).
      apply (Hneg z y x); [apply Ht, Hz|exact Hy|exact Hx|apply Hall, Hz|exact E].
Qed.

Lemma stable_sort_sorted {T} (comp : T -> T -> bool) (u l : list T) :
  strict_weak_order_on comp u -> incl l u -> sorted_by comp (stable_sort T comp l).
Proof.
  intros Hswo. induction l as [|x l IH]; intros Hl; cbn; [constructor|].
  apply (insert_before_sorted comp u); auto.
  - apply Hl. now left.
  - intros z Hz. apply Hl. right.
    now apply (Permutation_in _ (Permutation_sym (stable_sort_permutation comp l))).
  - apply IH. intros z Hz. apply Hl. now right.
Qed.

Lemma stable_sort_contract (T : Type) (comp : T -> T -> bool) (l : list T) :
  strict_weak_order_on comp l ->
  Permutation l (stable_sort T comp l) /\ sorted_by comp (stable_sort T comp l).
Proof.
  intros H. split; [apply stable_sort_permutation|].
  apply (stable_sort_sorted comp l); auto. apply incl_refl.
Qed.

Lemma insert_before_keeps_before {T} (comp : T -> T -> bool) (x a b : T) (l : list T) :
  before a b l -> before a b (insert_before comp x l).
Proof.
  induction l as [|y t IH]; intros H; [now apply before_nil in H|].
  cbn [insert_before]. destruct (comp y x).
  - apply before_cons_iff in H. apply before_cons_iff.
    destruct H as [[-> H]|H]; [left|right; auto].
    split; [reflexivity|]. apply In_insert_before. now right.
  - apply before_cons_iff. now right.
Qed.

(** An element is inserted before every element that is not less than it. *)
Lemma insert_before_goes_before {T} (comp : T -> T -> bool) (u : list T) (x b : T)
      (l : list T) :
  strict_weak_order_on comp u -> In x u -> incl l u -> sorted_by comp l ->
  In b l -> comp b x = false -> before x b (insert_before comp x l).
Proof.
  intros Hswo Hx Hl Hs. induction Hs as [|y t Hs IH Hall]; intros Hb E; [destruct Hb|].
  assert (Hy : In y u) by (apply Hl; now left).
  assert (Ht : incl t u) by (intros z Hz; apply Hl; now right).
  rewrite Forall_forall in Hall. cbn [insert_before].
  destruct (comp y x) eqn:Eyx.
  - apply before_cons_iff. right. destruct Hb as [->|Hb]; [congruence|]. now apply IH.
  - apply before_cons_iff. left. split; [reflexivity|exact Hb].
Qed.

(** The stable sort keeps the order of two elements unless the second is
    less than the first. *)
Lemma stable_sort_keeps {T} (comp : T -> T -> bool) (u : list T) (a b : T) (l : list T) :
  strict_weak_order_on comp u -> incl l u ->
  before a b l -> comp b a = false -> before a b (stable_sort T comp l).
Proof.
  intros Hswo. induction l as [|y t IH]; intros Hl H E; [now apply before_nil in H|].
  assert (Ht : incl t u) by (intros z Hz; apply Hl; now right).
  cbn. apply before_cons_iff in H as [[-> H]|H].
  - apply (insert_before_goes_before comp u); auto.
    + apply Hl. now left.
    + intros z Hz. apply Ht.
      now apply (Permutation_in _ (Permutation_sym (stable_sort_permutation comp t))).
    + now apply (stable_sort_sorted comp u).
    + now apply (Permutation_in _ (stable_sort_permutation comp t)).
  - apply insert_before_keeps_before. now apply IH.
Qed.

(** With a stable sort, which also meets the contract of [std::sort],
    colours of equal hue keep the order the shuffle gave them. *)
Lemma hue_sort_can_be_stable (a b : Color) :
  v0 (bgr2hsv a) = v0 (bgr2hsv b) ->
  before a b (fst (lehmer_shuffle _ build_colors (lehmer_seed 1))) ->
  before a b (fst (ordered_colors lehmer_seed lehmer_shuffle stable_sort)).
Proof.
  intros Hhue Hb. rewrite ordered_colors_fst.
  pose proof (lehmer_shuffle_permutes _ build_colors (lehmer_seed 1)) as Hperm.
  remember (fst (lehmer_shuffle Color build_colors (lehmer_seed 1))) as shuffled eqn:Es.
  clear Es.
  assert (Hswo : strict_weak_order_on hue_less shuffled).
  { apply (float_key_swo (fun c => v0 (bgr2hsv c))). intros c Hc.
    apply hue_not_nan, build_colors_valid, (Permutation_in _ (Permutation_sym Hperm)), Hc. }
  apply (stable_sort_keeps hue_less shuffled); [exact Hswo|apply incl_refl|exact Hb|].
  unfold hue_less. rewrite <- Hhue. apply ltb_irrefl.
Qed.

(** ** The theorems at work on concrete inputs *)

Lemma grow_steps {Gen : Type} (shuffle : forall T : Type, list T -> Gen -> list T * Gen)
      (s : State Gen) :
  steps shuffle s (placements (grow shuffle s)) (final (grow shuffle s)).
Proof. apply loop_steps. Qed.

Lemma demo_image_ok : canvas_ok demo_image.
Proof.
  intros x y. unfold demo_image. rewrite GetPixel_SetPixel.
  destruct ((y =? 1) && (x =? 1)); [discriminate|reflexivity].
Qed.

Lemma demo_state_well_formed : well_formed demo_state.
Proof.
  split; [|split; [|split]].
  - intros q Hq. apply PS.add_spec in Hq as [->|Hq]; [|now apply PS.empty_spec in Hq].
    unfold in_bounds. cbn. lia.
  - intros [x y] _. reflexivity.
  - intros x y _. reflexivity.
  - intros c Hc. cbn in Hc. destruct Hc as [<-|[<-|[<-|[]]]]; discriminate.
Qed.

Lemma demo_state_colors_NoDup : NoDup (colors demo_state).
Proof.
  cbn. repeat constructor; cbn [In]; intuition discriminate.
Qed.

Lemma pythagoras_image_ok : canvas_ok pythagoras_image.
Proof.
  intros x y. unfold pythagoras_image. rewrite !GetPixel_SetPixel.
  destruct ((y =? 0) && (x =? 1)); [discriminate|].
  destruct ((y =? 0) && (x =? 0)); [discriminate|reflexivity].
Qed.

Lemma pythagoras_image_bytes : canvas_bytes pythagoras_image.
Proof.
  intros x y. unfold pythagoras_image. rewrite !GetPixel_SetPixel.
  change (GetPixel (blank 3 3) x y) with sentinel.
  destruct ((y =? 0) && (x =? 1)); [|destruct ((y =? 0) && (x =? 0))];
    unfold valid_color, valid_channel, sentinel, invalidColor; cbn [v0 v1 v2]; lia.
Qed.

Lemma scorer_cost_witness :
  canvas_ok pythagoras_image /\ canvas_bytes pythagoras_image /\
  valid_color (vec3 10 10 10) /\
  ColorPosDiff pythagoras_image (1, 1) (vec3 10 10 10) =
  PrimFloat.div (fsum [PrimFloat.sqrt (of_int 25); PrimFloat.sqrt (of_int 100)])
                (PrimFloat.mul (of_int 2) (of_int 2)).
Proof.
  assert (Hc : valid_color (vec3 10 10 10)) by (unfold valid_color, valid_channel; cbn; lia).
  split; [exact pythagoras_image_ok|]. split; [exact pythagoras_image_bytes|].
  split; [exact Hc|].
  exact (proj1 (proj2 (scorer_cost pythagoras_image (1, 1) (vec3 10 10 10)
                         pythagoras_image_ok pythagoras_image_bytes Hc))).
Defined.

(** Two neighbours at distances 5 and 10: the cost is 15 / 4. *)
Example pythagoras_cost :
  ColorPosDiff pythagoras_image (1, 1) (vec3 10 10 10) = 3.75%float /\
  ColorDiff (vec3 10 10 10) (vec3 13 14 10) = 5%float /\
  ColorDiff (vec3 10 10 10) (vec3 16 18 10) = 10%float.
Proof. vm_compute. repeat split; reflexivity. Qed.

Lemma palette_sorted_by_hue_witness :
  let shuffled := fst (lehmer_shuffle _ build_colors (lehmer_seed 1)) in
  let ordered := fst (ordered_colors lehmer_seed lehmer_shuffle insertion_sort) in
  Permutation shuffled ordered /\ NoDup ordered /\
  StronglySorted (fun a b => (v0 (bgr2hsv a) <=? v0 (bgr2hsv b))%float = true) ordered.
Proof.
  exact (palette_sorted_by_hue Z lehmer_seed lehmer_shuffle insertion_sort
                               lehmer_shuffle_permutes insertion_sort_contract).
Defined.

Lemma FindBestPos_first_minimum_witness :
  let color := vec3 8 6 2 in
  let cost := fun q => ColorPosDiff tie_image q color in
  let best := cost (2, 0) in
  let rated := map (rate tie_image color) (PS.elements tie_frontier) in
  let shuffled := fst (lehmer_shuffle _ rated (lehmer_seed 25)) in
  PS.is_empty tie_frontier = false /\
  map snd rated = [(0, 0); (2, 0); (3, 0); (5, 0)] /\
  map snd shuffled = [(5, 0); (2, 0); (3, 0); (0, 0)] /\
  cost (0, 0) = best /\
  fst (FindBestPos lehmer_shuffle tie_image tie_frontier color (lehmer_seed 25))
  = Some (2, 0) /\
  (exists l1 l2,
      shuffled = l1 ++ (best, (2, 0)) :: l2 /\ l1 <> [] /\
      (forall rp, In rp l1 -> (best <? fst rp)%float = true) /\
      (forall rp, In rp l2 -> (best <=? fst rp)%float = true)) /\
  (forall q, PS.In q tie_frontier -> (best <=? cost q)%float = true) /\
  PS.In (2, 0) tie_frontier.
Proof.
  intros color cost best rated shuffled.
  destruct (FindBestPos_first_minimum Z lehmer_shuffle lehmer_shuffle_permutes
              tie_image tie_frontier color (lehmer_seed 25) eq_refl)
    as (_ & pos & l1 & l2 & Hf & Hl & H1 & H2 & Hmin & Hin & _).
  assert (Hpos : pos = (2, 0)).
  { assert (E : fst (FindBestPos lehmer_shuffle tie_image tie_frontier color
                                 (lehmer_seed 25)) = Some (2, 0))
      by (vm_compute; reflexivity).
    rewrite Hf in E. cbn [fst] in E. congruence. }
  subst pos. fold rated in Hf, Hl. fold shuffled in Hl.
  split; [reflexivity|]. split; [vm_compute; reflexivity|].
  split; [vm_compute; reflexivity|]. split; [vm_compute; reflexivity|].
  split; [rewrite Hf; reflexivity|]. split; [|split; [exact Hmin|exact Hin]].
  exists l1, l2. split; [exact Hl|]. split; [|split; [exact H1|exact H2]].
  intros ->. cbn [app] in Hl. apply (f_equal (fun l => map snd l)) in Hl.
  assert (E : map snd shuffled = [(5, 0); (2, 0); (3, 0); (0, 0)]) by (vm_compute; reflexivity).
  rewrite E in Hl. discriminate Hl.
Defined.

Lemma growth_terminates_witness :
  frontier_in_bounds demo_state /\
  status (grow lehmer_shuffle demo_state) = Finished.
Proof.
  pose proof (proj1 demo_state_well_formed) as Hb. split; [exact Hb|].
  destruct (growth_terminates Z lehmer_shuffle lehmer_shuffle_permutes demo_state)
    as (_ & _ & _ & _ & H & _).
  exact (proj1 (H Hb)).
Defined.

Lemma frontier_stays_unset_witness :
  well_formed demo_state /\
  forall q, PS.In q (nextPositions (final (grow lehmer_shuffle demo_state))) ->
            in_bounds (image (final (grow lehmer_shuffle demo_state))) q /\
            GetPixelAt (image (final (grow lehmer_shuffle demo_state))) q = sentinel.
Proof.
  split; [exact demo_state_well_formed|].
  exact (proj1 (frontier_stays_unset Z lehmer_shuffle demo_state _ _
                  demo_state_well_formed (grow_steps lehmer_shuffle demo_state))).
Defined.

Lemma placements_unique_witness :
  well_formed demo_state /\ NoDup (colors demo_state) /\
  NoDup (map fst (placements (grow lehmer_shuffle demo_state) ++ [])) /\
  NoDup (map snd (placements (grow lehmer_shuffle demo_state) ++ [])).
Proof.
  split; [exact demo_state_well_formed|]. split; [exact demo_state_colors_NoDup|].
  destruct (placements_unique Z lehmer_shuffle demo_state _ _ _ []
              demo_state_well_formed demo_state_colors_NoDup
              (grow_steps lehmer_shuffle demo_state)
              (steps_refl Z lehmer_shuffle _)) as (H1 & H2 & _).
  split; assumption.
Defined.


(** The demo run, evaluated: three placements, the palette drained. *)
Example demo_run :
  placements (grow lehmer_shuffle demo_state) =
    [((1, 1), vec3 12 2 6); ((0, 2), vec3 8 6 2); ((0, 1), vec3 4 2 2)] /\
  status (grow lehmer_shuffle demo_state) = Finished /\
  colors (final (grow lehmer_shuffle demo_state)) = [] /\
  PS.elements (nextPositions (final (grow lehmer_shuffle demo_state))) =
    [(0, 0); (1, 0); (1, 2); (2, 0); (2, 1); (2, 2)].
Proof. vm_compute. repeat split; reflexivity. Qed.

(** On a canvas of one cell the frontier runs out with colours left. *)
Example boxed_in_run :
  let s := mkState [vec3 4 2 2; vec3 8 6 2] (blank 1 1) (PS.add (0, 0) PS.empty)
                   (lehmer_seed 1) in
  placements (grow lehmer_shuffle s) = [((0, 0), vec3 8 6 2)] /\
  status (grow lehmer_shuffle s) = Finished /\
  colors (final (grow lehmer_shuffle s)) = [vec3 4 2 2] /\
  PS.is_empty (nextPositions (final (grow lehmer_shuffle s))) = true.
Proof. vm_compute. repeat split; reflexivity. Qed.

(** * Further properties of the code *)

(** ** [min3], [max3] and [bgr2hsv] *)

Lemma max3_Z (a b c : Z) : max3 Z.ltb a b c = Z.max (Z.max a b) c.
Proof.
  unfold max3, std_max. destruct (Z.ltb_spec a b).
  - destruct (Z.ltb_spec b c); lia.
  - destruct (Z.ltb_spec a c); lia.
Qed.

Lemma min3_Z (a b c : Z) : min3 Z.ltb a b c = Z.min (Z.min a b) c.
Proof.
  unfold min3, std_min. destruct (Z.ltb_spec b a).
  - destruct (Z.ltb_spec c b); lia.
  - destruct (Z.ltb_spec c a); lia.
Qed.

(** X1: on integers [max3] and [min3] return the largest and the smallest of
    their three arguments; the smallest never exceeds the largest, and the
    two coincide exactly when the three arguments are equal. *)
Theorem max3_min3_on_integers (a b c : Z) :
  max3 Z.ltb a b c = Z.max (Z.max a b) c /\
  min3 Z.ltb a b c = Z.min (Z.min a b) c /\
  min3 Z.ltb a b c <= max3 Z.ltb a b c /\
  (max3 Z.ltb a b c = min3 Z.ltb a b c <-> a = b /\ b = c).
Proof.
  rewrite max3_Z, min3_Z. repeat split; lia.
Qed.

(** Scaling a channel is strictly monotone, and two scaled channels differ
    by zero only when they are equal. *)
Lemma chan_order (i j : Z) :
  0 <= i < 256 -> 0 <= j < 256 ->
  (chan i <? chan j)%float = (i <? j) /\
  (chan i - chan j =? 0)%float = (i =? j) /\
  (chan i =? 0)%float = (i =? 0).
Proof.
  intros Hi Hj.
  assert (H : forallb (fun i => forallb (fun j =>
                Bool.eqb (chan i <? chan j)%float (i <? j) &&
                Bool.eqb (chan i - chan j =? 0)%float (i =? j) &&
                Bool.eqb (chan i =? 0)%float (i =? 0))
                (Zrange 0 256)) (Zrange 0 256) = true) by (vm_compute; reflexivity).
  rewrite forallb_forall in H. specialize (H i (proj2 (In_Zrange 0 256 i) Hi)).
  rewrite forallb_forall in H. specialize (H j (proj2 (In_Zrange 0 256 j) Hj)).
  rewrite !andb_true_iff in H. destruct H as [[H1 H2] H3].
  apply eqb_prop in H1, H2, H3. auto.
Qed.

Lemma max3_chan (r g b : Z) :
  0 <= r < 256 -> 0 <= g < 256 -> 0 <= b < 256 ->
  max3 PrimFloat.ltb (chan r) (chan g) (chan b) = chan (Z.max (Z.max r g) b).
Proof.
  intros Hr Hg Hb. rewrite <- max3_Z. unfold max3, std_max.
  rewrite (proj1 (chan_order r g Hr Hg)). destruct (r <? g).
  - rewrite (proj1 (chan_order g b Hg Hb)). now destruct (g <? b).
  - rewrite (proj1 (chan_order r b Hr Hb)). now destruct (r <? b).
Qed.

Lemma min3_chan (r g b : Z) :
  0 <= r < 256 -> 0 <= g < 256 -> 0 <= b < 256 ->
  min3 PrimFloat.ltb (chan r) (chan g) (chan b) = chan (Z.min (Z.min r g) b).
Proof.
  intros Hr Hg Hb. rewrite <- min3_Z. unfold min3, std_min.
  rewrite (proj1 (chan_order g r Hg Hr)). destruct (g <? r).
  - rewrite (proj1 (chan_order b g Hb Hg)). now destruct (b <? g).
  - rewrite (proj1 (chan_order b r Hb Hr)). now destruct (b <? r).
Qed.

Lemma bgr2hsv_cases (c : Color) :
  valid_color c ->
  bgr2hsv c =
  if max_channel c =? min_channel c then vec3 0%float 0%float 0%float
  else vec3 (if (sector_hue c <? 0)%float then (sector_hue c + 360)%float else sector_hue c)
            ((chan (max_channel c) - chan (min_channel c)) / chan (max_channel c))%float
            (chan (max_channel c)).
Proof.
  intros (Hb & Hg & Hr). unfold valid_channel in *. unfold bgr2hsv.
  fold (chan (v0 c)) (chan (v1 c)) (chan (v2 c)).
  rewrite max3_chan, min3_chan, max3_Z by assumption.
  fold (max_channel c) (min_channel c).
  assert (HM : 0 <= max_channel c < 256) by (unfold max_channel; lia).
  assert (Hm : 0 <= min_channel c < 256) by (unfold min_channel; lia).
  destruct (chan_order (max_channel c) (min_channel c) HM Hm) as (_ & -> & E0).
  destruct (Z.eqb_spec (max_channel c) (min_channel c)) as [E|E]; [reflexivity|].
  rewrite E0.
  assert (HM0 : (max_channel c =? 0) = false).
  { apply Z.eqb_neq. unfold max_channel, min_channel in *. lia. }
  rewrite HM0. unfold sector_hue.
  destruct (Z.eqb_spec (max_channel c) (v2 c)); [reflexivity|].
  destruct (Z.eqb_spec (max_channel c) (v1 c)); [reflexivity|].
  destruct (Z.eqb_spec (max_channel c) (v0 c)); [reflexivity|].
  unfold max_channel in *. lia.
Qed.

(** X2: [bgr2hsv] returns the early result (0, 0, 0) exactly for the greys,
    the colours whose three channels are equal. *)
Theorem bgr2hsv_grey (c : Color) :
  valid_color c ->
  (bgr2hsv c = vec3 0%float 0%float 0%float <-> v0 c = v1 c /\ v1 c = v2 c).
Proof.
  intros Hc. rewrite (bgr2hsv_cases c Hc).
  destruct Hc as (Hb & Hg & Hr). unfold valid_channel in *.
  destruct (Z.eqb_spec (max_channel c) (min_channel c)) as [E|E].
  - split; [|reflexivity]. intros _. unfold max_channel, min_channel in E. lia.
  - split.
    + intros H. apply (f_equal v2) in H. cbn [v2] in H.
      assert (HM : 0 <= max_channel c < 256) by (unfold max_channel; lia).
      destruct (chan_order (max_channel c) (max_channel c) HM HM) as (_ & _ & E0).
      rewrite H in E0. change (0 =? 0)%float with true in E0.
      symmetry in E0. apply Z.eqb_eq in E0.
      unfold max_channel, min_channel in *. lia.
    + intros [H1 H2]. unfold max_channel, min_channel in E. lia.
Qed.

(** X3: for a colour that is not grey the value is the largest channel
    scaled by 255, the saturation is the spread of the scaled channels
    divided by the value, and the hue is the sector formula selected by
    the largest channel, raised by 360 when it is negative; the divisor of
    these formulas is positive. *)
Theorem bgr2hsv_coloured (c : Color) :
  valid_color c -> max_channel c <> min_channel c ->
  v2 (bgr2hsv c) = chan (max_channel c) /\
  v1 (bgr2hsv c) =
    ((chan (max_channel c) - chan (min_channel c)) / chan (max_channel c))%float /\
  v0 (bgr2hsv c) =
    (if (sector_hue c <? 0)%float then (sector_hue c + 360)%float else sector_hue c) /\
  (chan (min_channel c) <? chan (max_channel c))%float = true.
Proof.
  intros Hc Hne. rewrite (bgr2hsv_cases c Hc).
  destruct (Z.eqb_spec (max_channel c) (min_channel c)) as [E|_]; [contradiction|].
  cbn [v0 v1 v2]. repeat split.
  destruct Hc as (Hb & Hg & Hr). unfold valid_channel in *.
  rewrite (proj1 (chan_order (min_channel c) (max_channel c)
                             ltac:(unfold min_channel; lia) ltac:(unfold max_channel; lia))).
  apply Z.ltb_lt. unfold max_channel, min_channel in *. lia.
Qed.

(** X4: on colours made of bytes the comparator handed to [std::sort] is a
    strict weak ordering, as [std::sort] requires: no hue is a NaN.  The
    branch of [bgr2hsv] that holds [assert(false)] is never taken. *)
Theorem hue_less_strict_weak_order (l : list Color) :
  (forall c, In c l -> valid_color c) ->
  strict_weak_order_on hue_less l /\
  (forall c, In c l -> not_nan (v0 (bgr2hsv c))) /\
  (forall c, (max3 Z.ltb (v2 c) (v1 c) (v0 c) =? v2 c) ||
             (max3 Z.ltb (v2 c) (v1 c) (v0 c) =? v1 c) ||
             (max3 Z.ltb (v2 c) (v1 c) (v0 c) =? v0 c) = true).
Proof.
  intros H. split; [|split].
  - apply (float_key_swo (fun c => v0 (bgr2hsv c))). intros c Hc. apply hue_not_nan, H, Hc.
  - intros c Hc. apply hue_not_nan, H, Hc.
  - intros c. apply bgr2hsv_assert_unreachable.
Qed.

(** ** [ColorDiff], [ColorPosDiff] and [GetFreeNeighbours] *)

Lemma of_int_opp (z : Z) : z <> 0 -> of_int (- z) = (- of_int z)%float.
Proof.
  intros Hz. unfold of_int.
  destruct (Z.ltb_spec z 0), (Z.ltb_spec (- z) 0); try lia.
  - apply Prim2SF_inj. rewrite !opp_spec.
    destruct (Prim2SF _) as [[]|[]| |[] m e]; reflexivity.
  - rewrite Z.opp_involutive. reflexivity.
Qed.

Lemma SFmul_opp_opp (x : spec_float) : SF64mul (SFopp x) (SFopp x) = SF64mul x x.
Proof. destruct x as [[]|[]| |[] m e]; reflexivity. Qed.

Lemma square_of_int_opp (z : Z) :
  (of_int (- z) * of_int (- z))%float = (of_int z * of_int z)%float.
Proof.
  destruct (Z.eq_dec z 0) as [->|Hz]; [reflexivity|].
  rewrite (of_int_opp z Hz). apply Prim2SF_inj.
  rewrite !mul_spec, opp_spec. apply SFmul_opp_opp.
Qed.

(** X5: [ColorDiff] does not depend on the order of its two arguments, is 0
    for two equal colours and is never negative nor a NaN. *)
Theorem ColorDiff_symmetric (bgr1 bgr2 : Color) :
  ColorDiff bgr1 bgr2 = ColorDiff bgr2 bgr1 /\
  ColorDiff bgr1 bgr1 = 0%float /\
  nn (ColorDiff bgr1 bgr2).
Proof.
  split; [|split].
  - unfold ColorDiff.
    replace (v0 bgr1 - v0 bgr2) with (- (v0 bgr2 - v0 bgr1)) by lia.
    replace (v1 bgr1 - v1 bgr2) with (- (v1 bgr2 - v1 bgr1)) by lia.
    replace (v2 bgr1 - v2 bgr2) with (- (v2 bgr2 - v2 bgr1)) by lia.
    now rewrite !square_of_int_opp.
  - unfold ColorDiff. rewrite !Z.sub_diag. reflexivity.
  - apply ColorDiff_nn.
Qed.

Lemma fold_left_ext_on {A B} (f g : A -> B -> A) (l : list B) (a : A) :
  (forall a b, In b l -> f a b = g a b) -> fold_left f l a = fold_left g l a.
Proof.
  revert a. induction l as [|b l IH]; intros a H; cbn [fold_left]; auto.
  rewrite H by now left. apply IH. intros a' b' Hb'. apply H. now right.
Qed.

Lemma score_cell_elsewhere (img : Mat Color) (x y : Z) (c k : Color)
      (acc : float * Z) (q : Pos) :
  q <> (x, y) -> score_cell (SetPixel img x y c) k acc q = score_cell img k acc q.
Proof.
  intros Hq. destruct acc as [d n], q as [x' y']. unfold score_cell.
  change (out_of_image (SetPixel img x y c) x' y') with (out_of_image img x' y').
  rewrite GetPixel_SetPixel.
  destruct (Z.eqb_spec y' y), (Z.eqb_spec x' x); cbn [andb]; try reflexivity.
  subst. contradiction.
Qed.

(** X6: the cost [ColorPosDiff] is never negative nor a NaN, and it reads
    only the 3x3 block around the position: painting a cell outside the
    block, or outside the image, leaves it unchanged. *)
Theorem ColorPosDiff_local (img : Mat Color) (pos : Pos) (color : Color) :
  nn (ColorPosDiff img pos color) /\
  (ColorPosDiff img pos color <? 0)%float = false /\
  (forall x y c,
      Z.max (Z.abs (x - fst pos)) (Z.abs (y - snd pos)) > spread ->
      ColorPosDiff (SetPixel img x y c) pos color = ColorPosDiff img pos color) /\
  (forall x y c,
      out_of_image img x y = true ->
      ColorPosDiff (SetPixel img x y c) pos color = ColorPosDiff img pos color).
Proof.
  pose proof (ColorPosDiff_nn img pos color) as Hnn.
  split; [exact Hnn|]. split; [|split].
  - rewrite ltb_spec. unfold nn in Hnn. change (Prim2SF 0) with (S754_zero false).
    destruct (Prim2SF (ColorPosDiff img pos color)) as [s|s| |s m e];
      cbn in *; try contradiction; subst; reflexivity.
  - intros x y c Hfar. rewrite !ColorPosDiff_fold.
    rewrite (fold_left_ext_on (score_cell (SetPixel img x y c) color) (score_cell img color));
      [reflexivity|].
    intros acc q Hq. apply score_cell_elsewhere. intros ->.
    apply In_neighbours in Hq. cbn [fst snd] in Hq. lia.
  - intros x y c Hout. rewrite !ColorPosDiff_fold.
    rewrite (fold_left_ext_on (score_cell (SetPixel img x y c) color) (score_cell img color));
      [reflexivity|].
    intros [d n] [x' y'] _. unfold score_cell.
    change (out_of_image (SetPixel img x y c) x' y') with (out_of_image img x' y').
    destruct (out_of_image img x' y') eqn:E; [reflexivity|].
    rewrite GetPixel_SetPixel.
    destruct (Z.eqb_spec y' y), (Z.eqb_spec x' x); cbn [andb]; try reflexivity.
    subst. congruence.
Qed.

Lemma NoDup_elements (s : PS.t) : NoDup (PS.elements s).
Proof.
  pose proof (PS.elements_spec2w s) as H. induction H as [|x l Hx H IH]; constructor; auto.
  intros Hin. apply Hx. apply InA_alt. exists x. split; [reflexivity|exact Hin].
Qed.

(** X7: [GetFreeNeighbours] returns at most nine positions, exactly those of
    the 3x3 block that lie in the image and whose first channel is
    [invalidColor]; the centre itself is among them when it is an unset cell
    of the image, and is not once it has been painted. *)
Theorem GetFreeNeighbours_block (image : Mat Color) (pos : Pos) :
  (PS.cardinal (GetFreeNeighbours image pos) <= 9)%nat /\
  (forall q, PS.In q (GetFreeNeighbours image pos) <->
             Z.max (Z.abs (fst q - fst pos)) (Z.abs (snd q - snd pos)) <= spread /\
             in_bounds image q /\ v0 (GetPixelAt image q) = invalidColor) /\
  (forall color, v0 color <> invalidColor ->
                 ~ PS.In pos (GetFreeNeighbours
                                (SetPixel image (fst pos) (snd pos) color) pos)) /\
  (PS.In pos (GetFreeNeighbours image pos) <->
   in_bounds image pos /\ v0 (GetPixelAt image pos) = invalidColor).
Proof.
  assert (Hspec : forall img q, PS.In q (GetFreeNeighbours img pos) <->
             Z.max (Z.abs (fst q - fst pos)) (Z.abs (snd q - snd pos)) <= spread /\
             in_bounds img q /\ v0 (GetPixelAt img q) = invalidColor).
  { intros img q. rewrite GetFreeNeighbours_spec, In_neighbours, is_free_spec. tauto. }
  split; [|split; [apply Hspec|split]].
  - rewrite PS.cardinal_spec, <- (length_neighbours pos).
    apply NoDup_incl_length; [apply NoDup_elements|].
    intros q Hq. apply In_elements, GetFreeNeighbours_spec in Hq. tauto.
  - intros color Hc Hin. apply Hspec in Hin as (_ & _ & Hin).
    rewrite GetPixelAt_SetPixel in Hin.
    destruct (PosOT.eq_dec pos pos) as [_|E]; [contradiction|]. now apply E.
  - rewrite Hspec. unfold spread.
    assert (Z.max (Z.abs (fst pos - fst pos)) (Z.abs (snd pos - snd pos)) <= 1) by lia.
    tauto.
Qed.

(** ** Runs of the growth loop *)

Lemma In_all_cells {T} (img : Mat T) (q : Pos) : In q (all_cells img) <-> in_bounds img q.
Proof.
  unfold all_cells, in_bounds. rewrite in_flat_map. destruct q as [x y]. cbn [fst snd]. split.
  - intros (y' & Hy & Hq). apply in_map_iff in Hq as (x' & E & Hx).
    injection E as <- <-. apply In_Zrange in Hy, Hx. lia.
  - intros [Hx Hy]. exists y. split; [apply In_Zrange; lia|].
    apply in_map_iff. exists x. split; [reflexivity|apply In_Zrange; lia].
Qed.

Lemma NoDup_all_cells {T} (img : Mat T) : NoDup (all_cells img).
Proof.
  unfold all_cells. apply NoDup_flat_map; [apply NoDup_Zrange|..].
  - intros y _. apply NoDup_map_NoDup_ForallPairs; [|apply NoDup_Zrange].
    intros x x' _ _ E. now injection E.
  - intros y y' q _ _ H H'.
    apply in_map_iff in H as (x & <- & _), H' as (x' & E & _). now injection E.
Qed.

Lemma length_flat_map_const {A B} (f : A -> list B) (l : list A) (n : nat) :
  (forall a, In a l -> length (f a) = n) ->
  length (flat_map f l) = (length l * n)%nat.
Proof.
  induction l as [|a l IH]; intros H; cbn [flat_map length]; [reflexivity|].
  rewrite length_app, H, IH; [lia| |now left]. intros a' Ha'. apply H. now right.
Qed.

Lemma length_all_cells {T} (img : Mat T) :
  Z.of_nat (length (all_cells img)) = Z.max 0 (rows img) * Z.max 0 (cols img).
Proof.
  unfold all_cells.
  rewrite (length_flat_map_const _ _ (Z.to_nat (cols img - 0))).
  - rewrite length_Zrange, Nat2Z.inj_mul. f_equal; lia.
  - intros y _. now rewrite length_map, length_Zrange.
Qed.

Lemma length_build_colors : Z.of_nat (length build_colors) = 1016127.
Proof.
  unfold build_colors.
  rewrite (length_flat_map_const _ _ (Z.to_nat 127 * Z.to_nat 127)).
  - rewrite length_Zrange, !Nat2Z.inj_mul. unfold colValues. lia.
  - intros b _. rewrite (length_flat_map_const _ _ (Z.to_nat 127)).
    + rewrite length_Zrange. unfold colValues. f_equal.
    + intros g _. rewrite length_map, length_Zrange. reflexivity.
Qed.

Lemma StronglySorted_app_inv {T} (R : T -> T -> Prop) (l1 l2 : list T) :
  StronglySorted R (l1 ++ l2) ->
  StronglySorted R l1 /\ StronglySorted R l2 /\
  (forall a b, In a l1 -> In b l2 -> R a b).
Proof.
  induction l1 as [|x l1 IH]; cbn [app]; intros H.
  - split; [constructor|]. split; [exact H|]. intros a b [].
  - apply StronglySorted_inv in H as [H Hx]. destruct (IH H) as (H1 & H2 & H12).
    rewrite Forall_forall in Hx. split; [|split; [exact H2|]].
    + constructor; [exact H1|]. apply Forall_forall. intros y Hy. apply Hx.
      rewrite in_app_iff. now left.
    + intros a b [<-|Ha] Hb; [|now apply H12]. apply Hx. rewrite in_app_iff. now right.
Qed.

Lemma StronglySorted_rev {T} (R : T -> T -> Prop) (l : list T) :
  StronglySorted R (rev l) -> StronglySorted (fun a b => R b a) l.
Proof.
  induction l as [|x l IH]; cbn [rev]; intros H; [constructor|].
  apply StronglySorted_app_inv in H as (H1 & _ & H12).
  constructor; [now apply IH|]. apply Forall_forall. intros y Hy.
  apply H12; [now apply in_rev in Hy|now left].
Qed.

Section RunFacts.

Variable Gen : Type.
Variable mt19937 : Z -> Gen.
Variable shuffle : forall T : Type, list T -> Gen -> list T * Gen.
Variable sort : forall T : Type, (T -> T -> bool) -> list T -> list T.

Hypothesis shuffle_permutes :
  forall (T : Type) (l : list T) (g : Gen), Permutation l (fst (shuffle T l g)).

Hypothesis sort_contract :
  forall (T : Type) (comp : T -> T -> bool) (l : list T),
    strict_weak_order_on comp l ->
    Permutation l (sort T comp l) /\ sorted_by comp (sort T comp l).

Lemma steps_dims (s s' : State Gen) (tr : list (Pos * Color)) :
  steps shuffle s tr s' ->
  rows (image s') = rows (image s) /\ cols (image s') = cols (image s).
Proof.
  induction 1 as [s|s s1 s2 placed tr Hit Hst IH]; [auto|].
  apply iteration_Continue in Hit as (_ & _ & _ & _ & _ & Himg & _).
  rewrite Himg in IH. exact IH.
Qed.

Lemma steps_in_bounds (s s' : State Gen) (tr : list (Pos * Color)) :
  steps shuffle s tr s' -> forall p, In p (map fst tr) -> in_bounds (image s) p.
Proof.
  induction 1 as [s|s s1 s2 placed tr Hit Hst IH]; intros p Hp; [destruct Hp|].
  apply iteration_Continue in Hit as (_ & _ & _ & _ & Hpb & Himg & _).
  destruct Hp as [<-|Hp]; [exact Hpb|].
  specialize (IH p Hp). rewrite Himg in IH. exact IH.
Qed.

Lemma steps_colors_used (s s' : State Gen) (tr : list (Pos * Color)) :
  steps shuffle s tr s' -> forall c, In c (map snd tr) -> In c (colors s).
Proof.
  intros Hst c Hc. rewrite (steps_colors _ _ _ _ _ Hst), in_app_iff. right.
  now apply in_rev in Hc.
Qed.

Lemma steps_length (s s' : State Gen) (tr : list (Pos * Color)) :
  steps shuffle s tr s' ->
  (length (colors s) = length (colors s') + length tr)%nat.
Proof.
  intros Hst. rewrite (steps_colors _ _ _ _ _ Hst), length_app, length_rev, length_map.
  reflexivity.
Qed.

Lemma steps_painted (s s' : State Gen) (tr : list (Pos * Color)) :
  steps shuffle s tr s' -> well_formed s ->
  forall p c, In (p, c) tr -> GetPixelAt (image s') p = c.
Proof.
  induction 1 as [s|s s1 s2 placed tr Hit Hst IH]; intros Hwf p c Hin; [destruct Hin|].
  pose proof (well_formed_step _ _ _ _ _ Hwf Hit) as Hwf1.
  destruct Hin as [->|Hin]; [|now apply IH].
  assert (Hnd : NoDup (map fst ((p, c) :: tr))).
  { apply (steps_positions_NoDup _ shuffle s s2); [|exact Hwf]. econstructor; eauto. }
  cbn [map fst] in Hnd. apply NoDup_cons_iff in Hnd as [Hnot _].
  rewrite (steps_untouched _ _ _ _ _ Hst p Hnot).
  apply iteration_Continue in Hit as (_ & _ & _ & _ & _ & Himg & _).
  cbn [fst snd] in Himg. rewrite Himg, GetPixelAt_SetPixel.
  destruct (PosOT.eq_dec p p) as [_|E]; [reflexivity|now contradiction E].
Qed.

Lemma steps_painted_nonsentinel (s s' : State Gen) (tr : list (Pos * Color)) :
  steps shuffle s tr s' -> well_formed s ->
  forall p, In p (map fst tr) -> v0 (GetPixelAt (image s') p) <> invalidColor.
Proof.
  intros Hst Hwf p Hp. apply in_map_iff in Hp as ([p' c] & <- & Hin). cbn [fst].
  rewrite (steps_painted _ _ _ Hst Hwf _ _ Hin).
  destruct Hwf as (_ & _ & _ & Hpal). apply Hpal.
  apply (steps_colors_used _ _ _ Hst). apply in_map_iff. now exists (p', c).
Qed.

(** The frontier of a state of a run: the unset in-bounds cells that were in
    the first frontier or touch a cell painted since. *)
Lemma frontier_char (s0 s : State Gen) (tr : list (Pos * Color)) :
  steps shuffle s0 tr s -> well_formed s0 ->
  forall q,
    PS.In q (nextPositions s) <->
    in_bounds (image s) q /\ GetPixelAt (image s) q = sentinel /\
    (PS.In q (nextPositions s0) \/ exists p, In p (map fst tr) /\ In q (neighbours p)).
Proof.
  induction 1 as [s|s s1 s2 placed tr Hit Hst IH]; intros Hwf q.
  - destruct Hwf as (Hb & Hu & _). split.
    + intros Hq. auto.
    + intros (_ & _ & [Hq|(p & [] & _)]). exact Hq.
  - pose proof (well_formed_step _ _ _ _ _ Hwf Hit) as Hwf1.
    assert (Hall : steps shuffle s (placed :: tr) s2) by (econstructor; eauto).
    rewrite (IH Hwf1 q).
    pose proof (iteration_Continue _ _ _ _ _ Hit) as (_ & _ & _ & _ & _ & Himg & Hnext).
    destruct (steps_dims _ _ _ Hst) as [Hr Hc].
    split.
    + intros (Hb & Hs & [H1|(p & Hp & Hq)]).
      * split; [exact Hb|]. split; [exact Hs|].
        apply Hnext in H1 as [[H1 _]|H1]; [now left|right].
        exists (fst placed). split; [now left|].
        now apply GetFreeNeighbours_spec in H1.
      * split; [exact Hb|]. split; [exact Hs|]. right. exists p. split; [now right|exact Hq].
    + intros (Hb & Hs & Hfrom). split; [exact Hb|]. split; [exact Hs|].
      assert (Hq1 : GetPixelAt (image s1) q = sentinel /\ q <> fst placed).
      { assert (Hnot : ~ In q (map fst (placed :: tr))).
        { intros Hin. apply (steps_painted_nonsentinel _ _ _ Hall Hwf q Hin).
          now rewrite Hs. }
        cbn [map In] in Hnot. split; [|intros ->; tauto].
        rewrite <- (steps_untouched _ _ _ _ _ Hst q); [exact Hs|tauto]. }
      destruct Hq1 as [Hs1 Hne].
      destruct Hfrom as [H0|(p & [<-|Hp] & Hq)].
      * left. apply Hnext. now left.
      * left. apply Hnext. right. apply GetFreeNeighbours_spec. split; [exact Hq|].
        apply is_free_spec. split.
        -- unfold in_bounds in *. rewrite <- Hr, <- Hc. exact Hb.
        -- now rewrite Hs1.
      * right. now exists p.
Qed.

(** Once the frontier is empty every cell within [n] steps of a painted
    cell is painted. *)
Lemma painted_spreads (s0 s : State Gen) (tr : list (Pos * Color)) (p0 : Pos) :
  steps shuffle s0 tr s -> well_formed s0 ->
  (forall x y, GetPixel (image s0) x y = sentinel) ->
  PS.is_empty (nextPositions s) = true ->
  In p0 (map fst tr) ->
  forall (n : nat) (q : Pos),
    Z.abs (fst q - fst p0) + Z.abs (snd q - snd p0) <= Z.of_nat n ->
    in_bounds (image s) q -> In q (map fst tr).
Proof.
  intros Hst Hwf Hblank Hempty Hp0.
  destruct (steps_dims _ _ _ Hst) as [Hr Hc].
  assert (Hb0 : in_bounds (image s) p0).
  { pose proof (steps_in_bounds _ _ _ Hst p0 Hp0) as H. unfold in_bounds in *.
    now rewrite Hr, Hc. }
  assert (Hnext : forall q' q, In q' (map fst tr) -> In q (neighbours q') ->
                               in_bounds (image s) q -> In q (map fst tr)).
  { intros q' q Hq' Hadj Hb.
    destruct (in_dec PosOT.eq_dec q (map fst tr)) as [Hin|Hnot]; [exact Hin|exfalso].
    apply PS.is_empty_spec in Hempty. apply (Hempty q).
    apply (frontier_char _ _ _ Hst Hwf). split; [exact Hb|]. split.
    - rewrite (steps_untouched _ _ _ _ _ Hst q Hnot). destruct q. apply Hblank.
    - right. now exists q'. }
  induction n as [|n IH]; intros [x y] Hd Hb; destruct p0 as [x0 y0]; cbn [fst snd] in *.
  - assert (x = x0 /\ y = y0) as [-> ->] by lia. exact Hp0.
  - destruct (Z.le_gt_cases (Z.abs (x - x0) + Z.abs (y - y0)) (Z.of_nat n)) as [Hle|Hgt];
      [now apply IH|].
    unfold in_bounds in Hb, Hb0. cbn [fst snd] in Hb, Hb0.
    assert (Hstep : exists x' y',
               Z.abs (x' - x0) + Z.abs (y' - y0) <= Z.of_nat n /\
               (0 <= x' < cols (image s) /\ 0 <= y' < rows (image s)) /\
               Z.max (Z.abs (x - x')) (Z.abs (y - y')) <= 1).
    { destruct (Z.lt_trichotomy x x0) as [H|[H|H]].
      - exists (x + 1), y. lia.
      - destruct (Z.lt_trichotomy y y0) as [H'|[H'|H']].
        + exists x, (y + 1). lia.
        + lia.
        + exists x, (y - 1). lia.
      - exists (x - 1), y. lia. }
    destruct Hstep as (x' & y' & Hd' & Hb' & Hadj).
    apply (Hnext (x', y')).
    + apply IH; [exact Hd'|exact Hb'].
    + apply In_neighbours. exact Hadj.
    + exact Hb.
Qed.

Lemma steps_fills_canvas (s0 s : State Gen) (tr : list (Pos * Color)) :
  steps shuffle s0 tr s -> well_formed s0 ->
  (forall x y, GetPixel (image s0) x y = sentinel) ->
  tr <> [] -> PS.is_empty (nextPositions s) = true ->
  (forall q, in_bounds (image s) q -> In q (map fst tr)) /\
  Z.of_nat (length tr) = rows (image s) * cols (image s).
Proof.
  intros Hst Hwf Hblank Hne Hempty.
  destruct tr as [|[p0 c0] tr']; [congruence|].
  assert (Hp0 : In p0 (map fst ((p0, c0) :: tr'))) by now left.
  assert (Hall : forall q, in_bounds (image s) q -> In q (map fst ((p0, c0) :: tr'))).
  { intros q Hq.
    apply (painted_spreads _ _ _ p0 Hst Hwf Hblank Hempty Hp0
             (Z.to_nat (Z.abs (fst q - fst p0) + Z.abs (snd q - snd p0)))); [lia|exact Hq]. }
  split; [exact Hall|].
  destruct (steps_dims _ _ _ Hst) as [Hr Hc].
  pose proof (steps_in_bounds _ _ _ Hst p0 Hp0) as Hb0.
  assert (Hlen : length (map fst ((p0, c0) :: tr')) = length (all_cells (image s))).
  { apply Nat.le_antisymm; apply NoDup_incl_length.
    - apply (steps_positions_NoDup _ _ _ _ _ Hst Hwf).
    - intros q Hq. apply In_all_cells. pose proof (steps_in_bounds _ _ _ Hst q Hq) as H.
      unfold in_bounds in *. now rewrite Hr, Hc.
    - apply NoDup_all_cells.
    - intros q Hq. apply Hall. now apply In_all_cells. }
  rewrite length_map in Hlen. rewrite Hlen, length_all_cells.
  unfold in_bounds in Hb0. rewrite Hr, Hc. lia.
Qed.


Lemma steps_nil_inv (s0 s : State Gen) : steps shuffle s0 [] s -> s = s0.
Proof. intros H. now inversion H. Qed.

(** *** The run, read off its placements *)

(** X8: the loop takes its colours from the back of the palette: what is left
    of the palette followed by the placed colours in reverse order is the
    palette the run started with, and each pass removes exactly the last
    colour. *)
Theorem placements_pop_the_palette (s0 s : State Gen) (tr : list (Pos * Color)) :
  steps shuffle s0 tr s ->
  colors s0 = colors s ++ rev (map snd tr) /\
  (length (colors s0) = length (colors s) + length tr)%nat /\
  (forall placed s', iteration shuffle s = Continue placed s' ->
                     colors s = colors s' ++ [snd placed]).
Proof.
  intros Hst. split; [exact (steps_colors _ _ _ _ _ Hst)|]. split; [exact (steps_length _ _ _ Hst)|].
  intros placed s' Hit. now apply iteration_Continue in Hit.
Qed.

(** X9: a run keeps the size of the canvas; at its end every placement shows
    its colour at its position and every other cell holds what it held
    before the run. *)
Theorem canvas_is_the_placements (s0 s : State Gen) (tr : list (Pos * Color)) :
  well_formed s0 -> steps shuffle s0 tr s ->
  rows (image s) = rows (image s0) /\ cols (image s) = cols (image s0) /\
  (forall p c, In (p, c) tr -> GetPixelAt (image s) p = c) /\
  (forall p, ~ In p (map fst tr) -> GetPixelAt (image s) p = GetPixelAt (image s0) p).
Proof.
  intros Hwf Hst. destruct (steps_dims _ _ _ Hst) as [Hr Hc].
  split; [exact Hr|]. split; [exact Hc|]. split.
  - exact (steps_painted _ _ _ Hst Hwf).
  - exact (steps_untouched _ _ _ _ _ Hst).
Qed.

(** X10: at every point of a run the frontier is exactly the set of in-bounds
    sentinel cells that were in the frontier at the start or lie within
    Chebyshev distance [spread] of a placed position. *)
Theorem frontier_is_the_open_border (s0 s : State Gen) (tr : list (Pos * Color)) :
  well_formed s0 -> steps shuffle s0 tr s ->
  forall q,
    PS.In q (nextPositions s) <->
    in_bounds (image s) q /\ GetPixelAt (image s) q = sentinel /\
    (PS.In q (nextPositions s0) \/
     exists p c, In (p, c) tr /\
                 Z.max (Z.abs (fst q - fst p)) (Z.abs (snd q - snd p)) <= spread).
Proof.
  intros Hwf Hst q. rewrite (frontier_char _ _ _ Hst Hwf q).
  assert (H : (exists p, In p (map fst tr) /\ In q (neighbours p)) <->
              (exists p c, In (p, c) tr /\
                 Z.max (Z.abs (fst q - fst p)) (Z.abs (snd q - snd p)) <= spread)).
  { split.
    - intros (p & Hp & Hq). apply in_map_iff in Hp as ([p' c] & <- & Hin).
      exists p', c. split; [exact Hin|]. now apply In_neighbours.
    - intros (p & c & Hin & Hq). exists p. split; [|now apply In_neighbours].
      apply in_map_iff. now exists (p, c). }
  rewrite H. reflexivity.
Qed.

(** X11: every position a run paints lies inside the canvas, and a run makes
    no more placements than the canvas has cells nor than the palette has
    colours. *)
Theorem placements_fit_the_canvas (s0 s : State Gen) (tr : list (Pos * Color)) :
  well_formed s0 -> steps shuffle s0 tr s ->
  (forall p c, In (p, c) tr -> in_bounds (image s0) p) /\
  Z.of_nat (length tr) <= Z.max 0 (rows (image s0)) * Z.max 0 (cols (image s0)) /\
  (length tr <= length (colors s0))%nat.
Proof.
  intros Hwf Hst. split; [|split].
  - intros p c Hin. apply (steps_in_bounds _ _ _ Hst). apply in_map_iff. now exists (p, c).
  - rewrite <- length_all_cells, <- (length_map fst tr). apply Nat2Z.inj_le.
    apply NoDup_incl_length; [apply (steps_positions_NoDup _ _ _ _ _ Hst Hwf)|].
    intros q Hq. now apply In_all_cells, (steps_in_bounds _ _ _ Hst).
  - rewrite (steps_length _ _ _ Hst). lia.
Qed.

(** X12: on a canvas that starts blank, a run that has placed something finds
    its frontier empty only when every cell of the canvas is painted; the
    number of placements is then rows times columns. *)
Theorem frontier_runs_out_only_on_a_full_canvas (s0 s : State Gen) (tr : list (Pos * Color)) :
  well_formed s0 ->
  (forall x y, GetPixel (image s0) x y = sentinel) ->
  steps shuffle s0 tr s -> tr <> [] ->
  PS.is_empty (nextPositions s) = true ->
  (forall q, in_bounds (image s) q -> GetPixelAt (image s) q <> sentinel) /\
  Z.of_nat (length tr) = rows (image s) * cols (image s).
Proof.
  intros Hwf Hblank Hst Hne Hempty.
  destruct (steps_fills_canvas _ _ _ Hst Hwf Hblank Hne Hempty) as [Hall Hlen].
  split; [|exact Hlen]. intros q Hq E.
  apply (steps_painted_nonsentinel _ _ _ Hst Hwf q (Hall q Hq)). now rewrite E.
Qed.

(** *** The whole program *)

Lemma initial_state_cases (imread : String.string -> Mat Channel)
      (argv1 : option String.string) :
  initial_state mt19937 shuffle sort imread argv1 =
  if rows (fst (Init imread argv1)) =? 0 then None
  else Some (start_state mt19937 shuffle sort (fst (Init imread argv1)) (snd (Init imread argv1))).
Proof.
  unfold initial_state, start_state. destruct (Init imread argv1) as [img F]. cbn [fst snd].
  destruct (rows img =? 0); [reflexivity|].
  now destruct (ordered_colors mt19937 shuffle sort).
Qed.

(** The hypotheses of the scorer's cost hold in every state of a run of
    the program, for every colour still in the palette. *)
Lemma steps_bytes (s s' : State Gen) (tr : list (Pos * Color)) :
  steps shuffle s tr s' ->
  canvas_bytes (image s) -> (forall c, In c (colors s) -> valid_color c) ->
  canvas_bytes (image s') /\ (forall c, In c (colors s') -> valid_color c).
Proof.
  induction 1 as [s|s s1 s2 placed tr Hit Hst IH]; intros Hb Hc; [auto|].
  apply iteration_Continue in Hit as (Hcol & _ & _ & _ & _ & Himg & _).
  apply IH.
  - rewrite Himg. intros x y. rewrite GetPixel_SetPixel.
    destruct (_ && _); [|apply Hb].
    apply Hc. rewrite Hcol. apply in_app_iff. right. now left.
  - intros c Hin. apply Hc. rewrite Hcol. apply in_app_iff. now left.
Qed.

Lemma run_states_scorable (imread : String.string -> Mat Channel)
      (argv1 : option String.string) (s0 s : State Gen) (tr : list (Pos * Color)) :
  initial_state mt19937 shuffle sort imread argv1 = Some s0 ->
  steps shuffle s0 tr s ->
  canvas_ok (image s) /\ canvas_bytes (image s) /\
  (forall c, In c (colors s) -> valid_color c).
Proof.
  intros Hinit Hst.
  destruct (initial_state_well_formed _ _ _ _ shuffle_permutes sort_contract _ _ _ Hinit)
    as [Hwf _].
  destruct (well_formed_steps _ _ _ _ _ Hst Hwf) as (_ & _ & Hok & _).
  split; [exact Hok|]. apply (steps_bytes _ _ _ Hst).
  - rewrite initial_state_cases in Hinit.
    destruct (rows (fst (Init imread argv1)) =? 0); [discriminate|].
    injection Hinit as <-. unfold start_state. cbn [image]. intros x y.
    rewrite Init_canvas_blank. unfold valid_color, valid_channel, sentinel, invalidColor.
    cbn [v0 v1 v2]. lia.
  - rewrite initial_state_cases in Hinit.
    destruct (rows (fst (Init imread argv1)) =? 0); [discriminate|].
    injection Hinit as <-. unfold start_state. cbn [colors]. intros c Hc.
    destruct (ordered_colors_permutation _ mt19937 shuffle sort shuffle_permutes sort_contract)
      as [Hperm _].
    apply build_colors_valid, (Permutation_in _ (Permutation_sym Hperm)), Hc.
Qed.

Lemma main_numbered (rd : random_device) (imread : String.string -> Mat Channel)
      (arg : String.string) :
  arg_num arg <> 0 ->
  main mt19937 shuffle sort rd imread (Some arg) =
  Some (grow shuffle (start_state mt19937 shuffle sort (blank 1080 1920) (plus_frontier (arg_num arg)))).
Proof.
  intros Harg. unfold main. rewrite initial_state_cases, Init_cases.
  apply Z.eqb_neq in Harg. rewrite Harg. reflexivity.
Qed.

Lemma plus_frontier_nonempty (arg : String.string) :
  arg_num arg <> 0 -> PS.is_empty (plus_frontier (arg_num arg)) = false.
Proof.
  unfold arg_num.
  destruct (String.eqb arg "4"%string); [intros _; vm_compute; reflexivity|].
  destruct (String.eqb arg "3"%string); [intros _; vm_compute; reflexivity|].
  destruct (String.eqb arg "2"%string); [intros _; vm_compute; reflexivity|].
  congruence.
Qed.

Lemma numbered_run_drains (imread : String.string -> Mat Channel) (arg : String.string) :
  arg_num arg <> 0 ->
  let s0 := start_state mt19937 shuffle sort (blank 1080 1920) (plus_frontier (arg_num arg)) in
  initial_state mt19937 shuffle sort imread (Some arg) = Some s0 /\
  well_formed s0 /\
  Z.of_nat (length (colors s0)) = 1016127 /\
  status (grow shuffle s0) = Finished /\
  colors (final (grow shuffle s0)) = [].
Proof.
  intros Harg s0.
  assert (Hinit : initial_state mt19937 shuffle sort imread (Some arg) = Some s0).
  { rewrite initial_state_cases, Init_cases. apply Z.eqb_neq in Harg. now rewrite Harg. }
  assert (Hmain : main mt19937 shuffle sort (fun _ => 0) imread (Some arg)
                  = Some (grow shuffle s0)) by (unfold main; now rewrite Hinit).
  destruct (main_run _ _ _ _ shuffle_permutes sort_contract _ _ _ _ Hmain)
    as (Hfin & _ & _ & Hdone & _).
  destruct (initial_state_well_formed _ _ _ _ shuffle_permutes sort_contract _ _ _ Hinit)
    as [Hwf _].
  pose proof (grow_steps shuffle s0) as Hst.
  destruct (ordered_colors_permutation _ mt19937 shuffle sort shuffle_permutes sort_contract)
    as [Hperm _].
  assert (Hcol : Z.of_nat (length (colors s0)) = 1016127).
  { unfold s0, start_state. cbn [colors].
    rewrite <- (Permutation_length Hperm). apply length_build_colors. }
  pose proof (steps_length _ _ _ Hst) as Hlen.
  split; [exact Hinit|]. split; [exact Hwf|]. split; [exact Hcol|]. split; [exact Hfin|].
  destruct Hdone as [Hnil|Hempty]; [exact Hnil|exfalso].
  destruct (placements (grow shuffle s0)) as [|pl tr] eqn:Etr.
  - apply steps_nil_inv in Hst. rewrite Hst in Hempty.
    unfold s0, start_state in Hempty. cbn [nextPositions] in Hempty.
    rewrite (plus_frontier_nonempty arg Harg) in Hempty. discriminate.
  - destruct (steps_fills_canvas _ _ _ Hst Hwf) as [_ Hfull];
      [reflexivity|discriminate|exact Hempty|].
    destruct (steps_dims _ _ _ Hst) as [Hr Hc]. rewrite Hr, Hc in Hfull.
    unfold s0, start_state in Hfull. cbn [image rows cols blank] in Hfull. lia.
Qed.

(** X13: in the numbered modes 2, 3 and 4 the program places every one of
    the 1016127 generated colours: the loop ends with the palette empty, and
    the placed colours are a permutation of the generated palette. *)
Theorem numbered_modes_place_every_colour (rd : random_device)
        (imread : String.string -> Mat Channel) (arg : String.string) :
  arg_num arg <> 0 ->
  exists r,
    main mt19937 shuffle sort rd imread (Some arg) = Some r /\
    status r = Finished /\
    colors (final r) = [] /\
    Z.of_nat (length (placements r)) = 1016127 /\
    Permutation (map snd (placements r)) build_colors.
Proof.
  intros Harg.
  destruct (numbered_run_drains imread arg Harg) as (Hinit & _ & Hcol & Hfin & Hnil).
  set (s0 := start_state mt19937 shuffle sort (blank 1080 1920) (plus_frontier (arg_num arg))) in *.
  exists (grow shuffle s0). split; [exact (main_numbered rd imread arg Harg)|].
  pose proof (grow_steps shuffle s0) as Hst.
  pose proof (steps_length _ _ _ Hst) as Hlen.
  split; [exact Hfin|]. split; [exact Hnil|]. split.
  - rewrite Hnil in Hlen. cbn [length] in Hlen. lia.
  - pose proof (steps_colors _ _ _ _ _ Hst) as Hc. rewrite Hnil in Hc. cbn [app] in Hc.
    destruct (ordered_colors_permutation _ mt19937 shuffle sort shuffle_permutes sort_contract)
      as [Hperm _].
    unfold s0, start_state in Hc. cbn [colors] in Hc.
    rewrite Hperm, Hc. apply Permutation_rev.
Qed.

(** X14: [main] returns 1 without entering the loop exactly when it is given
    no argument, or an argument other than 2, 3 and 4 that names an image
    without rows. *)
Theorem main_returns_1 (rd : random_device) (imread : String.string -> Mat Channel)
        (argv1 : option String.string) :
  main mt19937 shuffle sort rd imread argv1 = None <->
  match argv1 with
  | None => True
  | Some arg => arg_num arg = 0 /\ rows (imread arg) = 0
  end.
Proof.
  unfold main. rewrite initial_state_cases. destruct argv1 as [arg|].
  - rewrite Init_cases. destruct (Z.eqb_spec (arg_num arg) 0) as [E|E]; cbn [fst rows blank].
    + destruct (Z.eqb_spec (rows (imread arg)) 0) as [E'|E']; cbn [option_map].
      * tauto.
      * split; [discriminate|tauto].
    + cbn. split; [discriminate|tauto].
  - cbn. tauto.
Qed.

(** X15: in image mode a source image with rows and no pixel above 0 gives an
    empty frontier: the loop ends at its first test, nothing is placed, the
    whole sorted palette is left and the canvas stays blank. *)
Theorem black_image_places_nothing (rd : random_device)
        (imread : String.string -> Mat Channel) (arg : String.string) :
  arg_num arg = 0 -> rows (imread arg) <> 0 ->
  (forall q, in_bounds (imread arg) q -> at_ (imread arg) (snd q) (fst q) <= 0) ->
  exists r,
    main mt19937 shuffle sort rd imread (Some arg) = Some r /\
    placements r = [] /\ status r = Finished /\
    colors (final r) = fst (ordered_colors mt19937 shuffle sort) /\
    (forall x y, GetPixel (image (final r)) x y = sentinel).
Proof.
  intros Harg Hrows Hblack.
  set (s0 := start_state mt19937 shuffle sort (blank (rows (imread arg)) (cols (imread arg)))
                         (NonBlackPositions (imread arg))).
  assert (Hmain : main mt19937 shuffle sort rd imread (Some arg) = Some (grow shuffle s0)).
  { unfold main. rewrite initial_state_cases, Init_cases, Harg. cbn [Z.eqb fst snd rows blank].
    apply Z.eqb_neq in Hrows. now rewrite Hrows. }
  assert (Hempty : PS.is_empty (nextPositions s0) = true).
  { apply PS.is_empty_spec. intros q Hq. unfold s0, start_state in Hq.
    cbn [nextPositions] in Hq. apply NonBlackPositions_spec in Hq as [Hb Hq].
    specialize (Hblack q Hb). lia. }
  assert (Hgrow : grow shuffle s0 = mkRun [] s0 Finished).
  { unfold grow. cbn [loop].
    assert (E : iteration shuffle s0 = Done) by (apply iteration_Done; now right).
    now rewrite E. }
  exists (grow shuffle s0). split; [exact Hmain|]. rewrite Hgrow. cbn [placements status final].
  repeat split.
Qed.

(** X16: the colours are placed in order of non-increasing hue: the hue of a
    placed colour is at most the hue of every colour placed before it, and
    the colours left when the loop stops have hues at most those of the
    placed ones.  Every placed colour is a generated colour. *)
Theorem hue_never_rises_along_the_run (rd : random_device)
        (imread : String.string -> Mat Channel) (argv1 : option String.string)
        (r : Run Gen) :
  main mt19937 shuffle sort rd imread argv1 = Some r ->
  StronglySorted (fun a b => (v0 (bgr2hsv b) <=? v0 (bgr2hsv a))%float = true)
                 (map snd (placements r)) /\
  (forall c, In c (map snd (placements r)) -> In c build_colors) /\
  (forall c c', In c (colors (final r)) -> In c' (map snd (placements r)) ->
                (v0 (bgr2hsv c) <=? v0 (bgr2hsv c'))%float = true).
Proof.
  unfold main. rewrite initial_state_cases.
  destruct (rows (fst (Init imread argv1)) =? 0); [discriminate|].
  cbn [option_map]. intros H. injection H as <-.
  set (s0 := start_state _ _ _ _ _).
  pose proof (steps_colors _ _ _ _ _ (grow_steps shuffle s0)) as Hcol.
  destruct (ordered_colors_permutation _ mt19937 shuffle sort shuffle_permutes sort_contract)
    as [Hperm Hsorted].
  change (colors s0) with (fst (ordered_colors mt19937 shuffle sort)) in Hcol.
  assert (Hleb : StronglySorted (fun a b => (v0 (bgr2hsv a) <=? v0 (bgr2hsv b))%float = true)
                                (fst (ordered_colors mt19937 shuffle sort))).
  { revert Hsorted. apply StronglySorted_weaken. intros a b Ha Hb H.
    apply ltb_false_leb; [| |exact H]; apply hue_not_nan, build_colors_valid;
      apply (Permutation_in _ (Permutation_sym Hperm)); assumption. }
  rewrite Hcol in Hleb. apply StronglySorted_app_inv in Hleb as (_ & Hrev & Hcross).
  split; [now apply StronglySorted_rev in Hrev|]. split.
  - intros c Hc. apply (Permutation_in _ (Permutation_sym Hperm)).
    rewrite Hcol, in_app_iff. right. now apply in_rev in Hc.
  - intros c c' Hc Hc'. apply Hcross; [exact Hc|]. now apply in_rev in Hc'.
Qed.

End RunFacts.

(** ** The snapshot block *)

Lemma round_half_even_nearest (n : Z) : -1 <= 2 * round_half_even n - n <= 1.
Proof.
  unfold round_half_even. pose proof (Zmod_even n) as Hn.
  destruct (Z.even n); [|destruct (Z.even (n / 2))]; Z.div_mod_to_equations; lia.
Qed.

Section SnapshotProperties.

Variable Gen : Type.
Variable mt19937 : Z -> Gen.
Variable shuffle : forall T : Type, list T -> Gen -> list T * Gen.
Variable sort : forall T : Type, (T -> T -> bool) -> list T -> list T.
Variable cv : OpenCV.

Hypothesis dilate_size :
  forall src kernel, rows (dilate cv src kernel) = rows src /\ cols (dilate cv src kernel) = cols src.
Hypothesis medianBlur_size :
  forall src ksize, rows (medianBlur cv src ksize) = rows src /\
                    cols (medianBlur cv src ksize) = cols src.
Hypothesis cvRound_half_nearest : forall n, -1 <= 2 * cvRound_half cv n - n <= 1.
Hypothesis shuffle_permutes :
  forall (T : Type) (l : list T) (g : Gen), Permutation l (fst (shuffle T l g)).
Hypothesis sort_contract :
  forall (T : Type) (comp : T -> T -> bool) (l : list T),
    strict_weak_order_on comp l ->
    Permutation l (sort T comp l) /\ sorted_by comp (sort T comp l).

Lemma cvRound_half_even (k : Z) : cvRound_half cv (2 * k) = k.
Proof. pose proof (cvRound_half_nearest (2 * k)). lia. Qed.

Lemma Embellish_cells (image : Mat Color) :
  exists out,
    Embellish cv image = Some out /\ rows out = rows image /\ cols out = cols image /\
    forall x y,
      GetPixel out x y =
      per_channel (fun a b => saturate_cast_uchar (cvRound_half cv (2 * a + b)))
        (GetPixel image x y)
        (per_channel (fun a b => saturate_cast_uchar (a * b))
           (GetPixel (medianBlur cv (dilate cv image (mkMat 3 3 (fun _ _ => 1))) 3) x y)
           (let t := if v0 (GetPixel image x y) >? invalidColor then 0 else 1 in vec3 t t t)).
Proof.
  unfold Embellish, multiply, addWeighted_1_half, per_element2, same_size.
  set (filtered := medianBlur cv (dilate cv image (mkMat 3 3 (fun _ _ => 1))) 3).
  assert (Hr : rows filtered = rows image).
  { unfold filtered. rewrite (proj1 (medianBlur_size _ _)). apply dilate_size. }
  assert (Hc : cols filtered = cols image).
  { unfold filtered. rewrite (proj2 (medianBlur_size _ _)). apply dilate_size. }
  cbn [rows cols cvtColor_gray2bgr threshold_binary_inv split0 per_element].
  rewrite Hr, Hc, !Z.eqb_refl. cbn [andb rows cols]. rewrite !Z.eqb_refl. cbn [andb].
  eexists. split; [reflexivity|]. cbn [rows cols]. split; [reflexivity|]. split; [reflexivity|].
  intros x y. reflexivity.
Qed.

Lemma Embellish_painted (image out : Mat Color) (x y : Z) :
  Embellish cv image = Some out ->
  valid_color (GetPixel image x y) -> v0 (GetPixel image x y) <> invalidColor ->
  GetPixel out x y = GetPixel image x y.
Proof.
  destruct (Embellish_cells image) as (out' & Hout & _ & _ & Hcell).
  rewrite Hout. intros H Hv Hset. injection H as <-. rewrite Hcell.
  destruct Hv as (H0 & H1 & H2). unfold valid_channel, invalidColor in *.
  destruct (Z.gtb_spec (v0 (GetPixel image x y)) 0) as [_|Hle]; [|lia].
  destruct (GetPixel image x y) as [a0 a1 a2]. cbn [v0 v1 v2] in *.
  unfold per_channel. cbn [v0 v1 v2].
  rewrite !Z.mul_0_r. change (saturate_cast_uchar 0) with 0. rewrite !Z.add_0_r.
  rewrite !cvRound_half_even. unfold saturate_cast_uchar. f_equal; lia.
Qed.

(** X17: [Embellish] returns an image of the size of the canvas in which
    every painted cell keeps its colour; in a sentinel cell each channel is
    half the channel of the dilated and median-filtered canvas, up to the
    rounding. *)
Theorem Embellish_keeps_painted_cells (image : Mat Color) :
  exists out,
    Embellish cv image = Some out /\ rows out = rows image /\ cols out = cols image /\
    forall x y,
      valid_color (GetPixel image x y) ->
      (v0 (GetPixel image x y) <> invalidColor -> GetPixel out x y = GetPixel image x y) /\
      (GetPixel image x y = sentinel ->
       let f := GetPixel (medianBlur cv (dilate cv image (mkMat 3 3 (fun _ _ => 1))) 3) x y in
       valid_color f ->
       (-1 <= 2 * v0 (GetPixel out x y) - v0 f <= 1) /\
       (-1 <= 2 * v1 (GetPixel out x y) - v1 f <= 1) /\
       (-1 <= 2 * v2 (GetPixel out x y) - v2 f <= 1)).
Proof.
  destruct (Embellish_cells image) as (out & Hout & Hr & Hc & Hcell).
  exists out. split; [exact Hout|]. split; [exact Hr|]. split; [exact Hc|].
  intros x y Hv. rewrite Hcell. split.
  - intros Hset. rewrite <- Hcell. now apply Embellish_painted.
  - intros -> f Hf. fold f. destruct Hf as (H0 & H1 & H2). unfold valid_channel in *.
    unfold per_channel, sentinel, invalidColor. cbn [v0 v1 v2].
    change (0 >? 0) with false. cbv iota. rewrite !Z.mul_1_r, !Z.mul_0_r, !Z.add_0_l.
    pose proof (cvRound_half_nearest (saturate_cast_uchar (v0 f))).
    pose proof (cvRound_half_nearest (saturate_cast_uchar (v1 f))).
    pose proof (cvRound_half_nearest (saturate_cast_uchar (v2 f))).
    unfold saturate_cast_uchar in *. lia.
Qed.

Lemma Zrange_nil (lo hi : Z) : hi <= lo -> Zrange lo hi = [].
Proof. intros H. unfold Zrange. now replace (Z.to_nat (hi - lo)) with 0%nat by lia. Qed.

Lemma Zrange_cons (lo hi : Z) : lo < hi -> Zrange lo hi = lo :: Zrange (lo + 1) hi.
Proof.
  intros H. unfold Zrange.
  replace (Z.to_nat (hi - lo)) with (S (Z.to_nat (hi - (lo + 1)))) by lia.
  cbn [seq map]. f_equal; [lia|]. rewrite <- seq_shift, map_map.
  apply map_ext. intros k. lia.
Qed.

Lemma snapshots_spec (fuel : nat) :
  forall (M i : Z) (s : State Gen),
    0 <= i -> i + Z.of_nat (length (colors s)) < 2 ^ 64 ->
    let n := Z.of_nat (length (colors s)) in
    let T := Z.of_nat (length (placements (loop shuffle fuel s))) in
    let R := snapshots shuffle cv fuel M i s in
    Z.of_nat (length R) = (n - 1) / 512 - (n - T - 1) / 512 /\
    map imgNum R = Zrange (i + 1) (i + 1 + Z.of_nat (length R)) /\
    Forall (fun r => shown_maxSaves r = M /\
                     colors_size r = 512 * ((n - 1) / 512 + i + 1 - imgNum r) /\
                     snapshot_of shuffle cv s r) R.
Proof.
  induction fuel as [|fuel IH]; intros M i s Hi Hwrap; cbn [snapshots loop].
  - cbn [placements length map]. replace (_ - Z.of_nat 0 - 1) with (Z.of_nat (length (colors s)) - 1) by lia.
    split; [lia|]. split; [|constructor]. symmetry. apply Zrange_nil. lia.
  - destruct (iteration shuffle s) as [|placed s'|f] eqn:Hit.
    + cbn [placements length map].
      replace (_ - Z.of_nat 0 - 1) with (Z.of_nat (length (colors s)) - 1) by lia.
      split; [lia|]. split; [|constructor]. symmetry. apply Zrange_nil. lia.
    + pose proof (iteration_Continue _ _ _ _ _ Hit) as (Hcol & _).
      assert (Hn : Z.of_nat (length (colors s)) = Z.of_nat (length (colors s')) + 1).
      { rewrite Hcol, length_app. cbn [length]. lia. }
      cbn [placements length]. rewrite Hn.
      assert (Hlift : forall r, snapshot_of shuffle cv s' r -> snapshot_of shuffle cv s r).
      { intros r (tr & s'' & _ & Hst & H1 & H2 & H3). exists (placed :: tr), s''.
        split; [discriminate|]. split; [econstructor; eassumption|]. auto. }
      unfold saveEveryNFrames.
      destruct (Z.eqb_spec (Z.of_nat (length (colors s')) mod 512) 0) as [E|E].
      * assert (Ei : (i + 1) mod 2 ^ 64 = i + 1) by (apply Z.mod_small; lia).
        rewrite Ei.
        destruct (IH M (i + 1) s') as (Hlen & Hnum & Hall); [lia|lia|].
        set (R' := snapshots shuffle cv fuel M (i + 1) s') in *.
        set (n' := Z.of_nat (length (colors s'))) in *.
        set (T' := Z.of_nat (length (placements (loop shuffle fuel s')))) in *.
        assert (Hdiv : n' / 512 = (n' - 1) / 512 + 1).
        { clearbody n'. clear - E. Z.div_mod_to_equations. lia. }
        cbn [length map imgNum].
        replace (n' + 1 - 1) with n' by lia.
        replace (n' + 1 - Z.of_nat (S (length (placements (loop shuffle fuel s')))) - 1)
          with (n' - T' - 1) by (unfold T'; lia).
        split; [lia|]. split.
        { rewrite (Zrange_cons (i + 1)) by lia. f_equal. rewrite Hnum. f_equal; lia. }
        constructor.
        { cbn [shown_maxSaves colors_size imgNum]. split; [reflexivity|]. split.
          - fold n'. clearbody n'. clear - E. Z.div_mod_to_equations. lia.
          - exists [placed], s'. split; [discriminate|].
            split; [econstructor; [eassumption|constructor]|]. auto. }
        revert Hall. apply Forall_impl. intros r (H1 & H2 & H3).
        split; [exact H1|]. split; [|now apply Hlift]. rewrite H2. lia.
      * destruct (IH M i s') as (Hlen & Hnum & Hall); [lia|lia|].
        set (R' := snapshots shuffle cv fuel M i s') in *.
        set (n' := Z.of_nat (length (colors s'))) in *.
        set (T' := Z.of_nat (length (placements (loop shuffle fuel s')))) in *.
        assert (Hdiv : n' / 512 = (n' - 1) / 512).
        { clearbody n'. clear - E. Z.div_mod_to_equations. lia. }
        replace (n' + 1 - 1) with n' by lia.
        replace (n' + 1 - Z.of_nat (S (length (placements (loop shuffle fuel s')))) - 1)
          with (n' - T' - 1) by (unfold T'; lia).
        split; [lia|]. split; [exact Hnum|].
        revert Hall. apply Forall_impl. intros r (H1 & H2 & H3).
        split; [exact H1|]. split; [|now apply Hlift]. rewrite H2. lia.
    + cbn [placements length map].
      replace (_ - Z.of_nat 0 - 1) with (Z.of_nat (length (colors s)) - 1) by lia.
      split; [lia|]. split; [|constructor]. symmetry. apply Zrange_nil. lia.
Qed.

(** X18: the snapshots of a run are numbered 1, 2, 3, ... in order; each shows
    the same denominator, the palette size divided by 512, and is taken
    after a placement when the number of colours left is a multiple of 512;
    their count is the number of such multiples passed. *)
Theorem snapshots_are_numbered (s : State Gen) :
  Z.of_nat (length (colors s)) < 2 ^ 64 ->
  let n := Z.of_nat (length (colors s)) in
  let placed := Z.of_nat (length (placements (grow shuffle s))) in
  let R := run_snapshots shuffle cv s in
  Z.of_nat (length R) = (n - 1) / 512 - (n - placed - 1) / 512 /\
  map imgNum R = Zrange 1 (1 + Z.of_nat (length R)) /\
  Forall (fun r => shown_maxSaves r = n / 512 /\
                   colors_size r = 512 * ((n - 1) / 512 + 1 - imgNum r) /\
                   snapshot_of shuffle cv s r) R.
Proof.
  intros Hn n placed R.
  destruct (snapshots_spec (S (length (colors s))) (n ÷ saveEveryNFrames) 0 s)
    as (Hlen & Hnum & Hall); [lia|lia|].
  fold n in Hlen, Hall. split; [exact Hlen|]. split; [exact Hnum|].
  revert Hall. apply Forall_impl. intros r (H1 & H2 & H3).
  split; [|split; [|exact H3]].
  - rewrite H1. apply Z.quot_div_nonneg; unfold saveEveryNFrames, n; lia.
  - rewrite H2. f_equal. lia.
Qed.

(** X19: in the numbered modes the program writes 1985 snapshots while the
    denominator it prints is 1984; snapshot number k is taken with
    512 * (1985 - k) colours left, the last one with the palette empty. *)
Theorem numbered_modes_save_1985_images (rd : random_device)
        (imread : String.string -> Mat Channel) (arg : String.string) :
  arg_num arg <> 0 ->
  exists R,
    main_snapshots mt19937 shuffle sort cv rd imread (Some arg) = Some R /\
    Z.of_nat (length R) = 1985 /\
    map imgNum R = Zrange 1 1986 /\
    Forall (fun r => shown_maxSaves r = 1984 /\
                     colors_size r = 512 * (1985 - imgNum r)) R.
Proof.
  intros Harg.
  destruct (numbered_run_drains Gen mt19937 shuffle sort shuffle_permutes sort_contract
              imread arg Harg) as (Hinit & _ & Hcol & _ & Hnil).
  set (s0 := start_state mt19937 shuffle sort (blank 1080 1920)
                         (plus_frontier (arg_num arg))) in *.
  exists (run_snapshots shuffle cv s0). unfold main_snapshots. rewrite Hinit. split; [reflexivity|].
  pose proof (steps_length _ _ _ _ _ (grow_steps shuffle s0)) as Hlen.
  rewrite Hnil in Hlen. cbn [length plus] in Hlen.
  destruct (snapshots_spec (S (length (colors s0)))
              (Z.of_nat (length (colors s0)) ÷ saveEveryNFrames) 0 s0)
    as (Hcount & Hnum & Hall); [lia|rewrite Hcol; reflexivity|].
  change (loop shuffle (S (length (colors s0))) s0) with (grow shuffle s0) in Hcount.
  fold (run_snapshots shuffle cv s0) in Hcount, Hnum, Hall.
  rewrite <- Hlen, Hcol in Hcount. rewrite Hcol in Hall.
  assert (Hc : Z.of_nat (length (run_snapshots shuffle cv s0)) = 1985) by (rewrite Hcount; reflexivity).
  split; [exact Hc|]. split; [rewrite Hnum, Hc; reflexivity|].
  revert Hall. apply Forall_impl. intros r (H1 & H2 & _). split.
  - rewrite H1. reflexivity.
  - rewrite H2. change ((1016127 - 1) / 512) with 1984. lia.
Qed.

(** X20: every snapshot is an image of the size of the canvas that shows each
    colour placed so far, unchanged, at the position where it was placed. *)
Theorem snapshots_show_the_placements (s0 : State Gen) :
  well_formed s0 -> (forall c, In c (colors s0) -> valid_color c) ->
  Z.of_nat (length (colors s0)) < 2 ^ 64 ->
  Forall (fun r => exists out tr s,
              outImage r = Some out /\ steps shuffle s0 tr s /\
              Z.of_nat (length (colors s)) = colors_size r /\
              rows out = rows (image s0) /\ cols out = cols (image s0) /\
              forall p c, In (p, c) tr -> GetPixelAt out p = c)
         (run_snapshots shuffle cv s0).
Proof.
  intros Hwf Hvalid Hn.
  destruct (snapshots_spec (S (length (colors s0)))
              (Z.of_nat (length (colors s0)) ÷ saveEveryNFrames) 0 s0)
    as (_ & _ & Hall); [lia|lia|].
  revert Hall. apply Forall_impl. intros r (_ & _ & tr & s & _ & Hst & Hc & _ & Himg).
  destruct (Embellish_cells (image s)) as (out & Hout & Hr & Hcl & _).
  destruct (steps_dims _ _ _ _ _ Hst) as [Hr' Hc'].
  exists out, tr, s. split; [congruence|]. split; [exact Hst|]. split; [now rewrite Hc|].
  split; [congruence|]. split; [congruence|].
  intros [x y] c Hin.
  pose proof (steps_painted _ _ _ _ _ Hst Hwf _ _ Hin) as Hp. cbn [GetPixelAt] in *.
  assert (Hcin : In c (colors s0)).
  { apply (steps_colors_used _ _ _ _ _ Hst). apply in_map_iff. now exists ((x, y), c). }
  destruct Hwf as (_ & _ & _ & Hpal).
  rewrite (Embellish_painted _ _ x y Hout); rewrite Hp; [reflexivity|now apply Hvalid|].
  now apply Hpal.
Qed.

End SnapshotProperties.

(** ** The further properties at work on concrete inputs *)

Lemma boxed_state_well_formed : well_formed boxed_state.
Proof.
  split; [|split; [|split]].
  - intros q Hq. apply PS.add_spec in Hq as [->|Hq]; [|now apply PS.empty_spec in Hq].
    unfold in_bounds. cbn. lia.
  - intros [x y] _. reflexivity.
  - intros x y _. reflexivity.
  - intros c Hc. cbn in Hc. destruct Hc as [<-|[<-|[]]]; discriminate.
Qed.

Lemma demo_state_colors_valid (c : Color) : In c (colors demo_state) -> valid_color c.
Proof.
  intros Hc. cbn in Hc. destruct Hc as [<-|[<-|[<-|[]]]];
    unfold valid_color, valid_channel; cbn; lia.
Qed.

Lemma opencv_box_dilate_size (src : Mat Color) (kernel : Mat Channel) :
  rows (dilate opencv_box src kernel) = rows src /\
  cols (dilate opencv_box src kernel) = cols src.
Proof. split; reflexivity. Qed.

Lemma opencv_box_medianBlur_size (src : Mat Color) (ksize : Z) :
  rows (medianBlur opencv_box src ksize) = rows src /\
  cols (medianBlur opencv_box src ksize) = cols src.
Proof. split; reflexivity. Qed.

Lemma bgr2hsv_grey_witness :
  valid_color (vec3 8 8 8) /\
  bgr2hsv (vec3 8 8 8) = vec3 0%float 0%float 0%float.
Proof.
  assert (H : valid_color (vec3 8 8 8)) by (unfold valid_color, valid_channel; cbn; lia).
  split; [exact H|]. apply (bgr2hsv_grey _ H). split; reflexivity.
Defined.

Lemma bgr2hsv_coloured_witness :
  valid_color (vec3 12 2 6) /\ max_channel (vec3 12 2 6) <> min_channel (vec3 12 2 6) /\
  v2 (bgr2hsv (vec3 12 2 6)) = chan 12.
Proof.
  assert (H : valid_color (vec3 12 2 6)) by (unfold valid_color, valid_channel; cbn; lia).
  assert (H' : max_channel (vec3 12 2 6) <> min_channel (vec3 12 2 6)) by discriminate.
  split; [exact H|]. split; [exact H'|].
  exact (proj1 (bgr2hsv_coloured _ H H')).
Defined.

Lemma hue_less_strict_weak_order_witness :
  (forall c, In c (colors demo_state) -> valid_color c) /\
  strict_weak_order_on hue_less (colors demo_state).
Proof.
  split; [exact demo_state_colors_valid|].
  exact (proj1 (hue_less_strict_weak_order _ demo_state_colors_valid)).
Defined.

Lemma placements_pop_the_palette_witness :
  steps lehmer_shuffle demo_state (placements (grow lehmer_shuffle demo_state))
        (final (grow lehmer_shuffle demo_state)) /\
  colors demo_state =
  colors (final (grow lehmer_shuffle demo_state)) ++
  rev (map snd (placements (grow lehmer_shuffle demo_state))).
Proof.
  split; [exact (grow_steps lehmer_shuffle demo_state)|].
  exact (proj1 (placements_pop_the_palette Z lehmer_shuffle demo_state _ _
                  (grow_steps lehmer_shuffle demo_state))).
Defined.

Lemma canvas_is_the_placements_witness :
  well_formed demo_state /\
  rows (image (final (grow lehmer_shuffle demo_state))) = rows (image demo_state) /\
  forall p c, In (p, c) (placements (grow lehmer_shuffle demo_state)) ->
              GetPixelAt (image (final (grow lehmer_shuffle demo_state))) p = c.
Proof.
  split; [exact demo_state_well_formed|].
  destruct (canvas_is_the_placements Z lehmer_shuffle demo_state _ _
              demo_state_well_formed (grow_steps lehmer_shuffle demo_state))
    as (H1 & _ & H2 & _).
  split; assumption.
Defined.

Lemma frontier_is_the_open_border_witness :
  well_formed demo_state /\
  forall q, PS.In q (nextPositions (final (grow lehmer_shuffle demo_state))) ->
            GetPixelAt (image (final (grow lehmer_shuffle demo_state))) q = sentinel.
Proof.
  split; [exact demo_state_well_formed|]. intros q Hq.
  apply (frontier_is_the_open_border Z lehmer_shuffle demo_state _ _
           demo_state_well_formed (grow_steps lehmer_shuffle demo_state)) in Hq.
  exact (proj1 (proj2 Hq)).
Defined.

Lemma placements_fit_the_canvas_witness :
  well_formed demo_state /\
  Z.of_nat (length (placements (grow lehmer_shuffle demo_state))) <=
  Z.max 0 (rows (image demo_state)) * Z.max 0 (cols (image demo_state)).
Proof.
  split; [exact demo_state_well_formed|].
  exact (proj1 (proj2 (placements_fit_the_canvas Z lehmer_shuffle demo_state _ _
                         demo_state_well_formed (grow_steps lehmer_shuffle demo_state)))).
Defined.

Lemma frontier_runs_out_only_on_a_full_canvas_witness :
  well_formed boxed_state /\
  placements (grow lehmer_shuffle boxed_state) <> [] /\
  PS.is_empty (nextPositions (final (grow lehmer_shuffle boxed_state))) = true /\
  Z.of_nat (length (placements (grow lehmer_shuffle boxed_state))) =
  rows (image (final (grow lehmer_shuffle boxed_state))) *
  cols (image (final (grow lehmer_shuffle boxed_state))).
Proof.
  assert (Hne : placements (grow lehmer_shuffle boxed_state) <> [])
    by (vm_compute; discriminate).
  assert (He : PS.is_empty (nextPositions (final (grow lehmer_shuffle boxed_state))) = true)
    by (vm_compute; reflexivity).
  split; [exact boxed_state_well_formed|]. split; [exact Hne|]. split; [exact He|].
  exact (proj2 (frontier_runs_out_only_on_a_full_canvas Z lehmer_shuffle boxed_state _ _
                  boxed_state_well_formed (fun _ _ => eq_refl)
                  (grow_steps lehmer_shuffle boxed_state) Hne He)).
Defined.

Lemma numbered_modes_place_every_colour_witness :
  arg_num "2"%string <> 0 /\
  exists r,
    main lehmer_seed lehmer_shuffle insertion_sort (fun _ => 0) no_file (Some "2"%string)
    = Some r /\ colors (final r) = [].
Proof.
  assert (H : arg_num "2"%string <> 0) by discriminate.
  split; [exact H|].
  destruct (numbered_modes_place_every_colour Z lehmer_seed lehmer_shuffle insertion_sort
              lehmer_shuffle_permutes insertion_sort_contract (fun _ => 0) no_file
              "2"%string H) as (r & Hr & _ & Hnil & _).
  exists r. split; assumption.
Defined.

Lemma black_image_places_nothing_witness :
  arg_num "black.png"%string = 0 /\ rows (black_pixel_file "black.png"%string) <> 0 /\
  exists r,
    main lehmer_seed lehmer_shuffle insertion_sort (fun _ => 0) black_pixel_file
         (Some "black.png"%string) = Some r /\ placements r = [].
Proof.
  assert (H : rows (black_pixel_file "black.png"%string) <> 0) by discriminate.
  split; [reflexivity|]. split; [exact H|].
  destruct (black_image_places_nothing Z lehmer_seed lehmer_shuffle insertion_sort
              (fun _ => 0) black_pixel_file "black.png"%string eq_refl H
              (fun _ _ => Z.le_refl 0)) as (r & Hr & Hp & _).
  exists r. split; assumption.
Defined.

Lemma hue_never_rises_along_the_run_witness :
  let r := grow lehmer_shuffle
                (start_state lehmer_seed lehmer_shuffle insertion_sort (blank 1080 1920)
                             (plus_frontier (arg_num "3"%string))) in
  main lehmer_seed lehmer_shuffle insertion_sort (fun _ => 0) no_file (Some "3"%string)
  = Some r /\
  StronglySorted (fun a b => (v0 (bgr2hsv b) <=? v0 (bgr2hsv a))%float = true)
                 (map snd (placements r)).
Proof.
  intros r.
  assert (H : main lehmer_seed lehmer_shuffle insertion_sort (fun _ => 0) no_file
                   (Some "3"%string) = Some r).
  { apply main_numbered. discriminate. }
  split; [exact H|].
  exact (proj1 (hue_never_rises_along_the_run Z lehmer_seed lehmer_shuffle insertion_sort
                  lehmer_shuffle_permutes insertion_sort_contract _ _ _ _ H)).
Defined.

Lemma Embellish_keeps_painted_cells_witness :
  valid_color (GetPixel demo_image 1 1) /\
  exists out,
    Embellish opencv_box demo_image = Some out /\
    GetPixel out 1 1 = GetPixel demo_image 1 1.
Proof.
  assert (H : valid_color (GetPixel demo_image 1 1))
    by (unfold valid_color, valid_channel; cbn; lia).
  split; [exact H|].
  destruct (Embellish_keeps_painted_cells opencv_box opencv_box_dilate_size
              opencv_box_medianBlur_size round_half_even_nearest demo_image)
    as (out & Hout & _ & _ & Hcell).
  exists out. split; [exact Hout|]. apply (Hcell 1 1 H). discriminate.
Defined.

Lemma snapshots_are_numbered_witness :
  Z.of_nat (length (colors demo_state)) < 2 ^ 64 /\
  map imgNum (run_snapshots lehmer_shuffle opencv_box demo_state) =
  Zrange 1 (1 + Z.of_nat (length (run_snapshots lehmer_shuffle opencv_box demo_state))).
Proof.
  assert (H : Z.of_nat (length (colors demo_state)) < 2 ^ 64) by reflexivity.
  split; [exact H|].
  exact (proj1 (proj2 (snapshots_are_numbered Z lehmer_shuffle opencv_box demo_state H))).
Defined.

Lemma numbered_modes_save_1985_images_witness :
  arg_num "4"%string <> 0 /\
  exists R,
    main_snapshots lehmer_seed lehmer_shuffle insertion_sort opencv_box (fun _ => 0)
                   no_file (Some "4"%string) = Some R /\
    Z.of_nat (length R) = 1985.
Proof.
  assert (H : arg_num "4"%string <> 0) by discriminate.
  split; [exact H|].
  destruct (numbered_modes_save_1985_images Z lehmer_seed lehmer_shuffle insertion_sort
              opencv_box lehmer_shuffle_permutes insertion_sort_contract (fun _ => 0)
              no_file "4"%string H) as (R & HR & Hlen & _).
  exists R. split; assumption.
Defined.

Lemma snapshots_show_the_placements_witness :
  well_formed demo_state /\
  (forall c, In c (colors demo_state) -> valid_color c) /\
  Z.of_nat (length (colors demo_state)) < 2 ^ 64 /\
  Forall (fun r => exists out, outImage r = Some out /\
                               rows out = rows (image demo_state))
         (run_snapshots lehmer_shuffle opencv_box demo_state).
Proof.
  assert (H : Z.of_nat (length (colors demo_state)) < 2 ^ 64) by reflexivity.
  split; [exact demo_state_well_formed|]. split; [exact demo_state_colors_valid|].
  split; [exact H|].
  pose proof (snapshots_show_the_placements Z lehmer_shuffle opencv_box
                opencv_box_dilate_size opencv_box_medianBlur_size round_half_even_nearest
                demo_state demo_state_well_formed demo_state_colors_valid H) as Hall.
  revert Hall. apply Forall_impl.
  intros r (out & tr & s & Hout & _ & _ & Hr & _). exists out. split; assumption.
Defined.

(** The snapshot of the demo run: one image, taken when the palette is
    empty, in which the three placed colours are as placed and the six
    unset cells are filled with half the filtered colour. *)
Example demo_snapshot :
  match run_snapshots lehmer_shuffle opencv_box demo_state with
  | [r] =>
      imgNum r = 1 /\ shown_maxSaves r = 0 /\ colors_size r = 0 /\
      nextPositions_size r = 6 /\
      match outImage r with
      | Some out =>
          map (fun q => GetPixelAt out q) (all_cells out) =
          [vec3 6 1 3; vec3 6 1 3; vec3 6 1 3;
           vec3 4 2 2; vec3 12 2 6; vec3 6 1 3;
           vec3 8 6 2; vec3 6 3 3; vec3 6 1 3]
      | None => False
      end
  | _ => False
  end.
Proof. vm_compute. repeat split; reflexivity. Qed.
